(** * Wayfire per-output render manager: damage, effect hooks, post chain

    Shallow embedding of [src/output/render-manager.cpp].  Integers of the
    C++ code ([int], [uint32_t] ids) are taken in [Z]; the code performs no
    arithmetic on them that is meant to wrap (signed overflow is undefined
    in C++), so no wrap-around is written out.  The pixman region library,
    wlroots and the GL context are collaborators outside the repository;
    they are modelled by the small executable definitions below. *)

From Stdlib Require Import ZArith List Bool Lia QArith.
Import ListNotations.
Local Open Scope Z_scope.

(** ** Pixman regions

    A [pixman_region32_t] is a finite union of axis-aligned boxes; a box is
    the half-open product [x1, x2) x [y1, y2).  The model keeps a list of
    boxes and reasons about the set of pixels it denotes ([contains]); the
    banded canonical form pixman maintains internally is not represented. *)
Module Pixman.

Record box32 := mkBox { x1 : Z; y1 : Z; x2 : Z; y2 : Z }.

Definition region32 := list box32.

Definition box_not_empty (b : box32) : bool :=
  (x1 b <? x2 b) && (y1 b <? y2 b).

Definition in_box (px py : Z) (b : box32) : bool :=
  (x1 b <=? px) && (px <? x2 b) && (y1 b <=? py) && (py <? y2 b).

(** Pixel membership in a region. *)
Definition contains (r : region32) (px py : Z) : bool :=
  existsb (in_box px py) r.

(** A box lies within a region when each of its pixels does. *)
Definition box_within (b : box32) (r : region32) : Prop :=
  forall px py, in_box px py b = true -> contains r px py = true.

Definition rect (x y w h : Z) : box32 := mkBox x y (x + w) (y + h).

Definition box_intersect (a b : box32) : box32 :=
  mkBox (Z.max (x1 a) (x1 b)) (Z.max (y1 a) (y1 b))
        (Z.min (x2 a) (x2 b)) (Z.min (y2 a) (y2 b)).

(** The part of [a] outside [b]: the band above [b], the band below it, and
    what is left and right of [b] in between. *)
Definition box_subtract (a b : box32) : region32 :=
  filter box_not_empty
    [ mkBox (x1 a) (y1 a) (x2 a) (Z.min (y2 a) (y1 b));
      mkBox (x1 a) (Z.max (y1 a) (y2 b)) (x2 a) (y2 a);
      mkBox (x1 a) (Z.max (y1 a) (y1 b))
            (Z.min (x2 a) (x1 b)) (Z.min (y2 a) (y2 b));
      mkBox (Z.max (x1 a) (x2 b)) (Z.max (y1 a) (y1 b))
            (x2 a) (Z.min (y2 a) (y2 b)) ].

(** [pixman_region32_init] *)
Definition init : region32 := [].

(** [pixman_region32_init_rect]: a rectangle without area gives the empty
    region. *)
Definition init_rect (x y w h : Z) : region32 :=
  filter box_not_empty [rect x y w h].

(** [pixman_region32_clear] *)
Definition clear (_ : region32) : region32 := [].

(** [pixman_region32_copy] *)
Definition copy (src : region32) : region32 := src.

(** [pixman_region32_union] *)
Definition union (a b : region32) : region32 := a ++ b.

(** [pixman_region32_union_rect] *)
Definition union_rect (a : region32) (x y w h : Z) : region32 :=
  union a (init_rect x y w h).

(** [pixman_region32_intersect] *)
Definition intersect (a b : region32) : region32 :=
  flat_map (fun ba => filter box_not_empty (map (box_intersect ba) b)) a.

(** [pixman_region32_intersect_rect] *)
Definition intersect_rect (a : region32) (x y w h : Z) : region32 :=
  intersect a [rect x y w h].

(** [pixman_region32_subtract]: remove the boxes of [b] one after another. *)
Definition subtract (a b : region32) : region32 :=
  fold_left (fun acc bb => flat_map (fun ba => box_subtract ba bb) acc) b a.

(** [pixman_region32_translate] *)
Definition translate (a : region32) (dx dy : Z) : region32 :=
  map (fun b => mkBox (x1 b + dx) (y1 b + dy) (x2 b + dx) (y2 b + dy)) a.

(** [pixman_region32_not_empty] *)
Definition not_empty (a : region32) : bool := existsb box_not_empty a.

(** [pixman_region32_selfcheck]: the representation holds no degenerate
    box. *)
Definition selfcheck (a : region32) : bool := forallb box_not_empty a.

(** [pixman_region32_rectangles] *)
Definition rectangles (a : region32) : list box32 := filter box_not_empty a.

End Pixman.

Import Pixman.

(** ** Collaborators of the render manager *)

(** [wlr_box] *)
Record wlr_box := mkWlrBox { bx : Z; by_ : Z; bwidth : Z; bheight : Z }.

(** [wlr_output]: raw pixel size, scale and the [wl_output_transform]
    value (0..7; the odd ones rotate by a quarter turn). *)
Record wlr_output := mkWlrOutput
  { width : Z; height : Z; scale : Z; transform : nat }.

(** [wlr_output_transformed_resolution] *)
Definition wlr_output_transformed_resolution (o : wlr_output) : Z * Z :=
  if Nat.odd (transform o) then (height o, width o) else (width o, height o).

(** [wlr_output_damage]: the damage the display tracks for the next buffer,
    whether its context can be made current, and the output's own
    [needs_swap] flag. *)
Record wlr_output_damage := mkWlrDamage
  { current : region32; context_ok : bool; output_needs_swap : bool }.

(** A surface as the render manager sees it: whether it is mapped, its
    [alpha] (a [float] in the source, a rational here), the box
    [get_output_geometry] returns, and its opaque region in surface-local
    coordinates, which is what [subtract_opaque] removes. *)
Record wayfire_surface_t := mkSurface
  { surface_id : nat;
    surface_mapped : bool;
    alpha : Q;
    output_geometry : wlr_box;
    opaque_region : region32 }.

Inductive wf_view_role := WF_VIEW_ROLE_TOPLEVEL | WF_VIEW_ROLE_UNMANAGED
                        | WF_VIEW_ROLE_SHELL_VIEW.

Inductive wf_layer := WF_LAYER_BELOW | WF_LAYER_MIDDLE | WF_LAYER_ABOVE.

(** A view: itself a surface ([self]), with the list [for_each_surface]
    enumerates (surface and its position), front first. *)
Record wayfire_view_t := mkView
  { self : wayfire_surface_t;
    view_visible : bool;
    role : wf_view_role;
    has_transformer : bool;
    bounding_box : wlr_box;
    for_each_surface : list (wayfire_surface_t * Z * Z);
    layer : wf_layer;
    on_workspaces : list (Z * Z) }.

Definition view_is_mapped (v : wayfire_view_t) : bool :=
  surface_mapped (self v).

(** A drag icon of the input manager. *)
Record wayfire_drag_icon := mkIcon
  { icon_mapped : bool;
    icon_surfaces : list (wayfire_surface_t * Z * Z) }.

(** The workspace manager of the output: current workspace and the views,
    front to back. *)
Record workspace_manager := mkWorkspace
  { current_workspace : Z * Z;
    views : list wayfire_view_t }.

Definition layer_mask := wf_layer -> bool.
Definition WF_ALL_LAYERS : layer_mask := fun _ => true.
Definition WF_MIDDLE_LAYERS : layer_mask :=
  fun l => match l with WF_LAYER_MIDDLE => true | _ => false end.
Definition WF_BELOW_ABOVE_LAYERS : layer_mask :=
  fun l => match l with WF_LAYER_MIDDLE => false | _ => true end.

Definition ws_eqb (a b : Z * Z) : bool :=
  (fst a =? fst b) && (snd a =? snd b).

(** Modelled from the spec: [workspace_manager::get_views_on_workspace]
    (the workspace manager is not among the sources): the views of the
    given layers on the workspace, front first. *)
Definition get_views_on_workspace (w : workspace_manager) (ws : Z * Z)
    (mask : layer_mask) : list wayfire_view_t :=
  filter (fun v => mask (layer v) && existsb (ws_eqb ws) (on_workspaces v))
         (views w).

(** Modelled from the spec: [workspace_manager::for_each_view] (the
    workspace manager is not among the sources): the views of the given
    layers, front first. *)
Definition for_each_view (w : workspace_manager) (mask : layer_mask)
    : list wayfire_view_t :=
  filter (fun v => mask (layer v)) (views w).

(** [wayfire_output] with what the render manager reads from [core]. *)
Record wayfire_output := mkOutput
  { handle : wlr_output;
    destroyed : bool;
    relative_geometry : wlr_box;
    workspace : workspace_manager;
    drag_icons : list wayfire_drag_icon;
    vwidth : nat;
    vheight : nat }.

Record runtime_config_t := mkConfig
  { no_damage_track : bool; damage_debug : bool }.

(** Modelled from the spec: [get_output_box_from_box] (declared outside the
    sources): the box in output pixels, for the integer output scale. *)
Definition get_output_box_from_box (g : wlr_box) (s : Z) : wlr_box :=
  mkWlrBox (bx g * s) (by_ g * s) (bwidth g * s) (bheight g * s).

(** Modelled from the spec: [wayfire_surface_t::subtract_opaque] (the
    surface implementation is not among the sources): removes the
    surface's opaque region, placed at [(x, y)], from the region. *)
Definition subtract_opaque (s : wayfire_surface_t) (r : region32) (x y : Z)
    : region32 :=
  subtract r (translate (opaque_region s) x y).

(** ** Framebuffers *)

(** [wf_framebuffer_base]: the ids and the current size. *)
Record wf_framebuffer_base := mkFb
  { fb : Z; tex : Z; viewport_width : Z; viewport_height : Z }.

(** [(uint32_t) -1], the value of an id that has not been generated.  The
    render manager keeps it apart from 0, the id of the display: after
    [release] it writes the zeros itself ([_rem_post]), and it has
    [allocate] create a buffer after [reset] but not for the ids
    [(0, 0)] ([add_post]). *)
Definition NO_ID : Z := 4294967295.

(** Modelled from the spec: [wf_framebuffer_base::reset] (the GL helpers are
    not among the sources): drops the ids without freeing them. *)
Definition fb_reset (b : wf_framebuffer_base) : wf_framebuffer_base :=
  mkFb NO_ID NO_ID 0 0.

(** Modelled from the spec: [wf_framebuffer_base::allocate] (not among the
    sources either): creates the framebuffer and the texture when their
    ids are not generated yet (the GL context hands out the unused name
    [gl], never 0) and resizes to [w] x [h].  The zero id is the display
    target, a sentinel and not an allocation: nothing is created for it,
    which is what [add_post] ("Just resize the framebuffer") and the
    assertion at the end of the post chain in [paint] rely on.  Returns the
    buffer and the next unused GL name. *)
Definition fb_allocate (b : wf_framebuffer_base) (w h : Z) (gl : Z)
    : wf_framebuffer_base * Z :=
  let '(f, gl1) := if fb b =? NO_ID then (gl, gl + 1) else (fb b, gl) in
  let '(t, gl2) := if tex b =? NO_ID then (gl1, gl1 + 1) else (tex b, gl1) in
  (mkFb f t w h, gl2).

(** Modelled from the spec: [wf_framebuffer_base::release] (not among the
    sources either): deletes framebuffer and texture; the buffer is left
    without ids. *)
Definition fb_release (b : wf_framebuffer_base) : wf_framebuffer_base :=
  fb_reset b.

(** [wf_framebuffer]: the target descriptor handed to renderers. *)
Record wf_framebuffer := mkTarget
  { geometry : wlr_box;
    wl_transform : nat;
    target_fb : Z;
    target_tex : Z;
    target_viewport_width : Z;
    target_viewport_height : Z }.

(** ** State of the render manager *)

Definition effect_hook_t := nat.   (* address of the hook object *)
Definition post_hook_t := nat.
Definition render_hook_t := nat.

Inductive wf_output_effect_type :=
  WF_OUTPUT_EFFECT_PRE | WF_OUTPUT_EFFECT_OVERLAY | WF_OUTPUT_EFFECT_POST.

Record effect_containers := mkEffects
  { effects_pre : list effect_hook_t;
    effects_overlay : list effect_hook_t;
    effects_post : list effect_hook_t }.

Definition effects_of (e : effect_containers) (t : wf_output_effect_type) :=
  match t with
  | WF_OUTPUT_EFFECT_PRE => effects_pre e
  | WF_OUTPUT_EFFECT_OVERLAY => effects_overlay e
  | WF_OUTPUT_EFFECT_POST => effects_post e
  end.

Definition set_effects_of (e : effect_containers) (t : wf_output_effect_type)
    (l : list effect_hook_t) : effect_containers :=
  match t with
  | WF_OUTPUT_EFFECT_PRE => mkEffects l (effects_overlay e) (effects_post e)
  | WF_OUTPUT_EFFECT_OVERLAY => mkEffects (effects_pre e) l (effects_post e)
  | WF_OUTPUT_EFFECT_POST => mkEffects (effects_pre e) (effects_overlay e) l
  end.

(** [render_manager::wf_post_effect]; [post_addr] is the address of the
    heap object, by which [_rem_post] recognises an entry. *)
Record wf_post_effect := mkPost
  { post_addr : nat;
    hook : post_hook_t;
    to_remove : bool;
    buffer : wf_framebuffer_base }.

(** [wf_workspace_stream] *)
Record wf_workspace_stream := mkStream
  { ws : Z * Z;
    stream_buffer : wf_framebuffer_base;
    running : bool;
    scale_x : Q;
    scale_y : Q }.

(** [wf_output_damage] *)
Record wf_output_damage := mkOutputDamage
  { od_frame_damage : region32;
    damage_manager : wlr_output_damage }.

(** What the render manager asks of the display server, the GL context and
    the scene, in the order it asks.  [EvScheduleRedraw] marks an entry
    into [schedule_redraw]. *)
Inductive event :=
| EvScheduleFrame
| EvScheduleRedraw
| EvIdleAddRedraw
| EvIdleAddDamage
| EvMakeCurrent (ok : bool)
| EvSwapBuffers (swap_damage : region32)
| EvBindOutput
| EvUnbindOutput
| EvRenderBegin
| EvRenderEnd
| EvClear (r g b a : Z)
| EvScissor (b : box32)
| EvSignal (name : nat)
| EvEffect (h : effect_hook_t)
| EvRenderer (h : render_hook_t) (target : wf_framebuffer)
| EvPostHook (h : post_hook_t) (src dst : wf_framebuffer_base)
| EvSoftwareCursors (damage : region32)
| EvRenderFb (s : wayfire_surface_t) (damage : region32)
             (target : wf_framebuffer)
| EvFrameDone (s : wayfire_surface_t)
| EvIconSetOutput (attach : bool)
| EvGLDelete (b : wf_framebuffer_base).

Definition SIG_START_RENDERING : nat := 0%nat.
Definition SIG_WORKSPACE_STREAM_PRE : nat := 1%nat.
Definition SIG_WORKSPACE_STREAM_POST : nat := 2%nat.

Record render_manager := mkRM
  { output : wayfire_output;
    runtime_config : runtime_config_t;
    default_buffer : wf_framebuffer_base;
    output_damage : wf_output_damage;
    frame_damage : region32;
    constant_redraw : Z;
    output_inhibit : Z;
    idle_redraw_source : bool;
    idle_damage_source : bool;
    renderer : option render_hook_t;
    effects : effect_containers;
    post_effects : list wf_post_effect;
    output_streams : list (list wf_workspace_stream);
    current_ws_stream : option (nat * nat);
    gl_names : Z;
    heap_next : nat;
    trace : list event }.

(** Field updates ([s.field = v] in the source). *)

Definition with_default_buffer (s : render_manager)
    (v : wf_framebuffer_base) : render_manager :=
  mkRM (output s) (runtime_config s) v (output_damage s) (frame_damage s)
       (constant_redraw s) (output_inhibit s) (idle_redraw_source s)
       (idle_damage_source s) (renderer s) (effects s) (post_effects s)
       (output_streams s) (current_ws_stream s) (gl_names s) (heap_next s)
       (trace s).

Definition with_output_damage (s : render_manager)
    (v : wf_output_damage) : render_manager :=
  mkRM (output s) (runtime_config s) (default_buffer s) v (frame_damage s)
       (constant_redraw s) (output_inhibit s) (idle_redraw_source s)
       (idle_damage_source s) (renderer s) (effects s) (post_effects s)
       (output_streams s) (current_ws_stream s) (gl_names s) (heap_next s)
       (trace s).

Definition with_frame_damage (s : render_manager)
    (v : region32) : render_manager :=
  mkRM (output s) (runtime_config s) (default_buffer s) (output_damage s) v
       (constant_redraw s) (output_inhibit s) (idle_redraw_source s)
       (idle_damage_source s) (renderer s) (effects s) (post_effects s)
       (output_streams s) (current_ws_stream s) (gl_names s) (heap_next s)
       (trace s).

Definition with_constant_redraw (s : render_manager)
    (v : Z) : render_manager :=
  mkRM (output s) (runtime_config s) (default_buffer s) (output_damage s)
       (frame_damage s) v (output_inhibit s) (idle_redraw_source s)
       (idle_damage_source s) (renderer s) (effects s) (post_effects s)
       (output_streams s) (current_ws_stream s) (gl_names s) (heap_next s)
       (trace s).

Definition with_output_inhibit (s : render_manager)
    (v : Z) : render_manager :=
  mkRM (output s) (runtime_config s) (default_buffer s) (output_damage s)
       (frame_damage s) (constant_redraw s) v (idle_redraw_source s)
       (idle_damage_source s) (renderer s) (effects s) (post_effects s)
       (output_streams s) (current_ws_stream s) (gl_names s) (heap_next s)
       (trace s).

Definition with_idle_redraw_source (s : render_manager)
    (v : bool) : render_manager :=
  mkRM (output s) (runtime_config s) (default_buffer s) (output_damage s)
       (frame_damage s) (constant_redraw s) (output_inhibit s) v
       (idle_damage_source s) (renderer s) (effects s) (post_effects s)
       (output_streams s) (current_ws_stream s) (gl_names s) (heap_next s)
       (trace s).

Definition with_idle_damage_source (s : render_manager)
    (v : bool) : render_manager :=
  mkRM (output s) (runtime_config s) (default_buffer s) (output_damage s)
       (frame_damage s) (constant_redraw s) (output_inhibit s)
       (idle_redraw_source s) v (renderer s) (effects s) (post_effects s)
       (output_streams s) (current_ws_stream s) (gl_names s) (heap_next s)
       (trace s).

Definition with_renderer (s : render_manager)
    (v : option render_hook_t) : render_manager :=
  mkRM (output s) (runtime_config s) (default_buffer s) (output_damage s)
       (frame_damage s) (constant_redraw s) (output_inhibit s)
       (idle_redraw_source s) (idle_damage_source s) v (effects s)
       (post_effects s) (output_streams s) (current_ws_stream s)
       (gl_names s) (heap_next s) (trace s).

Definition with_effects (s : render_manager)
    (v : effect_containers) : render_manager :=
  mkRM (output s) (runtime_config s) (default_buffer s) (output_damage s)
       (frame_damage s) (constant_redraw s) (output_inhibit s)
       (idle_redraw_source s) (idle_damage_source s) (renderer s) v
       (post_effects s) (output_streams s) (current_ws_stream s)
       (gl_names s) (heap_next s) (trace s).

Definition with_post_effects (s : render_manager)
    (v : list wf_post_effect) : render_manager :=
  mkRM (output s) (runtime_config s) (default_buffer s) (output_damage s)
       (frame_damage s) (constant_redraw s) (output_inhibit s)
       (idle_redraw_source s) (idle_damage_source s) (renderer s)
       (effects s) v (output_streams s) (current_ws_stream s) (gl_names s)
       (heap_next s) (trace s).

Definition with_output_streams (s : render_manager)
    (v : list (list wf_workspace_stream)) : render_manager :=
  mkRM (output s) (runtime_config s) (default_buffer s) (output_damage s)
       (frame_damage s) (constant_redraw s) (output_inhibit s)
       (idle_redraw_source s) (idle_damage_source s) (renderer s)
       (effects s) (post_effects s) v (current_ws_stream s) (gl_names s)
       (heap_next s) (trace s).

Definition with_current_ws_stream (s : render_manager)
    (v : option (nat * nat)) : render_manager :=
  mkRM (output s) (runtime_config s) (default_buffer s) (output_damage s)
       (frame_damage s) (constant_redraw s) (output_inhibit s)
       (idle_redraw_source s) (idle_damage_source s) (renderer s)
       (effects s) (post_effects s) (output_streams s) v (gl_names s)
       (heap_next s) (trace s).

Definition with_gl_names (s : render_manager)
    (v : Z) : render_manager :=
  mkRM (output s) (runtime_config s) (default_buffer s) (output_damage s)
       (frame_damage s) (constant_redraw s) (output_inhibit s)
       (idle_redraw_source s) (idle_damage_source s) (renderer s)
       (effects s) (post_effects s) (output_streams s) (current_ws_stream s)
       v (heap_next s) (trace s).

Definition with_heap_next (s : render_manager)
    (v : nat) : render_manager :=
  mkRM (output s) (runtime_config s) (default_buffer s) (output_damage s)
       (frame_damage s) (constant_redraw s) (output_inhibit s)
       (idle_redraw_source s) (idle_damage_source s) (renderer s)
       (effects s) (post_effects s) (output_streams s) (current_ws_stream s)
       (gl_names s) v (trace s).

Definition with_trace (s : render_manager)
    (v : list event) : render_manager :=
  mkRM (output s) (runtime_config s) (default_buffer s) (output_damage s)
       (frame_damage s) (constant_redraw s) (output_inhibit s)
       (idle_redraw_source s) (idle_damage_source s) (renderer s)
       (effects s) (post_effects s) (output_streams s) (current_ws_stream s)
       (gl_names s) (heap_next s) v.

Definition log (e : event) (s : render_manager) : render_manager :=
  with_trace s (trace s ++ [e]).

(** ** [wf_output_damage] *)

(** [wlr_output_damage_add]: the display keeps the part of the damage that
    lies on the output. *)
Definition wlr_output_damage_add (o : wlr_output) (dm : wlr_output_damage)
    (r : region32) : wlr_output_damage :=
  let '(w, h) := wlr_output_transformed_resolution o in
  mkWlrDamage (union (current dm) (intersect_rect r 0 0 w h))
              (context_ok dm) (output_needs_swap dm).

(** [wlr_output_damage_add_box] *)
Definition wlr_output_damage_add_box (o : wlr_output)
    (dm : wlr_output_damage) (b : wlr_box) : wlr_output_damage :=
  wlr_output_damage_add o dm
    (init_rect (bx b) (by_ b) (bwidth b) (bheight b)).

(** [wlr_output_damage_make_current]: result, [needs_swap] and the damage
    written to the out-parameter; on failure the out-parameter keeps its
    value. *)
Definition wlr_output_damage_make_current (dm : wlr_output_damage)
    (out_damage : region32) : bool * bool * region32 :=
  if context_ok dm
  then (true, output_needs_swap dm || not_empty (current dm),
        copy (current dm))
  else (false, false, out_damage).

(** [wlr_output_damage_swap_buffers] *)
Definition wlr_output_damage_swap_buffers (dm : wlr_output_damage)
    : wlr_output_damage :=
  mkWlrDamage (clear (current dm)) (context_ok dm) false.

Definition schedule_repaint (s : render_manager) : render_manager :=
  log EvScheduleFrame s.

(** [wf_output_damage::add] on a box *)
Definition od_add_box (s : render_manager) (b : wlr_box) : render_manager :=
  let od := output_damage s in
  let fd := union_rect (od_frame_damage od)
                       (bx b) (by_ b) (bwidth b) (bheight b) in
  let dm := wlr_output_damage_add_box (handle (output s))
                                      (damage_manager od) b in
  schedule_repaint (with_output_damage s (mkOutputDamage fd dm)).

(** [wf_output_damage::add] without argument: the whole output *)
Definition od_add (s : render_manager) : render_manager :=
  let '(w, h) := wlr_output_transformed_resolution (handle (output s)) in
  od_add_box s (mkWlrBox 0 0 w h).

(** [wf_output_damage::add] on a region *)
Definition od_add_region (s : render_manager) (r : region32)
    : render_manager :=
  let od := output_damage s in
  let fd := union (od_frame_damage od) r in
  let dm := wlr_output_damage_add (handle (output s)) (damage_manager od) r in
  schedule_repaint (with_output_damage s (mkOutputDamage fd dm)).

(** [wf_output_damage::make_current]: the result, [need_swap], the
    out-parameter and the manager. *)
Definition make_current (s : render_manager) (out_damage : region32)
    : bool * bool * region32 * render_manager :=
  let od := output_damage s in
  let '(r, need_swap, out_damage) :=
    wlr_output_damage_make_current (damage_manager od) out_damage in
  let s := log (EvMakeCurrent r) s in
  if r then
    let '(w, h) := wlr_output_transformed_resolution (handle (output s)) in
    let regular := init_rect 0 0 w h in
    let fd := subtract (od_frame_damage od) regular in
    let out_damage := union out_damage fd in
    let out_damage :=
      if no_damage_track (runtime_config s)
      then union out_damage regular else out_damage in
    (r, need_swap, out_damage,
     with_output_damage s (mkOutputDamage fd (damage_manager od)))
  else (r, need_swap, out_damage, s).

(** [wf_output_damage::swap_buffers] *)
Definition swap_buffers (s : render_manager) (swap_damage : region32)
    : render_manager :=
  let od := output_damage s in
  let s := log (EvSwapBuffers swap_damage) s in
  with_output_damage s
    (mkOutputDamage (clear (od_frame_damage od))
                    (wlr_output_damage_swap_buffers (damage_manager od))).

(** ** [render_manager]: damage, scheduling, counters *)

(** [render_manager::damage] on a box *)
Definition damage_box (s : render_manager) (b : wlr_box) : render_manager :=
  if negb (destroyed (output s)) then od_add_box s b else s.

(** [render_manager::damage] on a region pointer; [None] is the null
    pointer. *)
Definition damage (s : render_manager) (r : option region32)
    : render_manager :=
  if destroyed (output s) then s
  else match r with
       | Some r => od_add_region s r
       | None => od_add s
       end.

(** [render_manager::get_target_framebuffer] *)
Definition get_target_framebuffer (s : render_manager) : wf_framebuffer :=
  mkTarget (relative_geometry (output s))
           (transform (handle (output s)))
           (fb (default_buffer s)) (tex (default_buffer s))
           (width (handle (output s))) (height (handle (output s))).

(** [redraw_idle_cb] *)
Definition redraw_idle_cb (s : render_manager) : render_manager :=
  with_idle_redraw_source (log EvScheduleFrame s) false.

(** [render_manager::schedule_redraw] *)
Definition schedule_redraw (s : render_manager) : render_manager :=
  let s := log EvScheduleRedraw s in
  if negb (idle_redraw_source s)
  then with_idle_redraw_source (log EvIdleAddRedraw s) true
  else s.

(** [render_manager::auto_redraw] *)
Definition auto_redraw (s : render_manager) (redraw : bool)
    : render_manager :=
  let s := with_constant_redraw s
             (constant_redraw s + (if redraw then 1 else -1)) in
  if constant_redraw s >? 1 then s
  else if constant_redraw s <? 0 then with_constant_redraw s 0
  else schedule_redraw s.

(** [render_manager::add_inhibit] *)
Definition add_inhibit (s : render_manager) (add : bool) : render_manager :=
  let s := with_output_inhibit s
             (output_inhibit s + (if add then 1 else -1)) in
  if output_inhibit s =? 0
  then log (EvSignal SIG_START_RENDERING) (damage s None)
  else s.

(** The C type [int]: 32 bits, two's complement.  [wrap_int z] is what an
    [int] holds after an operation whose exact result is [z]; the offsets
    of [get_ws_damage] are computed in [int]. *)
Definition wrap_int (z : Z) : Z :=
  (z + 2147483648) mod 4294967296 - 2147483648.

Definition int_sub (a b : Z) : Z := wrap_int (a - b).

Definition int_mul (a b : Z) : Z := wrap_int (a * b).

(** Whether [z] is a value of [int]. *)
Definition fits_int (z : Z) : bool :=
  (-2147483648 <=? z) && (z <=? 2147483647).

(** [render_manager::get_ws_damage]: the manager afterwards and the value
    left in [*out_damage]. *)
Definition get_ws_damage (s : render_manager) (ws_ : Z * Z)
    (out_damage : region32) : render_manager * region32 :=
  let '(vx, vy) := ws_ in
  let '(cx, cy) := current_workspace (workspace (output s)) in
  let '(sw, sh) := wlr_output_transformed_resolution (handle (output s)) in
  let out_damage := if negb (selfcheck out_damage) then init
                    else out_damage in
  let out_damage := intersect_rect (frame_damage s)
                      (int_mul (int_sub vx cx) sw)
                      (int_mul (int_sub vy cy) sh) sw sh in
  let out_damage := translate out_damage
                      (int_mul (int_sub cx vx) sw)
                      (int_mul (int_sub cy vy) sh) in
  (s, out_damage).

(** [damage_idle_cb] *)
Definition damage_idle_cb (s : render_manager) : render_manager :=
  with_idle_damage_source (damage s None) false.

(** [render_manager::reset_renderer] *)
Definition reset_renderer (s : render_manager) : render_manager :=
  let s := with_renderer s None in
  if negb (idle_damage_source s)
  then with_idle_damage_source (log EvIdleAddDamage s) true
  else s.

(** [render_manager::with_renderer] *)
Definition set_renderer (s : render_manager) (rh : render_hook_t)
    : render_manager :=
  with_renderer s (Some rh).

(** ** Effect hooks and the post-effect chain *)

(** [render_manager::add_effect] *)
Definition add_effect (s : render_manager) (h : effect_hook_t)
    (type : wf_output_effect_type) : render_manager :=
  with_effects s
    (set_effects_of (effects s) type (effects_of (effects s) type ++ [h])).

(** [render_manager::rem_effect]: [std::remove] on the hook's address. *)
Definition rem_effect (s : render_manager) (h : effect_hook_t)
    (type : wf_output_effect_type) : render_manager :=
  with_effects s
    (set_effects_of (effects s) type
       (filter (fun e => negb (Nat.eqb e h)) (effects_of (effects s) type))).

(** Apply [f] to [l.back()] in place. *)
Fixpoint update_back {A} (f : A -> A) (l : list A) : list A :=
  match l with
  | [] => []
  | [x] => [f x]
  | x :: r => x :: update_back f r
  end.

Definition set_buffer (p : wf_post_effect) (b : wf_framebuffer_base)
    : wf_post_effect :=
  mkPost (post_addr p) (hook p) (to_remove p) b.

Definition set_to_remove (p : wf_post_effect) (v : bool) : wf_post_effect :=
  mkPost (post_addr p) (hook p) v (buffer p).

(** The buffer [add_post] and [_rem_post] point [buffer] at:
    [post_effects.back()->buffer], or [default_buffer] for an empty chain. *)
Definition back_buffer (s : render_manager) : wf_framebuffer_base :=
  match post_effects s with
  | [] => default_buffer s
  | p :: r => buffer (last r p)
  end.

Definition set_back_buffer (s : render_manager) (b : wf_framebuffer_base)
    : render_manager :=
  match post_effects s with
  | [] => with_default_buffer s b
  | _ => with_post_effects s
           (update_back (fun p => set_buffer p b) (post_effects s))
  end.

(** [render_manager::add_post] *)
Definition add_post (s : render_manager) (h : post_hook_t) : render_manager :=
  let w := width (handle (output s)) in
  let h_ := height (handle (output s)) in
  let '(b, gl) := fb_allocate (fb_reset (back_buffer s)) w h_ (gl_names s) in
  let s := with_gl_names (set_back_buffer s b) gl in
  let s := damage s None in
  let new_addr := heap_next s in
  let s := with_heap_next s (S new_addr) in
  let '(nb, gl) := fb_allocate (mkFb 0 0 0 0) w h_ (gl_names s) in
  let new_hook := mkPost new_addr h false nb in
  with_post_effects (with_gl_names s gl) (post_effects s ++ [new_hook]).

(** The erase loop of [_rem_post]: entries at address [post] release their
    buffer and leave the chain. *)
Fixpoint rem_post_loop (post : nat) (l : list wf_post_effect)
    : list wf_post_effect * list event :=
  match l with
  | [] => ([], [])
  | p :: r =>
      let '(r', ev) := rem_post_loop post r in
      if Nat.eqb (post_addr p) post
      then (r', EvGLDelete (buffer p) :: ev)
      else (p :: r', ev)
  end.

(** [render_manager::_rem_post] *)
Definition _rem_post (s : render_manager) (post : nat) : render_manager :=
  let '(l, ev) := rem_post_loop post (post_effects s) in
  let s := with_trace (with_post_effects s l) (trace s ++ ev) in
  let s :=
    if negb (fb (back_buffer s) =? 0)
    then let s := log (EvGLDelete (back_buffer s)) s in
         let b := fb_release (back_buffer s) in
         set_back_buffer s
           (mkFb 0 0 (viewport_width b) (viewport_height b))
    else s in
  damage s None.

(** [render_manager::cleanup_post_hooks] *)
Definition cleanup_post_hooks (s : render_manager) : render_manager :=
  let to_remove_ := filter to_remove (post_effects s) in
  fold_left (fun s post => _rem_post s (post_addr post)) to_remove_ s.

(** [render_manager::rem_post] *)
Definition rem_post (s : render_manager) (h : post_hook_t) : render_manager :=
  let s := with_post_effects s
             (map (fun p => if Nat.eqb (hook p) h then set_to_remove p true
                            else p)
                  (post_effects s)) in
  damage s None.

(** ** Workspace streams *)

(** [output_streams[i][j]] *)
Definition get_stream (s : render_manager) (idx : nat * nat)
    : option wf_workspace_stream :=
  nth_error (nth (fst idx) (output_streams s) []) (snd idx).

Fixpoint list_set {A} (l : list A) (n : nat) (v : A) : list A :=
  match l, n with
  | [], _ => []
  | _ :: r, O => v :: r
  | x :: r, S k => x :: list_set r k v
  end.

Definition set_stream (s : render_manager) (idx : nat * nat)
    (st : wf_workspace_stream) : render_manager :=
  with_output_streams s
    (list_set (output_streams s) (fst idx)
       (list_set (nth (fst idx) (output_streams s) []) (snd idx) st)).

(** The local [damaged_surface_t] of [workspace_stream_update]. *)
Record damaged_surface_t := mkDamaged
  { surface : wayfire_surface_t;
    ds_x : Z;
    ds_y : Z;
    ds_damage : region32 }.

(** The two locals the scheduling lambdas capture by reference:
    [ws_damage] and [to_render]. *)
Definition schedule_state : Type := region32 * list damaged_surface_t.

(** The [0.999f] of the opacity test. *)
Definition OPAQUE_ALPHA : Q := 999 # 1000.

(** The lambda [schedule_render_snapshotted_view]. *)
Definition schedule_render_snapshotted_view (o : wayfire_output)
    (view : wayfire_view_t) (view_dx view_dy : Z) (st : schedule_state)
    : schedule_state :=
  let '(ws_damage, to_render) := st in
  let bbox := bounding_box view in
  let bbox := mkWlrBox (bx bbox + - view_dx) (by_ bbox + - view_dy)
                       (bwidth bbox) (bheight bbox) in
  let bbox := get_output_box_from_box bbox (scale (handle o)) in
  let d := init_rect (bx bbox) (by_ bbox) (bwidth bbox) (bheight bbox) in
  let d := intersect d ws_damage in
  if not_empty d
  then (ws_damage, to_render ++ [mkDamaged (self view) view_dx view_dy d])
  else st.

(** The lambda [schedule_render_surface]. *)
Definition schedule_render_surface (o : wayfire_output)
    (surf : wayfire_surface_t) (x y view_dx view_dy : Z)
    (st : schedule_state) : schedule_state :=
  let '(ws_damage, to_render) := st in
  if negb (surface_mapped surf) then st
  else if negb (not_empty ws_damage) then st
  else
    let x := x - view_dx in
    let y := y - view_dy in
    let obox := output_geometry surf in
    let obox := mkWlrBox x y (bwidth obox) (bheight obox) in
    let obox := get_output_box_from_box obox (scale (handle o)) in
    let d := init_rect (bx obox) (by_ obox) (bwidth obox) (bheight obox) in
    let d := intersect d ws_damage in
    if not_empty d
    then
      let ws_damage :=
        if Qle_bool OPAQUE_ALPHA (alpha surf)
        then subtract_opaque surf ws_damage x y
        else ws_damage in
      (ws_damage, to_render ++ [mkDamaged surf view_dx view_dy d])
    else st.

(** [for_each_surface] with [schedule_render_surface] as the callback. *)
Definition schedule_surfaces (o : wayfire_output)
    (l : list (wayfire_surface_t * Z * Z)) (view_dx view_dy : Z)
    (st : schedule_state) : schedule_state :=
  fold_left
    (fun st sxy => let '(surf, x, y) := sxy in
                   schedule_render_surface o surf x y view_dx view_dy st)
    l st.

(** The loop over the drag icons. *)
Definition schedule_icons (o : wayfire_output) (st : schedule_state)
    : schedule_state :=
  fold_left
    (fun st icon => if negb (icon_mapped icon) then st
                    else schedule_surfaces o (icon_surfaces icon) 0 0 st)
    (drag_icons o) st.

(** [view_dx] and [view_dy] of a view: shell views are in output-local
    coordinates already, the others are offset by the workspace. *)
Definition view_offset (view : wayfire_view_t) (dx dy : Z) : Z * Z :=
  match role view with
  | WF_VIEW_ROLE_SHELL_VIEW => (0, 0)
  | _ => (dx, dy)
  end.

(** The loop over [views]: it runs while views remain and [ws_damage] is
    not empty. *)
Fixpoint schedule_views (o : wayfire_output) (dx dy : Z)
    (vs : list wayfire_view_t) (st : schedule_state) : schedule_state :=
  match vs with
  | [] => st
  | view :: rest =>
      if negb (not_empty (fst st)) then st
      else
        let st :=
          if negb (view_visible view) then st
          else
            let '(view_dx, view_dy) := view_offset view dx dy in
            if has_transformer view || negb (view_is_mapped view)
            then schedule_render_snapshotted_view o view view_dx view_dy st
            else schedule_surfaces o (for_each_surface view)
                                   view_dx view_dy st in
        schedule_views o dx dy rest st
  end.

Definition set_geometry_xy (t : wf_framebuffer) (x y : Z) : wf_framebuffer :=
  mkTarget (mkWlrBox x y (bwidth (geometry t)) (bheight (geometry t)))
           (wl_transform t) (target_fb t) (target_tex t)
           (target_viewport_width t) (target_viewport_height t).

(** The draw loop: [rev_it] runs from [to_render.rbegin()] to
    [to_render.rend()]; [n] is the number of records not yet visited, so
    the record under the iterator is [to_render[n - 1]]. *)
Fixpoint render_loop (n : nat) (to_render : list damaged_surface_t)
    (target : wf_framebuffer) (s : render_manager)
    : wf_framebuffer * render_manager :=
  match n with
  | O => (target, s)
  | S k =>
      match nth_error to_render k with
      | None => (target, s)
      | Some ds =>
          let target := set_geometry_xy target (ds_x ds) (ds_y ds) in
          render_loop k to_render target
            (log (EvRenderFb (surface ds) (ds_damage ds) target) s)
      end
  end.

(** The records [workspace_stream_update] collects once it has damage to
    repaint: icons first unless a custom renderer is set, then the views of
    the workspace. *)
Definition collect_damaged (s : render_manager) (ws_ : Z * Z)
    (dx dy : Z) (ws_damage : region32) : schedule_state :=
  let o := output s in
  let vs := get_views_on_workspace (workspace o) ws_ WF_ALL_LAYERS in
  let st := (ws_damage, []) in
  let st := match renderer s with
            | None => schedule_icons o st
            | Some _ => st
            end in
  schedule_views o dx dy vs st.

Definition mapped_icons (o : wayfire_output) : list wayfire_drag_icon :=
  filter icon_mapped (drag_icons o).

(** The [set_output] calls on the mapped drag icons, made when no custom
    renderer is set: [attach] for [set_output(output)], otherwise
    [set_output(nullptr)]. *)
Definition icons_set_output (s : render_manager) (attach : bool)
    : list event :=
  match renderer s with
  | None => map (fun _ => EvIconSetOutput attach) (mapped_icons (output s))
  | Some _ => []
  end.

(** [render_manager::workspace_stream_update] *)
Definition workspace_stream_update (s : render_manager) (idx : nat * nat)
    (scale_x_ scale_y_ : Q) : render_manager :=
  match get_stream s idx with
  | None => s
  | Some stream =>
    let g := relative_geometry (output s) in
    let '(x, y) := ws stream in
    let '(cx, cy) := current_workspace (workspace (output s)) in
    let dx := bx g + (x - cx) * bwidth g in
    let dy := by_ g + (y - cy) * bheight g in
    let '(s, ws_damage) := get_ws_damage s (ws stream) init in
    (* [scaling > 2 && false]: the branch is never taken *)
    if negb (not_empty ws_damage) then s
    else
      let ws_damage :=
        if negb (Qeq_bool scale_x_ (scale_x stream))
           || negb (Qeq_bool scale_y_ (scale_y stream))
        then
          let '(sw, sh) :=
            wlr_output_transformed_resolution (handle (output s)) in
          union_rect ws_damage dx dy sw sh
        else ws_damage in
      let s := log EvRenderBegin s in
      let '(b, gl) := fb_allocate (stream_buffer stream)
                        (width (handle (output s)))
                        (height (handle (output s))) (gl_names s) in
      let stream := mkStream (ws stream) b (running stream)
                             (scale_x stream) (scale_y stream) in
      let s := with_gl_names (set_stream s idx stream) gl in
      let target := get_target_framebuffer s in
      let target :=
        mkTarget (geometry target) (wl_transform target)
          (if fb b =? 0 then fb (default_buffer s) else fb b)
          (if tex b =? 0 then tex (default_buffer s) else tex b)
          (target_viewport_width target) (target_viewport_height target) in
      let s := log (EvSignal SIG_WORKSPACE_STREAM_PRE) s in
      let s := with_trace s (trace s ++ icons_set_output s true) in
      let '(ws_damage, to_render) :=
        collect_damaged s (ws stream) dx dy ws_damage in
      let s := log EvRenderBegin s in
      let s := with_trace s
                 (trace s ++ flat_map (fun r => [EvScissor r; EvClear 0 0 0 1])
                                      (rectangles ws_damage)) in
      let s := log EvRenderEnd s in
      let '(target, s) := render_loop (length to_render) to_render target s in
      let s := with_trace s (trace s ++ icons_set_output s false) in
      log (EvSignal SIG_WORKSPACE_STREAM_POST) s
  end.

(** [render_manager::workspace_stream_start] *)
Definition workspace_stream_start (s : render_manager) (idx : nat * nat)
    : render_manager :=
  match get_stream s idx with
  | None => s
  | Some stream =>
    let stream := mkStream (ws stream) (stream_buffer stream) true 1 1 in
    let s := set_stream s idx stream in
    let '(vx, vy) := ws stream in
    let '(cx, cy) := current_workspace (workspace (output s)) in
    let '(sw, sh) := wlr_output_transformed_resolution (handle (output s)) in
    let s := with_frame_damage s
               (union_rect (frame_damage s)
                           ((vx - cx) * sw) ((vy - cy) * sh) sw sh) in
    workspace_stream_update s idx 1 1
  end.

(** [render_manager::workspace_stream_stop] *)
Definition workspace_stream_stop (s : render_manager) (idx : nat * nat)
    : render_manager :=
  match get_stream s idx with
  | None => s
  | Some stream =>
    set_stream s idx
      (mkStream (ws stream) (stream_buffer stream) false
                (scale_x stream) (scale_y stream))
  end.

(** ** Hooks, [paint] and [post_paint] *)

(** What an effect hook may do to the render manager when it runs: calls
    of the public interface. *)
Inductive rm_call :=
| CallDamageBox (b : wlr_box)
| CallDamage (r : option region32)
| CallAddEffect (h : effect_hook_t) (type : wf_output_effect_type)
| CallRemEffect (h : effect_hook_t) (type : wf_output_effect_type)
| CallAddPost (h : post_hook_t)
| CallRemPost (h : post_hook_t)
| CallAutoRedraw (redraw : bool)
| CallAddInhibit (add : bool)
| CallSetRenderer (rh : render_hook_t)
| CallResetRenderer.

Definition do_call (s : render_manager) (c : rm_call) : render_manager :=
  match c with
  | CallDamageBox b => damage_box s b
  | CallDamage r => damage s r
  | CallAddEffect h t => add_effect s h t
  | CallRemEffect h t => rem_effect s h t
  | CallAddPost h => add_post s h
  | CallRemPost h => rem_post s h
  | CallAutoRedraw b => auto_redraw s b
  | CallAddInhibit b => add_inhibit s b
  | CallSetRenderer rh => set_renderer s rh
  | CallResetRenderer => reset_renderer s
  end.

(** The pass over the post chain in [paint]: every entry is allocated to the
    output size, then its hook reads [last_buffer] and writes its own
    buffer.  Returns the chain, the calls made and the next GL name. *)
Fixpoint post_chain (w h : Z) (last_buffer : wf_framebuffer_base)
    (l : list wf_post_effect) (gl : Z)
    : list wf_post_effect * list event * Z :=
  match l with
  | [] => ([], [], gl)
  | post :: r =>
      let '(b, gl) := fb_allocate (buffer post) w h gl in
      let '(r', ev, gl) := post_chain w h b r gl in
      (set_buffer post b :: r',
       EvRenderBegin :: EvRenderEnd :: EvPostHook (hook post) last_buffer b
         :: ev,
       gl)
  end.

(** The lambda [send_frame_done] of [post_paint]. *)
Definition send_frame_done (v : wayfire_view_t) : list event :=
  if negb (view_is_mapped v) then []
  else map (fun sxy => EvFrameDone (fst (fst sxy))) (for_each_surface v).

Section Hooks.

(** The body of each effect hook, by the hook's address. *)
Variable hook_body : effect_hook_t -> list rm_call.

(** [render_manager::run_effects] on the container of the given phase:
    the container is copied, then the copy is walked. *)
Definition run_effects (s : render_manager) (type : wf_output_effect_type)
    : render_manager :=
  let active_effects :=
    fold_left (fun acc effect => acc ++ [effect])
              (effects_of (effects s) type) [] in
  fold_left
    (fun s effect => fold_left do_call (hook_body effect)
                               (log (EvEffect effect) s))
    active_effects s.

(** [render_manager::post_paint] *)
Definition post_paint (s : render_manager) : render_manager :=
  let s := cleanup_post_hooks s in
  let s := run_effects s WF_OUTPUT_EFFECT_POST in
  let s := if negb (constant_redraw s =? 0) then schedule_redraw s else s in
  let w := workspace (output s) in
  match renderer s with
  | Some _ =>
      with_trace s (trace s ++ flat_map send_frame_done
                                       (for_each_view w WF_ALL_LAYERS))
  | None =>
      let vs := get_views_on_workspace w (current_workspace w)
                                       WF_MIDDLE_LAYERS in
      let s := with_trace s (trace s ++ flat_map send_frame_done vs) in
      with_trace s (trace s ++ flat_map send_frame_done
                                       (for_each_view w WF_BELOW_ABOVE_LAYERS))
  end.

(** The scene branch of [paint] when no custom renderer is set. *)
Definition paint_streams (s : render_manager) (swap_damage : region32)
    : render_manager * region32 :=
  let '(w, h) := wlr_output_transformed_resolution (handle (output s)) in
  let s := with_frame_damage s (intersect_rect (frame_damage s) 0 0 w h) in
  if not_empty (frame_damage s) then
    let swap_damage := copy (frame_damage s) in
    let '(vx, vy) := current_workspace (workspace (output s)) in
    let target_stream := (Z.to_nat vx, Z.to_nat vy) in
    let same := match current_ws_stream s with
                | Some c => Nat.eqb (fst c) (fst target_stream)
                            && Nat.eqb (snd c) (snd target_stream)
                | None => false
                end in
    if negb same then
      let s := match current_ws_stream s with
               | Some c => workspace_stream_stop s c
               | None => s
               end in
      let s := with_current_ws_stream s (Some target_stream) in
      (workspace_stream_start s target_stream, swap_damage)
    else
      (workspace_stream_update s target_stream 1 1, swap_damage)
  else (s, swap_damage).

(** [render_manager::paint] after a successful [make_current] that left
    something to draw. *)
Definition paint_frame (s : render_manager) : render_manager :=
  let W := width (handle (output s)) in
  let H := height (handle (output s)) in
  let s := log EvBindOutput s in
  let s := log EvRenderBegin s in
  let '(b, gl) := fb_allocate (default_buffer s) W H (gl_names s) in
  let s := with_gl_names (with_default_buffer s b) gl in
  let s := log EvRenderEnd s in
  let swap_damage := init in
  let '(s, swap_damage) :=
    if damage_debug (runtime_config s) then
      (log EvRenderEnd (log (EvClear 1 1 0 1) (log EvRenderBegin s)),
       union_rect swap_damage 0 0 W H)
    else (s, swap_damage) in
  let '(s, swap_damage) :=
    match renderer s with
    | Some rh =>
        (log (EvRenderer rh (get_target_framebuffer s)) s,
         union_rect swap_damage 0 0 W H)
    | None => paint_streams s swap_damage
    end in
  let s := run_effects s WF_OUTPUT_EFFECT_OVERLAY in
  let swap_damage :=
    match post_effects s with
    | [] => swap_damage
    | _ => union_rect swap_damage 0 0 W H
    end in
  let s := log EvRenderEnd
             (log (EvSoftwareCursors swap_damage) (log EvRenderBegin s)) in
  let s :=
    match post_effects s with
    | [] => s
    | _ =>
        let '(l, ev, gl) :=
          post_chain W H (default_buffer s) (post_effects s) (gl_names s) in
        with_trace (with_gl_names (with_post_effects s l) gl) (trace s ++ ev)
    end in
  let s :=
    if negb (output_inhibit s =? 0)
    then log EvRenderEnd (log (EvClear 0 0 0 1) (log EvRenderBegin s))
    else s in
  let s := log EvUnbindOutput s in
  let s := swap_buffers s swap_damage in
  post_paint s.

(** The part of [render_manager::paint] up to the call of [make_current]. *)
Definition paint_prepare (s : render_manager) : render_manager :=
  let s := cleanup_post_hooks s in
  let s := with_frame_damage s (clear (frame_damage s)) in
  run_effects s WF_OUTPUT_EFFECT_PRE.

(** [render_manager::paint] *)
Definition paint (s : render_manager) : render_manager :=
  let s := paint_prepare s in
  let '(r, needs_swap, out_damage, s) := make_current s (frame_damage s) in
  let s := with_frame_damage s out_damage in
  if negb r then s
  else if negb needs_swap && (constant_redraw s =? 0) then post_paint s
  else paint_frame s.

(** [frame_cb]: the frame event of the display paints. *)
Definition frame_cb (s : render_manager) : render_manager := paint s.

End Hooks.

(** [render_manager::init_default_streams] *)
Definition init_default_streams (o : wayfire_output)
    : list (list wf_workspace_stream) :=
  map (fun i =>
         map (fun j => mkStream (Z.of_nat i, Z.of_nat j) (mkFb 0 0 0 0)
                                false 1 1)
             (seq 0 (vheight o)))
      (seq 0 (vwidth o)).

(** [render_manager::render_manager]: the state a new manager starts in.
    The display's damage manager is created with it; [gl] is the first
    unused GL name. *)
Definition render_manager_new (o : wayfire_output) (cfg : runtime_config_t)
    (dm : wlr_output_damage) (gl : Z) : render_manager :=
  let s := mkRM o cfg (mkFb 0 0 0 0) (mkOutputDamage init dm) init
                0 0 false false None (mkEffects [] [] []) []
                [] None gl 0%nat [] in
  let s := od_add s in
  let s := with_output_streams s (init_default_streams o) in
  schedule_redraw s.

(** ** Observations on the call trace and on the state *)

Definition is_schedule_redraw (e : event) : bool :=
  match e with EvScheduleRedraw => true | _ => false end.

(** How often [schedule_redraw] has been entered. *)
Definition schedule_redraw_calls (t : list event) : nat :=
  length (filter is_schedule_redraw t).

(** Whether the call [auto_redraw(redraw)] in state [s] enters
    [schedule_redraw]. *)
Definition schedule_redraw_invoked (s : render_manager) (redraw : bool)
    : bool :=
  Nat.ltb (schedule_redraw_calls (trace s))
          (schedule_redraw_calls (trace (auto_redraw s redraw))).

(** Whether the call [auto_redraw(redraw)] in state [s] takes the counter
    from 0 to 1. *)
Definition crosses_zero_to_one (s : render_manager) (redraw : bool) : bool :=
  (constant_redraw s =? 0)
  && (constant_redraw (auto_redraw s redraw) =? 1).

(** The [render_fb] calls of a trace: surface and damage handed over. *)
Fixpoint render_fb_calls (t : list event)
    : list (wayfire_surface_t * region32) :=
  match t with
  | [] => []
  | EvRenderFb surf d _ :: r => (surf, d) :: render_fb_calls r
  | _ :: r => render_fb_calls r
  end.

(** What the draw loop hands to [render_fb] for a record. *)
Definition render_fb_call (ds : damaged_surface_t)
    : wayfire_surface_t * region32 :=
  (surface ds, ds_damage ds).

(** The effect hooks a trace invokes. *)
Fixpoint effect_invocations (t : list event) : list effect_hook_t :=
  match t with
  | [] => []
  | EvEffect h :: r => h :: effect_invocations r
  | _ :: r => effect_invocations r
  end.

(** The workspace damage [workspace_stream_update] works on, when it gets
    past its early return, and the offset [(dx, dy)]. *)
Definition stream_damage (s : render_manager) (stream : wf_workspace_stream)
    (scale_x_ scale_y_ : Q) : option (Z * Z * region32) :=
  let g := relative_geometry (output s) in
  let '(x, y) := ws stream in
  let '(cx, cy) := current_workspace (workspace (output s)) in
  let dx := bx g + (x - cx) * bwidth g in
  let dy := by_ g + (y - cy) * bheight g in
  let ws_damage := snd (get_ws_damage s (ws stream) init) in
  if negb (not_empty ws_damage) then None
  else
    Some (dx, dy,
          if negb (Qeq_bool scale_x_ (scale_x stream))
             || negb (Qeq_bool scale_y_ (scale_y stream))
          then
            let '(sw, sh) :=
              wlr_output_transformed_resolution (handle (output s)) in
            union_rect ws_damage dx dy sw sh
          else ws_damage).

(** The list [to_render] that [workspace_stream_update] has collected when
    it reaches its draw loop; empty when it returns before. *)
Definition stream_records (s : render_manager) (idx : nat * nat)
    (scale_x_ scale_y_ : Q) : list damaged_surface_t :=
  match get_stream s idx with
  | None => []
  | Some stream =>
      match stream_damage s stream scale_x_ scale_y_ with
      | None => []
      | Some (dx, dy, ws_damage) =>
          snd (collect_damaged s (ws stream) dx dy ws_damage)
      end
  end.

(** The last entry of the post chain, if any, targets the display: its ids
    are [(0, 0)]. *)
Definition terminal_zero (l : list wf_post_effect) : Prop :=
  match l with
  | [] => True
  | p :: r => fb (buffer (last r p)) = 0 /\ tex (buffer (last r p)) = 0
  end.

(** A buffer of the chain is the display target, or both its ids are
    real. *)
Definition buffer_ids_ok (b : wf_framebuffer_base) : Prop :=
  (fb b = 0 /\ tex b = 0) \/ (fb b <> 0 /\ tex b <> 0).

(** The states of the post chain the manager can be in: the GL context
    hands out positive names, every entry is the display target or owns
    real ids, and the last entry is the display target. *)
Definition chain_ok (s : render_manager) : Prop :=
  0 < gl_names s
  /\ Forall (fun p => buffer_ids_ok (buffer p)) (post_effects s)
  /\ terminal_zero (post_effects s).

(** [s'] has the chain of [s], and the GL context has not gone back to a
    name it handed out before. *)
Definition keeps_chain (s s' : render_manager) : Prop :=
  post_effects s' = post_effects s /\ gl_names s <= gl_names s'.

(** The damage of a workspace in its own coordinates, in the spec's words:
    the pixels of the frame damage inside the rectangle
    [((vx - cx) sw, (vy - cy) sh, sw, sh)], moved by
    [((cx - vx) sw, (cy - vy) sh)]. *)
Definition ws_damage_spec (frame : region32) (v c : Z * Z) (sw sh : Z)
    (px py : Z) : bool :=
  let qx := px - (fst c - fst v) * sw in
  let qy := py - (snd c - snd v) * sh in
  contains frame qx qy
  && in_box qx qy (rect ((fst v - fst c) * sw) ((snd v - snd c) * sh) sw sh).

(** The offsets the spec's derivation names are values of [int], and so
    are the differences they are made from: nothing wraps on the way. *)
Definition ws_offsets_fit (v c : Z * Z) (sw sh : Z) : bool :=
  fits_int (fst v - fst c) && fits_int ((fst v - fst c) * sw)
  && fits_int (snd v - snd c) && fits_int ((snd v - snd c) * sh)
  && fits_int (fst c - fst v) && fits_int ((fst c - fst v) * sw)
  && fits_int (snd c - snd v) && fits_int ((snd c - snd v) * sh).

(** ** A small scene for the examples *)

Definition ex_handle : wlr_output := mkWlrOutput 200 100 1 0.

Definition ex_output (vs : list wayfire_view_t) : wayfire_output :=
  mkOutput ex_handle false (mkWlrBox 0 0 200 100)
           (mkWorkspace (0, 0) vs) [] 2 2.

Definition ex_damage_manager (ok : bool) : wlr_output_damage :=
  mkWlrDamage [] ok false.

(** A new manager on the 200 x 100 output showing the views [vs]. *)
Definition ex_manager (vs : list wayfire_view_t) (ok : bool)
    : render_manager :=
  render_manager_new (ex_output vs) (mkConfig false false)
                     (ex_damage_manager ok) 1.

(** A mapped surface of alpha 1 covering the output, with the given opaque
    region, and a view made of it alone. *)
Definition ex_surface (id : nat) (opaque : region32) : wayfire_surface_t :=
  mkSurface id true 1 (mkWlrBox 0 0 200 100) opaque.

Definition ex_view (id : nat) (opaque : region32) (transformed : bool)
    : wayfire_view_t :=
  mkView (ex_surface id opaque) true WF_VIEW_ROLE_TOPLEVEL transformed
         (mkWlrBox 0 0 200 100) [(ex_surface id opaque, 0, 0)]
         WF_LAYER_MIDDLE [(0, 0)].

Definition ex_full : region32 := [rect 0 0 200 100].

(** The new manager after damage that reaches over the right and bottom
    edges of the output. *)
Definition ex_overhang : render_manager :=
  od_add_box (ex_manager [] true) (mkWlrBox 150 50 100 100).

(** The new manager after one [auto_redraw(true)]. *)
Definition ex_redrawing : render_manager :=
  auto_redraw (ex_manager [] true) true.

(** Hook 1 removes hook 2 from the pre phase and adds hook 3 to it; the
    other hooks do nothing. *)
Definition ex_hook_body (h : effect_hook_t) : list rm_call :=
  match h with
  | 1%nat => [CallRemEffect 2%nat WF_OUTPUT_EFFECT_PRE;
              CallAddEffect 3%nat WF_OUTPUT_EFFECT_PRE]
  | _ => []
  end.

(** A new manager with the pre effects 1 and 2; [ok] tells whether the
    display's context can be made current. *)
Definition ex_with_effects (ok : bool) : render_manager :=
  add_effect (add_effect (ex_manager [] ok) 1%nat WF_OUTPUT_EFFECT_PRE)
             2%nat WF_OUTPUT_EFFECT_PRE.

(** Three views, front to back, each one surface covering the output, with
    the given opaque regions; the first may carry a transformer.  The whole
    output is damaged. *)
Definition ex_scene (opaque1 opaque2 opaque3 : region32) (transformed : bool)
    : render_manager :=
  with_frame_damage
    (ex_manager [ex_view 1 opaque1 transformed; ex_view 2 opaque2 false;
                 ex_view 3 opaque3 false] true)
    ex_full.

(** The ids of the surfaces of a list of records. *)
Definition record_ids (l : list damaged_surface_t) : list nat :=
  map (fun ds => surface_id (surface ds)) l.

(** The new manager after [add_post] for the hooks 7 and 8. *)
Definition ex_two_posts : render_manager :=
  add_post (add_post (ex_manager [] true) 7%nat) 8%nat.

(** A 65537 x 100 output whose frame damage is a 10 x 10 patch at
    [(65536, 0)]. *)
Definition ex_wide : render_manager :=
  with_frame_damage
    (render_manager_new
       (mkOutput (mkWlrOutput 65537 100 1 0) false (mkWlrBox 0 0 65537 100)
                 (mkWorkspace (0, 0) []) [] 2 2)
       (mkConfig false false) (ex_damage_manager true) 1)
    [rect 65536 0 10 10].

(** ** The manager as a machine *)

(** The display server changes what the manager reads but does not own:
    the output with its scene, the configuration flags, and the state of
    the display's damage manager. *)
Definition with_environment (s : render_manager) (o : wayfire_output)
    (cfg : runtime_config_t) (dm : wlr_output_damage) : render_manager :=
  mkRM o cfg (default_buffer s)
       (mkOutputDamage (od_frame_damage (output_damage s)) dm)
       (frame_damage s) (constant_redraw s) (output_inhibit s)
       (idle_redraw_source s) (idle_damage_source s) (renderer s)
       (effects s) (post_effects s) (output_streams s)
       (current_ws_stream s) (gl_names s) (heap_next s) (trace s).

(** The states a manager goes through: it starts as [render_manager_new]
    leaves it, on a GL context that hands out positive names; then plugins
    call its interface and its workspace streams, the event loop runs its
    idle callbacks, the display asks for frames, and the environment
    changes in between. *)
Inductive reachable (hook_body : effect_hook_t -> list rm_call)
    : render_manager -> Prop :=
| reach_new o cfg dm gl :
    0 < gl -> reachable hook_body (render_manager_new o cfg dm gl)
| reach_call s c :
    reachable hook_body s -> reachable hook_body (do_call s c)
| reach_frame s :
    reachable hook_body s -> reachable hook_body (frame_cb hook_body s)
| reach_redraw_idle s :
    reachable hook_body s -> reachable hook_body (redraw_idle_cb s)
| reach_damage_idle s :
    reachable hook_body s -> reachable hook_body (damage_idle_cb s)
| reach_stream_start s idx :
    reachable hook_body s ->
    reachable hook_body (workspace_stream_start s idx)
| reach_stream_update s idx sx sy :
    reachable hook_body s ->
    reachable hook_body (workspace_stream_update s idx sx sy)
| reach_stream_stop s idx :
    reachable hook_body s ->
    reachable hook_body (workspace_stream_stop s idx)
| reach_environment s o cfg dm :
    reachable hook_body s ->
    reachable hook_body (with_environment s o cfg dm).

(** One opaque view on the output, and a 10 x 10 patch of damage at
    [(5, 5)]. *)
Definition ex_patch : render_manager :=
  with_frame_damage (ex_manager [ex_view 1 ex_full false] true)
                    [rect 5 5 10 10].

(** The region a call of [damage] adds: the region given, or the whole
    output for the null pointer. *)
Definition damage_argument (s : render_manager) (r : option region32)
    : region32 :=
  match r with
  | Some r => r
  | None =>
      init_rect 0 0
        (fst (wlr_output_transformed_resolution (handle (output s))))
        (snd (wlr_output_transformed_resolution (handle (output s))))
  end.

Definition is_swap (e : event) : bool :=
  match e with EvSwapBuffers _ => true | _ => false end.

(** The scene of three opaque views with a mapped, translucent drag icon
    over it. *)
Definition ex_scene_with_icon : render_manager :=
  with_frame_damage
    (render_manager_new
       (mkOutput ex_handle false (mkWlrBox 0 0 200 100)
          (mkWorkspace (0, 0)
             [ex_view 1 ex_full false; ex_view 2 ex_full false;
              ex_view 3 ex_full false])
          [mkIcon true [(ex_surface 9 [], 0, 0)]] 2 2)
       (mkConfig false false) (ex_damage_manager true) 1)
    ex_full.

(** The scene of three opaque views with no frame damage. *)
Definition ex_scene_undamaged : render_manager :=
  ex_manager [ex_view 1 ex_full false; ex_view 2 ex_full false;
              ex_view 3 ex_full false] true.

(** ** Grab interfaces ([plugin.cpp]) *)

(** What a grab interface asks of the input manager. *)
Inductive input_call := GrabInput | UngrabInput.

(** [wayfire_grab_interface_t]: the [grabbed] flag; [input_calls] lists
    the calls it has made to [core->input], oldest first. *)
Record wayfire_grab_interface_t := mkGrab
  { grabbed : bool;
    input_calls : list input_call }.

(** [wayfire_grab_interface_t::grab].  [plugin_active] is what
    [output->is_plugin_active(name)] answers and [grab_ok] what
    [core->input->grab_input(this)] would answer. *)
Definition grab (i : wayfire_grab_interface_t) (plugin_active grab_ok : bool)
    : bool * wayfire_grab_interface_t :=
  if grabbed i then (true, i)
  else if negb plugin_active then (false, i)
  else (grab_ok, mkGrab true (input_calls i ++ [GrabInput])).

(** [wayfire_grab_interface_t::ungrab] *)
Definition ungrab (i : wayfire_grab_interface_t) : wayfire_grab_interface_t :=
  if negb (grabbed i) then i
  else mkGrab false (input_calls i ++ [UngrabInput]).

(** [wayfire_grab_interface_t::is_grabbed] *)
Definition is_grabbed (i : wayfire_grab_interface_t) : bool := grabbed i.

(** A use of a grab interface by its plugin. *)
Inductive grab_op :=
| DoGrab (plugin_active grab_ok : bool)
| DoUngrab.

Definition do_grab_op (i : wayfire_grab_interface_t) (op : grab_op)
    : wayfire_grab_interface_t :=
  match op with
  | DoGrab plugin_active grab_ok => snd (grab i plugin_active grab_ok)
  | DoUngrab => ungrab i
  end.

(** Calls to the input manager that take turns: a grab only while none is
    held, a release only of a held one. *)
Fixpoint alternating (held : bool) (l : list input_call) : bool :=
  match l with
  | [] => true
  | GrabInput :: r => negb held && alternating true r
  | UngrabInput :: r => held && alternating false r
  end.

(** Whether a grab is held after the calls [l], when [held] before. *)
Definition held_after (held : bool) (l : list input_call) : bool :=
  fold_left (fun _ c => match c with
                        | GrabInput => true
                        | UngrabInput => false
                        end)
            l held.

(** ** Kinds of events *)

(** What a call of the interface or [cleanup_post_hooks] may ask for:
    frames, idle callbacks, signals, and the deletion of buffers. *)
Definition call_event (e : event) : bool :=
  match e with
  | EvScheduleFrame | EvScheduleRedraw | EvIdleAddRedraw | EvIdleAddDamage
  | EvSignal _ | EvGLDelete _ => true
  | _ => false
  end.

(** What a phase of effects may ask for: the hooks and their calls. *)
Definition hook_event (e : event) : bool :=
  match e with
  | EvEffect _ => true
  | _ => call_event e
  end.

(** What [post_paint] may ask for. *)
Definition post_paint_event (e : event) : bool :=
  match e with
  | EvFrameDone _ => true
  | _ => hook_event e
  end.

(** What a workspace stream may ask for. *)
Definition stream_event (e : event) : bool :=
  match e with
  | EvRenderBegin | EvRenderEnd | EvClear _ _ _ _ | EvScissor _
  | EvSignal _ | EvIconSetOutput _ | EvRenderFb _ _ _ => true
  | _ => false
  end.

(** Work on the GL context and the display: binding, drawing, swapping. *)
Definition draw_event (e : event) : bool :=
  match e with
  | EvMakeCurrent _ | EvSwapBuffers _ | EvBindOutput | EvUnbindOutput
  | EvRenderBegin | EvRenderEnd | EvClear _ _ _ _ | EvScissor _
  | EvRenderer _ _ | EvPostHook _ _ _ | EvSoftwareCursors _
  | EvRenderFb _ _ _ => true
  | _ => false
  end.

Definition is_render_fb (e : event) : bool :=
  match e with EvRenderFb _ _ _ => true | _ => false end.

Definition is_renderer (e : event) : bool :=
  match e with EvRenderer _ _ => true | _ => false end.

(** [s'] has the trace of [s] followed by events of kind [P]. *)
Definition extends (P : event -> bool) (s s' : render_manager) : Prop :=
  exists evs, trace s' = trace s ++ evs /\ forallb P evs = true.

(** A new manager on the example output that has painted one frame: the
    display has nothing left to swap. *)
Definition ex_painted : render_manager :=
  paint ex_hook_body (ex_manager [ex_view 1 ex_full false] true).

(** ** Bookkeeping the manager keeps *)

Definition is_idle_add_redraw (e : event) : bool :=
  match e with EvIdleAddRedraw => true | _ => false end.

Definition is_idle_add_damage (e : event) : bool :=
  match e with EvIdleAddDamage => true | _ => false end.

(** Events that queue no idle callback. *)
Definition plain_event (e : event) : bool :=
  negb (is_idle_add_redraw e || is_idle_add_damage e).

(** How many redraw callbacks, and how many damage callbacks, have been
    handed to [wl_event_loop_add_idle]. *)
Definition redraw_idle_adds (t : list event) : nat :=
  length (filter is_idle_add_redraw t).

Definition damage_idle_adds (t : list event) : nat :=
  length (filter is_idle_add_damage t).

(** The callbacks queued so far, less the one [idle_redraw_source]
    (resp. [idle_damage_source]) stands for: the callbacks that must have
    run already. *)
Definition redraw_balance (s : render_manager) : Z :=
  Z.of_nat (redraw_idle_adds (trace s)) - Z.b2z (idle_redraw_source s).

Definition damage_balance (s : render_manager) : Z :=
  Z.of_nat (damage_idle_adds (trace s)) - Z.b2z (idle_damage_source s).

(** The workspace each cell of the stream grid is for. *)
Definition ws_tags (s : render_manager) : list (list (Z * Z)) :=
  map (map ws) (output_streams s).

(** The grid of [n] by [m] workspaces. *)
Definition ws_grid (n m : nat) : list (list (Z * Z)) :=
  map (fun i => map (fun j => (Z.of_nat i, Z.of_nat j)) (seq 0 m)) (seq 0 n).

(** The entries of the chain are distinct heap objects, allocated before
    the next one. *)
Definition heap_ok (s : render_manager) : Prop :=
  NoDup (map post_addr (post_effects s))
  /\ Forall (fun p => (post_addr p < heap_next s)%nat) (post_effects s).

(** An entry of the chain without its buffer: the object and its hook. *)
Definition entry_id (p : wf_post_effect) : nat * post_hook_t :=
  (post_addr p, hook p).

(** What every operation of the manager keeps, the idle callbacks apart:
    the two balances, the grid, a counter that is not negative, and a
    chain of distinct objects. *)
Definition steady (s s' : render_manager) : Prop :=
  redraw_balance s' = redraw_balance s
  /\ damage_balance s' = damage_balance s
  /\ ws_tags s' = ws_tags s
  /\ (0 <= constant_redraw s -> 0 <= constant_redraw s')
  /\ (heap_ok s -> heap_ok s').

(** What happens to a manager, one thing at a time. *)
Inductive machine_op :=
| OpCall (c : rm_call)
| OpFrame
| OpRedrawIdle
| OpDamageIdle
| OpStreamStart (idx : nat * nat)
| OpStreamUpdate (idx : nat * nat) (sx sy : Q)
| OpStreamStop (idx : nat * nat)
| OpEnvironment (o : wayfire_output) (cfg : runtime_config_t)
                (dm : wlr_output_damage).

(** A manager with the event loop it is attached to: of the loop, how many
    of the manager's redraw callbacks and damage callbacks it has run. *)
Record machine := mkMachine
  { manager : render_manager;
    redraw_cbs_run : nat;
    damage_cbs_run : nat }.

(** The callbacks handed to [wl_event_loop_add_idle] that the loop has not
    run yet. *)
Definition pending_redraw (m : machine) : nat :=
  redraw_idle_adds (trace (manager m)) - redraw_cbs_run m.

Definition pending_damage (m : machine) : nat :=
  damage_idle_adds (trace (manager m)) - damage_cbs_run m.

(** One step of the machine.  The event loop runs an idle callback once,
    and only one that has been handed to it: there is no step for a
    callback when none is pending. *)
Definition machine_step (hook_body : effect_hook_t -> list rm_call)
    (m : machine) (op : machine_op) : option machine :=
  let s := manager m in
  let same s' := Some (mkMachine s' (redraw_cbs_run m) (damage_cbs_run m)) in
  match op with
  | OpCall c => same (do_call s c)
  | OpFrame => same (frame_cb hook_body s)
  | OpRedrawIdle =>
      if Nat.ltb 0 (pending_redraw m)
      then Some (mkMachine (redraw_idle_cb s) (S (redraw_cbs_run m))
                           (damage_cbs_run m))
      else None
  | OpDamageIdle =>
      if Nat.ltb 0 (pending_damage m)
      then Some (mkMachine (damage_idle_cb s) (redraw_cbs_run m)
                           (S (damage_cbs_run m)))
      else None
  | OpStreamStart idx => same (workspace_stream_start s idx)
  | OpStreamUpdate idx sx sy => same (workspace_stream_update s idx sx sy)
  | OpStreamStop idx => same (workspace_stream_stop s idx)
  | OpEnvironment o cfg dm => same (with_environment s o cfg dm)
  end.

Fixpoint machine_run (hook_body : effect_hook_t -> list rm_call)
    (ops : list machine_op) (m : machine) : option machine :=
  match ops with
  | [] => Some m
  | op :: rest =>
      match machine_step hook_body m op with
      | Some m' => machine_run hook_body rest m'
      | None => None
      end
  end.

(** A new manager on a loop that has run none of its callbacks. *)
Definition machine_new (o : wayfire_output) (cfg : runtime_config_t)
    (dm : wlr_output_damage) (gl : Z) : machine :=
  mkMachine (render_manager_new o cfg dm gl) 0 0.

(** The manager agrees with its loop: a source pointer is set exactly
    while one callback of its kind is pending, and never more than one
    is. *)
Definition sources_agree (m : machine) : Prop :=
  pending_redraw m = (if idle_redraw_source (manager m) then 1 else 0)%nat
  /\ pending_damage m
     = (if idle_damage_source (manager m) then 1 else 0)%nat.

(** [render_manager::~render_manager] removes from the loop the source of
    each pointer that is set: the redraw and the damage callbacks of the
    manager that are left in the loop afterwards. *)
Definition pending_after_destroy (m : machine) : nat * nat :=
  (pending_redraw m - (if idle_redraw_source (manager m) then 1 else 0),
   pending_damage m - (if idle_damage_source (manager m) then 1 else 0))%nat.

(** The [(hook, source, destination)] of the post hooks a trace calls. *)
Fixpoint post_hook_calls (t : list event)
    : list (post_hook_t * wf_framebuffer_base * wf_framebuffer_base) :=
  match t with
  | [] => []
  | EvPostHook h src dst :: r => (h, src, dst) :: post_hook_calls r
  | _ :: r => post_hook_calls r
  end.

(** What a stream is for and how it runs, its buffer apart. *)
Definition stream_flags (st : wf_workspace_stream)
    : (Z * Z) * bool * Q * Q :=
  (ws st, running st, scale_x st, scale_y st).

(** ** Damage handed to surfaces *)

(** Every pixel of [a] is a pixel of [b]. *)
Definition region_within (a b : region32) : Prop :=
  forall px py, contains a px py = true -> contains b px py = true.

(** A record to draw carries damage, and only damage of [d]. *)
Definition record_within (d : region32) (ds : damaged_surface_t) : Prop :=
  not_empty (ds_damage ds) = true /\ region_within (ds_damage ds) d.

(** What the scheduling lambdas keep: the damage left is damage of [d], and
    so is the damage of every record, none of which is empty. *)
Definition sched_within (d : region32) (st : schedule_state) : Prop :=
  region_within (fst st) d /\ Forall (record_within d) (snd st).

(** What is handed to the display between two events of a frame: not the
    binding of the output, not a swap, not [make_current]. *)
Definition inner_event (e : event) : bool :=
  match e with
  | EvBindOutput | EvUnbindOutput | EvSwapBuffers _ | EvMakeCurrent _ =>
      false
  | _ => true
  end.

(** A run of the event loop on the example output. *)
Definition ex_ops : list machine_op :=
  [OpRedrawIdle; OpCall (CallAutoRedraw true); OpCall (CallAutoRedraw true);
   OpFrame; OpRedrawIdle; OpCall CallResetRenderer;
   OpCall CallResetRenderer; OpStreamStart (1%nat, 0%nat); OpDamageIdle;
   OpEnvironment (ex_output []) (mkConfig true false)
                 (ex_damage_manager true);
   OpFrame].

Definition ex_machine : machine :=
  machine_new (ex_output []) (mkConfig false false) (ex_damage_manager true)
              1.

(** Work on the GL context inside a frame, the scene apart. *)
Definition gl_event (e : event) : bool :=
  match e with
  | EvRenderBegin | EvRenderEnd | EvClear _ _ _ _ | EvSoftwareCursors _
  | EvPostHook _ _ _ => true
  | _ => false
  end.

(** A manager with a custom renderer, on the example output. *)
Definition ex_custom : render_manager :=
  set_renderer (ex_manager [ex_view 1 ex_full false] true) 5%nat.

(** Whether a trace calls a post hook. *)
Definition posts_ran (t : list event) : bool :=
  match post_hook_calls t with
  | [] => false
  | _ => true
  end.

(** The pixels a painted frame swaps, in closed form: the whole rectangle
    [(0, 0, width, height)] of the output when a custom renderer is set or
    a post hook runs; otherwise the frame damage on the output when there
    is some and, when there is none, the rectangle again under
    [damage_debug]. *)
Definition frame_swap_damage (s : render_manager) (posts : bool)
    (px py : Z) : bool :=
  let full :=
    in_box px py (rect 0 0 (width (handle (output s)))
                       (height (handle (output s)))) in
  let fd :=
    intersect_rect (frame_damage s) 0 0
      (fst (wlr_output_transformed_resolution (handle (output s))))
      (snd (wlr_output_transformed_resolution (handle (output s)))) in
  match renderer s with
  | Some _ => full
  | None => if not_empty fd then contains fd px py
            else damage_debug (runtime_config s) && full
  end
  || (posts && full).

(** The example manager with [damage_debug] set and a patch of frame
    damage. *)
Definition ex_debug : render_manager :=
  with_frame_damage
    (with_environment (ex_manager [ex_view 1 ex_full false] true)
       (ex_output [ex_view 1 ex_full false]) (mkConfig false true)
       (ex_damage_manager true))
    [rect 5 5 10 10].

(** ** Facts about regions *)

Lemma in_box_iff px py b :
  in_box px py b = true <-> x1 b <= px < x2 b /\ y1 b <= py < y2 b.
Proof.
  unfold in_box. rewrite !andb_true_iff, !Z.leb_le, !Z.ltb_lt. lia.
Qed.

Lemma box_not_empty_iff b :
  box_not_empty b = true <-> x1 b < x2 b /\ y1 b < y2 b.
Proof. unfold box_not_empty. rewrite andb_true_iff, !Z.ltb_lt. lia. Qed.

Lemma contains_iff r px py :
  contains r px py = true <-> exists b, In b r /\ in_box px py b = true.
Proof. unfold contains. apply existsb_exists. Qed.

Lemma contains_nil px py : contains [] px py = false.
Proof. reflexivity. Qed.

Lemma contains_filter r px py :
  contains (filter box_not_empty r) px py = contains r px py.
Proof.
  apply eq_true_iff_eq. rewrite !contains_iff. split.
  - intros [b [Hb Hp]]. apply filter_In in Hb. exists b. tauto.
  - intros [b [Hb Hp]]. exists b. split; [|assumption].
    apply filter_In. split; [assumption|].
    apply in_box_iff in Hp. apply box_not_empty_iff. lia.
Qed.

Lemma contains_union a b px py :
  contains (union a b) px py = contains a px py || contains b px py.
Proof. unfold contains, union. apply existsb_app. Qed.

Lemma contains_init_rect x y w h px py :
  contains (init_rect x y w h) px py = in_box px py (rect x y w h).
Proof.
  unfold init_rect. rewrite contains_filter. simpl. apply orb_false_r.
Qed.

Lemma in_box_intersect a b px py :
  in_box px py (box_intersect a b) = in_box px py a && in_box px py b.
Proof.
  apply eq_true_iff_eq. rewrite andb_true_iff, !in_box_iff. simpl. lia.
Qed.

Lemma contains_intersect a b px py :
  contains (intersect a b) px py = contains a px py && contains b px py.
Proof.
  apply eq_true_iff_eq. rewrite andb_true_iff, !contains_iff. split.
  - intros [c [Hc Hp]]. unfold intersect in Hc.
    apply in_flat_map in Hc. destruct Hc as [ba [Hba Hc]].
    apply filter_In in Hc. destruct Hc as [Hc _].
    apply in_map_iff in Hc. destruct Hc as [bb [<- Hbb]].
    rewrite in_box_intersect in Hp. apply andb_true_iff in Hp.
    split; [exists ba | exists bb]; tauto.
  - intros [[ba [Hba Hpa]] [bb [Hbb Hpb]]].
    exists (box_intersect ba bb). split.
    + unfold intersect. apply in_flat_map. exists ba. split; [assumption|].
      apply filter_In. split; [apply in_map; assumption|].
      apply in_box_iff in Hpa, Hpb. apply box_not_empty_iff. simpl. lia.
    + rewrite in_box_intersect, Hpa, Hpb. reflexivity.
Qed.

Lemma contains_intersect_rect a x y w h px py :
  contains (intersect_rect a x y w h) px py
  = contains a px py && in_box px py (rect x y w h).
Proof.
  unfold intersect_rect. rewrite contains_intersect. simpl.
  now rewrite orb_false_r.
Qed.

Lemma contains_box_subtract a b px py :
  contains (box_subtract a b) px py
  = in_box px py a && negb (in_box px py b).
Proof.
  unfold box_subtract. rewrite contains_filter.
  apply eq_true_iff_eq. unfold contains. simpl.
  rewrite !orb_true_iff, andb_true_iff, negb_true_iff.
  rewrite <- not_true_iff_false, !in_box_iff. simpl. lia.
Qed.

Lemma contains_flat_subtract acc bb px py :
  contains (flat_map (fun ba => box_subtract ba bb) acc) px py
  = contains acc px py && negb (in_box px py bb).
Proof.
  induction acc as [|ba acc IH]; [reflexivity|].
  cbn [flat_map].
  assert (Happ : forall l l', contains (l ++ l') px py
                              = contains l px py || contains l' px py)
    by (intros; apply existsb_app).
  rewrite Happ, contains_box_subtract, IH.
  change (contains (ba :: acc) px py)
    with (in_box px py ba || contains acc px py).
  destruct (in_box px py ba), (in_box px py bb), (contains acc px py);
    reflexivity.
Qed.

Lemma contains_subtract a b px py :
  contains (subtract a b) px py = contains a px py && negb (contains b px py).
Proof.
  unfold subtract. revert a.
  induction b as [|bb b IH]; intro a; simpl.
  - now rewrite andb_true_r.
  - rewrite IH, contains_flat_subtract.
    change (existsb (in_box px py) b) with (contains b px py).
    destruct (contains a px py), (in_box px py bb), (contains b px py);
      reflexivity.
Qed.

Lemma contains_translate a dx dy px py :
  contains (translate a dx dy) px py = contains a (px - dx) (py - dy).
Proof.
  unfold contains, translate. induction a as [|b a IH]; [reflexivity|].
  simpl. rewrite IH. f_equal.
  apply eq_true_iff_eq. rewrite !in_box_iff. simpl. lia.
Qed.

Lemma not_empty_iff a :
  not_empty a = true <-> exists px py, contains a px py = true.
Proof.
  unfold not_empty. rewrite existsb_exists. split.
  - intros [b [Hb Hne]]. exists (x1 b), (y1 b).
    apply contains_iff. exists b. split; [assumption|].
    apply box_not_empty_iff in Hne. apply in_box_iff. lia.
  - intros [px [py H]]. apply contains_iff in H.
    destruct H as [b [Hb Hp]]. exists b. split; [assumption|].
    apply in_box_iff in Hp. apply box_not_empty_iff. lia.
Qed.

Lemma empty_iff a :
  not_empty a = false <-> forall px py, contains a px py = false.
Proof.
  split.
  - intros H px py. destruct (contains a px py) eqn:E; [|reflexivity].
    assert (not_empty a = true) by (apply not_empty_iff; eauto). congruence.
  - intros H. destruct (not_empty a) eqn:E; [|reflexivity].
    apply not_empty_iff in E. destruct E as [px [py E]].
    rewrite H in E. discriminate.
Qed.

(** ** Damage accumulator *)

Lemma transformed_resolution_eq (o : wlr_output) :
  wlr_output_transformed_resolution o
  = (fst (wlr_output_transformed_resolution o),
     snd (wlr_output_transformed_resolution o)).
Proof. now destruct (wlr_output_transformed_resolution o). Qed.

Lemma wrap_int_fits (z : Z) : fits_int z = true -> wrap_int z = z.
Proof.
  unfold fits_int, wrap_int. rewrite andb_true_iff, !Z.leb_le.
  intros [Hlo Hhi]. rewrite Z.mod_small by lia. lia.
Qed.

(** What [get_ws_damage] leaves in [out_damage], whatever it held before:
    the offsets are the [int] the code computes. *)
Lemma get_ws_damage_wrapped (s : render_manager) (vx vy : Z)
    (out_damage : region32) :
  let c := current_workspace (workspace (output s)) in
  let sw := fst (wlr_output_transformed_resolution (handle (output s))) in
  let sh := snd (wlr_output_transformed_resolution (handle (output s))) in
  snd (get_ws_damage s (vx, vy) out_damage)
  = translate
      (intersect_rect (frame_damage s)
         (int_mul (int_sub vx (fst c)) sw) (int_mul (int_sub vy (snd c)) sh)
         sw sh)
      (int_mul (int_sub (fst c) vx) sw) (int_mul (int_sub (snd c) vy) sh).
Proof.
  intros c sw sh. subst c sw sh. unfold get_ws_damage.
  destruct (current_workspace (workspace (output s))) as [cx cy].
  rewrite transformed_resolution_eq. reflexivity.
Qed.

(** C7: when the offsets the derivation names are values of [int],
    [get_ws_damage] leaves in [out_damage] the frame damage intersected
    with the rectangle [((vx - cx) sw, (vy - cy) sh, sw, sh)] and then
    translated by [((cx - vx) sw, (cy - vy) sh)], whatever [out_damage] held
    before; pixel by pixel this is the damage the spec describes, and it
    lies in the workspace-local rectangle [(0, 0, sw, sh)]. *)
Theorem get_ws_damage_spec (s : render_manager) (vx vy : Z)
    (out_damage : region32) :
  let c := current_workspace (workspace (output s)) in
  let sw := fst (wlr_output_transformed_resolution (handle (output s))) in
  let sh := snd (wlr_output_transformed_resolution (handle (output s))) in
  let out := snd (get_ws_damage s (vx, vy) out_damage) in
  ws_offsets_fit (vx, vy) c sw sh = true ->
  out = translate
          (intersect_rect (frame_damage s)
             ((vx - fst c) * sw) ((vy - snd c) * sh) sw sh)
          ((fst c - vx) * sw) ((snd c - vy) * sh)
  /\ (forall px py,
        contains out px py
        = ws_damage_spec (frame_damage s) (vx, vy) c sw sh px py)
  /\ (forall px py,
        contains out px py = true ->
        in_box px py (rect 0 0 sw sh) = true
        /\ contains (frame_damage s)
             (px + (vx - fst c) * sw) (py + (vy - snd c) * sh) = true).
Proof.
  intros c sw sh out Hfit.
  assert (Hout : out = translate
            (intersect_rect (frame_damage s)
               ((vx - fst c) * sw) ((vy - snd c) * sh) sw sh)
            ((fst c - vx) * sw) ((snd c - vy) * sh)).
  { subst out. rewrite get_ws_damage_wrapped. fold c sw sh.
    unfold ws_offsets_fit in Hfit. cbn [fst snd] in Hfit.
    do 7 (apply andb_true_iff in Hfit; destruct Hfit as [Hfit ?]).
    unfold int_mul, int_sub.
    repeat match goal with
           | H : fits_int ?z = true |- context [wrap_int ?z] =>
               rewrite (wrap_int_fits z H)
           end.
    reflexivity. }
  split; [exact Hout|].
  assert (Hpix : forall px py,
             contains out px py
             = ws_damage_spec (frame_damage s) (vx, vy) c sw sh px py).
  { intros px py. rewrite Hout, contains_translate, contains_intersect_rect.
    reflexivity. }
  split; [exact Hpix|].
  intros px py H. rewrite Hpix in H. unfold ws_damage_spec in H.
  apply andb_true_iff in H. destruct H as [Hc Hb]. cbn [fst snd] in Hc, Hb.
  apply in_box_iff in Hb. cbn in Hb. split.
  - apply in_box_iff. cbn. lia.
  - replace (px + (vx - fst c) * sw) with (px - (fst c - vx) * sw) by lia.
    replace (py + (vy - snd c) * sh) with (py - (snd c - vy) * sh) by lia.
    exact Hc.
Qed.

(** C7 at work: the patch at [(5, 5)] seen from workspace [(0, 0)] of the
    200 x 100 output. *)
Lemma get_ws_damage_spec_witness :
  ws_offsets_fit (0, 0) (0, 0) 200 100 = true
  /\ snd (get_ws_damage ex_patch (0, 0) init) = [mkBox 5 5 15 15]
  /\ forall px py,
       contains (snd (get_ws_damage ex_patch (0, 0) init)) px py
       = ws_damage_spec [rect 5 5 10 10] (0, 0) (0, 0) 200 100 px py.
Proof.
  split; [reflexivity|]. split; [reflexivity|].
  exact (proj1 (proj2 (get_ws_damage_spec ex_patch 0 0 init eq_refl))).
Defined.

(** C7 as the spec words it, for every workspace and output size, fails
    where a product leaves [int]: on a 65537 pixels wide output, for
    workspace [(65536, 0)], the offset [65536 * 65537] wraps to [65536], so
    the patch of frame damage at [(65536, 0)] comes out at [(0, 0)], where
    the derivation, taken in the integers, gives no damage at all. *)
Lemma get_ws_damage_wraps :
  snd (get_ws_damage ex_wide (65536, 0) init) = [mkBox 0 0 10 10]
  /\ translate
       (intersect_rect (frame_damage ex_wide)
          ((65536 - 0) * 65537) ((0 - 0) * 100) 65537 100)
       ((0 - 65536) * 65537) ((0 - 0) * 100)
     = []
  /\ contains (snd (get_ws_damage ex_wide (65536, 0) init)) 0 0 = true
  /\ ws_damage_spec (frame_damage ex_wide) (65536, 0) (0, 0) 65537 100 0 0
     = false.
Proof. vm_compute. repeat split. Qed.

(** C10: [get_ws_damage] writes its out-parameter only: the manager it
    returns is the manager it was called on, frame damage included, for
    every workspace and every content of [out_damage]. *)
Theorem get_ws_damage_pure (s : render_manager) (ws_ : Z * Z)
    (out_damage : region32) :
  fst (get_ws_damage s ws_ out_damage) = s
  /\ frame_damage (fst (get_ws_damage s ws_ out_damage)) = frame_damage s.
Proof.
  assert (H : fst (get_ws_damage s ws_ out_damage) = s).
  { unfold get_ws_damage. destruct ws_ as [vx vy].
    destruct (current_workspace (workspace (output s))) as [cx cy].
    destruct (wlr_output_transformed_resolution (handle (output s))).
    reflexivity. }
  split; [exact H | now rewrite H].
Qed.

(** What a successful [make_current] computes. *)
Lemma make_current_ok (s : render_manager) (out_damage : region32) :
  context_ok (damage_manager (output_damage s)) = true ->
  let w := fst (wlr_output_transformed_resolution (handle (output s))) in
  let h := snd (wlr_output_transformed_resolution (handle (output s))) in
  let od := output_damage s in
  let fd := subtract (od_frame_damage od) (init_rect 0 0 w h) in
  let out := union (copy (current (damage_manager od))) fd in
  make_current s out_damage
  = (true,
     output_needs_swap (damage_manager od)
       || not_empty (current (damage_manager od)),
     if no_damage_track (runtime_config s)
     then union out (init_rect 0 0 w h) else out,
     with_output_damage (log (EvMakeCurrent true) s)
       (mkOutputDamage fd (damage_manager od))).
Proof.
  intros Hok w h od fd out. unfold make_current.
  unfold wlr_output_damage_make_current. rewrite Hok.
  change (handle (output (log (EvMakeCurrent true) s)))
    with (handle (output s)).
  rewrite transformed_resolution_eq. reflexivity.
Qed.

(** What a failing [make_current] leaves. *)
Lemma make_current_failed (s : render_manager) (out_damage : region32) :
  context_ok (damage_manager (output_damage s)) = false ->
  make_current s out_damage
  = (false, false, out_damage, log (EvMakeCurrent false) s).
Proof.
  intros Hko. unfold make_current, wlr_output_damage_make_current.
  now rewrite Hko.
Qed.

Lemma make_current_result (s : render_manager) (out_damage : region32) :
  fst (fst (fst (make_current s out_damage)))
  = context_ok (damage_manager (output_damage s)).
Proof.
  destruct (context_ok (damage_manager (output_damage s))) eqn:E.
  - now rewrite make_current_ok.
  - now rewrite make_current_failed.
Qed.

(** C2: when [make_current] succeeds, [out_damage] holds exactly the pixels
    of the display's tracked damage, those of the frame damage outside the
    output rectangle [(0, 0, w, h)], and the whole output rectangle when
    [no_damage_track] is set; the frame damage kept by the accumulator then
    has no pixel inside the output rectangle, so no rectangle with area
    lying in the output rectangle lies in it, and none of its own
    rectangles lies in the output rectangle. *)
Theorem make_current_damage (s : render_manager) (out_damage : region32) :
  fst (fst (fst (make_current s out_damage))) = true ->
  let w := fst (wlr_output_transformed_resolution (handle (output s))) in
  let h := snd (wlr_output_transformed_resolution (handle (output s))) in
  let tracked := current (damage_manager (output_damage s)) in
  let prior := od_frame_damage (output_damage s) in
  let out := snd (fst (make_current s out_damage)) in
  let after :=
    od_frame_damage (output_damage (snd (make_current s out_damage))) in
  (forall px py,
     contains out px py
     = contains tracked px py
       || (contains prior px py && negb (in_box px py (rect 0 0 w h)))
       || (no_damage_track (runtime_config s)
           && in_box px py (rect 0 0 w h)))
  /\ (forall px py,
        contains after px py
        = contains prior px py && negb (in_box px py (rect 0 0 w h)))
  /\ (forall b, box_not_empty b = true ->
                box_within b [rect 0 0 w h] -> ~ box_within b after)
  /\ (forall b, In b (rectangles after) -> ~ box_within b [rect 0 0 w h]).
Proof.
  intros Hr w h tracked prior out after.
  rewrite make_current_result in Hr.
  pose proof (make_current_ok s out_damage Hr) as E. cbv zeta in E.
  assert (Hafter : forall px py,
             contains after px py
             = contains prior px py && negb (in_box px py (rect 0 0 w h))).
  { intros px py. subst after. rewrite E. cbn [snd].
    cbn [output_damage with_output_damage od_frame_damage].
    now rewrite contains_subtract, contains_init_rect. }
  assert (Hout : forall px py,
             contains out px py
             = contains tracked px py
               || (contains prior px py && negb (in_box px py (rect 0 0 w h)))
               || (no_damage_track (runtime_config s)
                   && in_box px py (rect 0 0 w h))).
  { intros px py. subst out. rewrite E. cbn [fst snd].
    destruct (no_damage_track (runtime_config s)).
    - rewrite !contains_union, contains_subtract, contains_init_rect.
      reflexivity.
    - rewrite contains_union, contains_subtract, contains_init_rect.
      unfold copy. now rewrite orb_false_r. }
  assert (Hnone : forall b, box_not_empty b = true ->
                    box_within b [rect 0 0 w h] -> ~ box_within b after).
  { intros b Hne Hin Haft.
    apply box_not_empty_iff in Hne.
    assert (Hp : in_box (x1 b) (y1 b) b = true) by (apply in_box_iff; lia).
    pose proof (Hin _ _ Hp) as H1. pose proof (Haft _ _ Hp) as H2.
    rewrite Hafter in H2. apply andb_true_iff in H2. destruct H2 as [_ H2].
    unfold contains in H1. simpl in H1. rewrite orb_false_r in H1.
    rewrite H1 in H2. discriminate. }
  repeat split; try assumption.
  intros b Hb Hin. unfold rectangles in Hb. apply filter_In in Hb.
  destruct Hb as [Hb Hne]. apply (Hnone b Hne Hin).
  intros px py Hp. apply contains_iff. exists b. tauto.
Qed.

(** C2 at work: damage reaching over the right and bottom edges of the
    200 x 100 output. *)
Lemma make_current_damage_witness :
  fst (fst (fst (make_current ex_overhang []))) = true
  /\ contains (snd (fst (make_current ex_overhang []))) 220 120 = true
  /\ contains
       (od_frame_damage (output_damage (snd (make_current ex_overhang []))))
       160 60 = false.
Proof.
  assert (Hr : fst (fst (fst (make_current ex_overhang []))) = true)
    by reflexivity.
  destruct (make_current_damage ex_overhang [] Hr) as [Hout [Hafter _]].
  split; [exact Hr|]. split.
  - rewrite Hout. reflexivity.
  - rewrite Hafter. reflexivity.
Defined.

(** ** Redraw and inhibit counters *)

Lemma schedule_redraw_calls_app (t u : list event) :
  schedule_redraw_calls (t ++ u)
  = (schedule_redraw_calls t + schedule_redraw_calls u)%nat.
Proof.
  unfold schedule_redraw_calls. now rewrite filter_app, length_app.
Qed.

Lemma schedule_redraw_counted (s : render_manager) :
  schedule_redraw_calls (trace (schedule_redraw s))
  = S (schedule_redraw_calls (trace s)).
Proof.
  unfold schedule_redraw.
  destruct (negb (idle_redraw_source (log EvScheduleRedraw s)));
    cbn [trace log with_trace with_idle_redraw_source];
    rewrite !schedule_redraw_calls_app; cbn; lia.
Qed.

Lemma schedule_redraw_keeps_counter (s : render_manager) :
  constant_redraw (schedule_redraw s) = constant_redraw s.
Proof.
  unfold schedule_redraw.
  now destruct (negb (idle_redraw_source (log EvScheduleRedraw s))).
Qed.

(** One call of [auto_redraw]: the counter afterwards, and whether
    [schedule_redraw] was entered. *)
Lemma auto_redraw_step (s : render_manager) (redraw : bool) :
  let v := constant_redraw s + (if redraw then 1 else -1) in
  constant_redraw (auto_redraw s redraw) = Z.max 0 v
  /\ schedule_redraw_invoked s redraw = (0 <=? v) && (v <=? 1).
Proof.
  intro v. unfold schedule_redraw_invoked, auto_redraw.
  cbn [constant_redraw with_constant_redraw]. fold v.
  destruct (v >? 1) eqn:Hgt.
  - cbn [trace with_constant_redraw constant_redraw].
    rewrite Nat.ltb_irrefl.
    apply Z.gtb_lt in Hgt. split; [lia|].
    symmetry. apply andb_false_iff. right. apply Z.leb_gt. lia.
  - destruct (v <? 0) eqn:Hlt.
    + cbn [trace with_constant_redraw constant_redraw].
      rewrite Nat.ltb_irrefl.
      apply Z.ltb_lt in Hlt. split; [lia|].
      symmetry. apply andb_false_iff. left. apply Z.leb_gt. lia.
    + rewrite schedule_redraw_keeps_counter, schedule_redraw_counted.
      cbn [trace with_constant_redraw constant_redraw].
      apply Z.ltb_ge in Hlt.
      assert (Hle : v <= 1)
        by (destruct (Z.gtb_spec v 1); [discriminate | lia]).
      split; [lia|].
      replace (0 <=? v) with true by (symmetry; apply Z.leb_le; lia).
      replace (v <=? 1) with true by (symmetry; apply Z.leb_le; lia).
      apply Nat.ltb_lt. lia.
Qed.

(** C5, as the code has it: each call moves [constant_redraw] by +1 or -1
    and clamps the result at 0; [schedule_redraw] is entered exactly on the
    calls whose moved value is 0 or 1, which besides the step from 0 to 1
    are the steps down from 1 to 0 and from 2 to 1. *)
Theorem auto_redraw_counter (s : render_manager) (redraw : bool) :
  let v := constant_redraw s + (if redraw then 1 else -1) in
  constant_redraw (auto_redraw s redraw) = Z.max 0 v
  /\ schedule_redraw_invoked s redraw = (0 <=? v) && (v <=? 1)
  /\ (crosses_zero_to_one s redraw = true ->
      schedule_redraw_invoked s redraw = true).
Proof.
  intro v. destruct (auto_redraw_step s redraw) as [Hc Hi].
  fold v in Hc, Hi. repeat split; try assumption.
  unfold crosses_zero_to_one. rewrite Hi, Hc. intro H.
  apply andb_true_iff in H. destruct H as [H0 H1].
  apply Z.eqb_eq in H0, H1.
  apply andb_true_iff. split; apply Z.leb_le; lia.
Qed.

(** C5 as stated fails: with the counter at 1, [auto_redraw(false)] takes it
    to 0 and enters [schedule_redraw], on a call that does not take the
    counter from 0 to 1; so does [auto_redraw(false)] with the counter
    at 2, which takes it to 1. *)
Lemma auto_redraw_schedules_on_release :
  constant_redraw ex_redrawing = 1
  /\ constant_redraw (auto_redraw ex_redrawing false) = 0
  /\ schedule_redraw_invoked ex_redrawing false = true
  /\ crosses_zero_to_one ex_redrawing false = false
  /\ constant_redraw (auto_redraw ex_redrawing true) = 2
  /\ constant_redraw (auto_redraw (auto_redraw ex_redrawing true) false) = 1
  /\ schedule_redraw_invoked (auto_redraw ex_redrawing true) false = true
  /\ crosses_zero_to_one (auto_redraw ex_redrawing true) false = false.
Proof. repeat split. Qed.

(** C6: [add_inhibit] does not clamp.  On a new manager, where both
    counters are 0, [add_inhibit(false)] leaves [output_inhibit] at -1; the
    same call through [auto_redraw] leaves [constant_redraw] at 0. *)
Theorem add_inhibit_underflow :
  output_inhibit (ex_manager [] true) = 0
  /\ output_inhibit (add_inhibit (ex_manager [] true) false) = -1
  /\ constant_redraw (auto_redraw (ex_manager [] true) false) = 0.
Proof. repeat split. Qed.

(** ** Effect hooks *)

Lemma effect_invocations_app (t u : list event) :
  effect_invocations (t ++ u) = effect_invocations t ++ effect_invocations u.
Proof.
  induction t as [|e t IH]; [reflexivity|].
  destruct e; cbn; rewrite ?IH; reflexivity.
Qed.

Lemma effect_invocations_map {A} (f : A -> event) (l : list A) :
  (forall a h, f a <> EvEffect h) -> effect_invocations (map f l) = [].
Proof.
  intros Hf. induction l as [|a l IH]; [reflexivity|].
  cbn [map]. specialize (Hf a). destruct (f a); cbn; try assumption.
  now destruct (Hf h).
Qed.

(** The erase loop of [_rem_post] reports GL deletions only. *)
Lemma rem_post_loop_events (post : nat) (l : list wf_post_effect) :
  effect_invocations (snd (rem_post_loop post l)) = [].
Proof.
  induction l as [|p r IH]; [reflexivity|].
  cbn [rem_post_loop]. destruct (rem_post_loop post r) as [r' ev].
  destruct (Nat.eqb (post_addr p) post); cbn; exact IH.
Qed.

(** Unfolds a call of the interface down to the trace it leaves. *)
Ltac trace_of_call :=
  unfold damage_box, damage, od_add, od_add_region, od_add_box,
    schedule_repaint, schedule_redraw, add_effect, rem_effect,
    reset_renderer, set_renderer, log;
  repeat match goal with
  | |- context [let '(_, _) := ?p in _] => destruct p
  | |- context [if ?c then _ else _] => destruct c
  | |- context [match ?r with Some _ => _ | None => _ end] => destruct r
  end;
  cbn [trace with_trace with_output_damage with_idle_redraw_source
       with_idle_damage_source with_renderer with_effects with_post_effects
       with_gl_names with_heap_next with_default_buffer
       with_constant_redraw with_output_inhibit output idle_redraw_source
       idle_damage_source];
  rewrite ?effect_invocations_app, ?app_nil_r; try reflexivity.

Lemma damage_invocations (s : render_manager) (r : option region32) :
  effect_invocations (trace (damage s r)) = effect_invocations (trace s).
Proof. trace_of_call. Qed.

Lemma damage_box_invocations (s : render_manager) (b : wlr_box) :
  effect_invocations (trace (damage_box s b)) = effect_invocations (trace s).
Proof. trace_of_call. Qed.

Lemma schedule_redraw_invocations (s : render_manager) :
  effect_invocations (trace (schedule_redraw s))
  = effect_invocations (trace s).
Proof. trace_of_call. Qed.

Lemma set_back_buffer_trace (s : render_manager) (b : wf_framebuffer_base) :
  trace (set_back_buffer s b) = trace s.
Proof. unfold set_back_buffer. now destruct (post_effects s). Qed.

Lemma add_post_invocations (s : render_manager) (h : post_hook_t) :
  effect_invocations (trace (add_post s h)) = effect_invocations (trace s).
Proof.
  unfold add_post.
  destruct (fb_allocate (fb_reset (back_buffer s)) _ _ _) as [b gl].
  match goal with
  | |- context [fb_allocate ?b0 ?w ?h0 ?g] =>
      destruct (fb_allocate b0 w h0 g) as [nb gl']
  end.
  cbn [trace with_post_effects with_gl_names with_heap_next].
  rewrite damage_invocations. cbn [trace with_gl_names].
  now rewrite set_back_buffer_trace.
Qed.

Lemma rem_post_invocations (s : render_manager) (h : post_hook_t) :
  effect_invocations (trace (rem_post s h)) = effect_invocations (trace s).
Proof. unfold rem_post. now rewrite damage_invocations. Qed.

Lemma auto_redraw_invocations (s : render_manager) (redraw : bool) :
  effect_invocations (trace (auto_redraw s redraw))
  = effect_invocations (trace s).
Proof.
  unfold auto_redraw.
  repeat match goal with
  | |- context [if ?c then _ else _] => destruct c
  end; rewrite ?schedule_redraw_invocations; reflexivity.
Qed.

Lemma add_inhibit_invocations (s : render_manager) (add : bool) :
  effect_invocations (trace (add_inhibit s add))
  = effect_invocations (trace s).
Proof.
  unfold add_inhibit.
  match goal with
  | |- context [if ?c then _ else _] => destruct c
  end; [|reflexivity].
  unfold log. cbn [trace with_trace].
  rewrite effect_invocations_app, damage_invocations. cbn.
  now rewrite app_nil_r.
Qed.

(** No call of the interface invokes an effect hook. *)
Lemma do_call_invocations (s : render_manager) (c : rm_call) :
  effect_invocations (trace (do_call s c)) = effect_invocations (trace s).
Proof.
  destruct c; cbn [do_call].
  - apply damage_box_invocations.
  - apply damage_invocations.
  - reflexivity.
  - reflexivity.
  - apply add_post_invocations.
  - apply rem_post_invocations.
  - apply auto_redraw_invocations.
  - apply add_inhibit_invocations.
  - reflexivity.
  - trace_of_call.
Qed.

Lemma do_calls_invocations (cs : list rm_call) (s : render_manager) :
  effect_invocations (trace (fold_left do_call cs s))
  = effect_invocations (trace s).
Proof.
  revert s. induction cs as [|c cs IH]; intro s; [reflexivity|].
  cbn [fold_left]. now rewrite IH, do_call_invocations.
Qed.

(** The copy loop of [run_effects] yields the container as it is. *)
Lemma copy_loop_eq {A} (l acc : list A) :
  fold_left (fun acc e => acc ++ [e]) l acc = acc ++ l.
Proof.
  revert acc. induction l as [|x l IH]; intro acc; cbn [fold_left].
  - now rewrite app_nil_r.
  - rewrite IH, <- app_assoc. reflexivity.
Qed.

Section EffectSnapshot.

Variable hook_body : effect_hook_t -> list rm_call.

Lemma run_hooks_invocations (l : list effect_hook_t) (s : render_manager) :
  effect_invocations
    (trace (fold_left
              (fun s effect => fold_left do_call (hook_body effect)
                                         (log (EvEffect effect) s))
              l s))
  = effect_invocations (trace s) ++ l.
Proof.
  revert s. induction l as [|h l IH]; intro s; cbn [fold_left].
  - now rewrite app_nil_r.
  - rewrite IH, do_calls_invocations. unfold log. cbn [trace with_trace].
    rewrite effect_invocations_app, <- app_assoc. reflexivity.
Qed.

(** C9: [run_effects] invokes exactly the hooks that are in the phase's
    container when the phase begins, in the container's order, whatever the
    hooks do while they run: their bodies may call [add_effect] and
    [rem_effect] (and the rest of the interface) on any phase.  The
    container's order is insertion order: [add_effect] appends. *)
Theorem run_effects_snapshot (s : render_manager)
    (type : wf_output_effect_type) :
  effect_invocations (trace (run_effects hook_body s type))
  = effect_invocations (trace s) ++ effects_of (effects s) type
  /\ (forall h, effects_of (effects (add_effect s h type)) type
                = effects_of (effects s) type ++ [h]).
Proof.
  split.
  - unfold run_effects. rewrite copy_loop_eq. cbn [app].
    apply run_hooks_invocations.
  - intro h. now destruct type.
Qed.

End EffectSnapshot.

(** A hook that edits the container it is run from: hook 1 removes hook 2
    and adds hook 3; this run still invokes 1 and 2, and the next one finds
    1 and 3. *)
Example run_effects_edits_container :
  effect_invocations
    (trace (run_effects ex_hook_body (ex_with_effects true)
                        WF_OUTPUT_EFFECT_PRE)) = [1%nat; 2%nat]
  /\ effects_pre
       (effects (run_effects ex_hook_body (ex_with_effects true)
                             WF_OUTPUT_EFFECT_PRE)) = [1%nat; 3%nat].
Proof. split; reflexivity. Qed.

(** ** [paint] *)

Lemma with_frame_damage_same (s : render_manager) :
  with_frame_damage s (frame_damage s) = s.
Proof. now destruct s. Qed.

(** C8: when [make_current] fails, [paint] stops there.  The manager it
    leaves is the one the failed [make_current] left: after the attempt
    nothing is asked of the GL context, no stream is rendered, no overlay or
    post hook runs, nothing is swapped and [post_paint] is not entered; the
    trace ends with the failed attempt.  [paint] returns no result. *)
Theorem paint_aborts_on_make_current_failure
    (hook_body : effect_hook_t -> list rm_call) (s : render_manager) :
  let prepared := paint_prepare hook_body s in
  fst (fst (fst (make_current prepared (frame_damage prepared)))) = false ->
  paint hook_body s = snd (make_current prepared (frame_damage prepared))
  /\ paint hook_body s = log (EvMakeCurrent false) prepared
  /\ trace (paint hook_body s) = trace prepared ++ [EvMakeCurrent false].
Proof.
  intros prepared Hr. rewrite make_current_result in Hr.
  assert (E : paint hook_body s = log (EvMakeCurrent false) prepared).
  { unfold paint. fold prepared.
    rewrite (make_current_failed prepared _ Hr). cbn [negb].
    change (frame_damage prepared)
      with (frame_damage (log (EvMakeCurrent false) prepared)).
    apply with_frame_damage_same. }
  rewrite (make_current_failed prepared _ Hr). cbn [snd].
  repeat split; try exact E. now rewrite E.
Qed.

(** C8 at work: a display whose context cannot be made current; the pre
    effects have run, then the frame is given up. *)
Lemma paint_aborts_witness :
  fst (fst (fst (make_current
                   (paint_prepare ex_hook_body (ex_with_effects false))
                   (frame_damage
                      (paint_prepare ex_hook_body (ex_with_effects false))))))
  = false
  /\ trace (paint ex_hook_body (ex_with_effects false))
     = [EvScheduleFrame; EvScheduleRedraw; EvIdleAddRedraw;
        EvEffect 1%nat; EvEffect 2%nat; EvMakeCurrent false].
Proof.
  split; [reflexivity|].
  destruct (paint_aborts_on_make_current_failure
              ex_hook_body (ex_with_effects false) eq_refl) as [_ [_ Ht]].
  rewrite Ht. reflexivity.
Defined.

(** ** Workspace streams: draw order *)

Lemma render_fb_calls_app (t u : list event) :
  render_fb_calls (t ++ u) = render_fb_calls t ++ render_fb_calls u.
Proof.
  induction t as [|e t IH]; [reflexivity|].
  destruct e; cbn; rewrite ?IH; reflexivity.
Qed.

Lemma render_fb_calls_none {A} (f : A -> list event) (l : list A) :
  (forall a, render_fb_calls (f a) = []) ->
  render_fb_calls (flat_map f l) = [].
Proof.
  intros Hf. induction l as [|a l IH]; [reflexivity|].
  cbn [flat_map]. now rewrite render_fb_calls_app, Hf, IH.
Qed.

Lemma firstn_snoc {A} (l : list A) (k : nat) (x : A) :
  nth_error l k = Some x -> firstn (S k) l = firstn k l ++ [x].
Proof.
  revert k. induction l as [|y l IH]; intros [|k] H; try discriminate.
  - cbn in H. injection H as ->. reflexivity.
  - cbn [nth_error] in H. cbn [firstn app]. f_equal.
    rewrite <- (IH k H). reflexivity.
Qed.

(** The draw loop walks the records from the last one collected to the first
    one. *)
Lemma render_loop_calls (n : nat) (to_render : list damaged_surface_t) :
  forall (target : wf_framebuffer) (s : render_manager),
  (n <= length to_render)%nat ->
  render_fb_calls (trace (snd (render_loop n to_render target s)))
  = render_fb_calls (trace s)
    ++ map render_fb_call (rev (firstn n to_render)).
Proof.
  induction n as [|k IH]; intros target s Hn.
  - cbn. now rewrite app_nil_r.
  - cbn [render_loop].
    destruct (nth_error to_render k) as [ds|] eqn:Hk.
    + rewrite IH by lia. rewrite (firstn_snoc _ _ _ Hk), rev_app_distr.
      unfold log. cbn [trace with_trace rev app map].
      rewrite render_fb_calls_app, <- app_assoc. reflexivity.
    + apply nth_error_None in Hk. lia.
Qed.

Lemma get_ws_damage_state (s : render_manager) (ws_ : Z * Z)
    (out_damage : region32) :
  get_ws_damage s ws_ out_damage = (s, snd (get_ws_damage s ws_ out_damage)).
Proof.
  unfold get_ws_damage. destruct ws_ as [vx vy].
  destruct (current_workspace (workspace (output s))) as [cx cy].
  now destruct (wlr_output_transformed_resolution (handle (output s))).
Qed.

Lemma render_fb_calls_icons (s : render_manager) (attach : bool) :
  render_fb_calls (icons_set_output s attach) = [].
Proof.
  unfold icons_set_output. destruct (renderer s); [reflexivity|].
  induction (mapped_icons (output s)) as [|a l IH]; [reflexivity | exact IH].
Qed.

Lemma collect_damaged_ext (s s' : render_manager) (ws_ : Z * Z)
    (dx dy : Z) (d : region32) :
  output s' = output s -> renderer s' = renderer s ->
  collect_damaged s' ws_ dx dy d = collect_damaged s ws_ dx dy d.
Proof. unfold collect_damaged. now intros -> ->. Qed.

(** The [render_fb] calls of one [workspace_stream_update]. *)
Lemma workspace_stream_update_calls (s : render_manager) (idx : nat * nat)
    (scale_x_ scale_y_ : Q) :
  render_fb_calls (trace (workspace_stream_update s idx scale_x_ scale_y_))
  = render_fb_calls (trace s)
    ++ map render_fb_call (rev (stream_records s idx scale_x_ scale_y_)).
Proof.
  unfold workspace_stream_update, stream_records, stream_damage.
  destruct (get_stream s idx) as [stream|]; [|symmetry; apply app_nil_r].
  destruct (ws stream) as [x y] eqn:Hws.
  destruct (current_workspace (workspace (output s))) as [cx cy] eqn:Hcur.
  rewrite get_ws_damage_state. cbn [snd]. rewrite <- Hws.
  set (d0 := snd (get_ws_damage s (ws stream) init)).
  destruct (not_empty d0); cbn [negb]; [|symmetry; apply app_nil_r].
  set (dx := bx (relative_geometry (output s))
             + (x - cx) * bwidth (relative_geometry (output s))).
  set (dy := by_ (relative_geometry (output s))
             + (y - cy) * bheight (relative_geometry (output s))).
  set (d1 := if negb (Qeq_bool scale_x_ (scale_x stream))
                || negb (Qeq_bool scale_y_ (scale_y stream))
             then _ else d0).
  destruct (fb_allocate (stream_buffer stream) _ _ _) as [b gl].
  cbn [ws].
  match goal with
  | |- context [collect_damaged ?s' ?w dx dy ?d] =>
      rewrite (collect_damaged_ext s s' w dx dy d) by reflexivity
  end.
  destruct (collect_damaged s (ws stream) dx dy d1) as [d2 to_render].
  cbn [snd].
  match goal with
  | |- context [render_loop ?n ?l ?t ?s'] =>
      pose proof (render_loop_calls n l t s' (Nat.le_refl _)) as Hloop;
      destruct (render_loop n l t s') as [target' s'']
  end.
  cbn [snd] in Hloop. rewrite firstn_all in Hloop.
  unfold log in *. cbn [trace with_trace] in *.
  rewrite !render_fb_calls_app, Hloop.
  rewrite !render_fb_calls_app, !render_fb_calls_icons.
  rewrite (render_fb_calls_none (fun r => [EvScissor r; EvClear 0 0 0 1]))
    by reflexivity.
  unfold set_stream. cbn [trace with_trace with_gl_names with_output_streams].
  rewrite !render_fb_calls_app. cbn [render_fb_calls].
  rewrite !app_nil_r. reflexivity.
Qed.

(** C4: the [render_fb] calls of [workspace_stream_update] are the records
    it collected front to back, taken in reverse: for the records
    [A; B; C] the calls are those for [C], [B], [A].  Each call hands over
    the surface of its record and that record's own damage. *)
Theorem workspace_stream_update_draws_reversed (s : render_manager)
    (idx : nat * nat) (scale_x_ scale_y_ : Q) :
  render_fb_calls (trace (workspace_stream_update s idx scale_x_ scale_y_))
  = render_fb_calls (trace s)
    ++ rev (map render_fb_call (stream_records s idx scale_x_ scale_y_))
  /\ (forall A B C,
        stream_records s idx scale_x_ scale_y_ = [A; B; C] ->
        render_fb_calls
          (trace (workspace_stream_update s idx scale_x_ scale_y_))
        = render_fb_calls (trace s)
          ++ [(surface C, ds_damage C); (surface B, ds_damage B);
              (surface A, ds_damage A)]).
Proof.
  pose proof (workspace_stream_update_calls s idx scale_x_ scale_y_) as H.
  split.
  - rewrite H, map_rev. reflexivity.
  - intros A B C E. rewrite H, E. reflexivity.
Qed.

(** C4 at work: three translucent surfaces, all damaged, are drawn back to
    front. *)
Lemma workspace_stream_update_draws_reversed_witness :
  record_ids (stream_records (ex_scene [] [] [] false) (0, 0)%nat 1 1)
  = [1%nat; 2%nat; 3%nat]
  /\ render_fb_calls
       (trace (workspace_stream_update (ex_scene [] [] [] false)
                                       (0, 0)%nat 1 1))
     = [(ex_surface 3 [], ex_full); (ex_surface 2 [], ex_full);
        (ex_surface 1 [], ex_full)].
Proof.
  split; [reflexivity|].
  destruct (workspace_stream_update_draws_reversed
              (ex_scene [] [] [] false) (0, 0)%nat 1 1) as [_ H].
  rewrite (H _ _ _ eq_refl). reflexivity.
Defined.

(** ** Workspace streams: occlusion *)

(** Nothing is scheduled once [ws_damage] is empty. *)
Lemma schedule_render_surface_empty (o : wayfire_output)
    (surf : wayfire_surface_t) (x y view_dx view_dy : Z)
    (st : schedule_state) :
  not_empty (fst st) = false ->
  schedule_render_surface o surf x y view_dx view_dy st = st.
Proof.
  destruct st as [d l]. cbn [fst]. intro H. unfold schedule_render_surface.
  rewrite H. now destruct (surface_mapped surf).
Qed.

Lemma schedule_surfaces_empty (o : wayfire_output)
    (l : list (wayfire_surface_t * Z * Z)) (view_dx view_dy : Z)
    (st : schedule_state) :
  not_empty (fst st) = false ->
  schedule_surfaces o l view_dx view_dy st = st.
Proof.
  intro H. unfold schedule_surfaces.
  induction l as [|[[surf x] y] l IH]; [reflexivity|].
  cbn [fold_left]. now rewrite schedule_render_surface_empty.
Qed.

Lemma schedule_views_empty (o : wayfire_output) (dx dy : Z)
    (vs : list wayfire_view_t) (st : schedule_state) :
  not_empty (fst st) = false -> schedule_views o dx dy vs st = st.
Proof. intro H. destruct vs; cbn [schedule_views]; now rewrite ?H. Qed.

(** Without a drag icon to attach, the icon loop schedules nothing. *)
Lemma schedule_icons_none (s : render_manager) (st : schedule_state) :
  icons_set_output s true = [] ->
  match renderer s with
  | None => schedule_icons (output s) st
  | Some _ => st
  end = st.
Proof.
  unfold icons_set_output, schedule_icons, mapped_icons.
  destruct (renderer s); [reflexivity|]. intro H.
  apply map_eq_nil in H.
  induction (drag_icons (output s)) as [|icon l IH]; [reflexivity|].
  cbn [filter] in H. cbn [fold_left].
  destruct (icon_mapped icon); [discriminate|]. cbn [negb]. now apply IH.
Qed.

(** An opaque surface whose rectangle and opaque region cover the damage
    takes all of it and leaves none. *)
Lemma schedule_render_surface_covering (o : wayfire_output)
    (A : wayfire_surface_t) (x y view_dx view_dy : Z) (wd : region32) :
  surface_mapped A = true ->
  Qle_bool OPAQUE_ALPHA (alpha A) = true ->
  not_empty wd = true ->
  let obox := get_output_box_from_box
                (mkWlrBox (x - view_dx) (y - view_dy)
                          (bwidth (output_geometry A))
                          (bheight (output_geometry A)))
                (scale (handle o)) in
  (forall px py, contains wd px py = true ->
     in_box px py (rect (bx obox) (by_ obox) (bwidth obox) (bheight obox))
     = true) ->
  (forall px py, contains wd px py = true ->
     contains (translate (opaque_region A) (x - view_dx) (y - view_dy)) px py
     = true) ->
  exists wd' d,
    schedule_render_surface o A x y view_dx view_dy (wd, [])
    = (wd', [mkDamaged A view_dx view_dy d])
    /\ not_empty wd' = false
    /\ (forall px py, contains d px py = contains wd px py).
Proof.
  intros Hm Ha Hne obox Hrect Hopq.
  set (d := intersect
              (init_rect (bx obox) (by_ obox) (bwidth obox) (bheight obox))
              wd).
  assert (Hd : forall px py, contains d px py = contains wd px py).
  { intros px py. subst d.
    rewrite contains_intersect, contains_init_rect.
    destruct (contains wd px py) eqn:E; [|apply andb_false_r].
    now rewrite (Hrect _ _ E). }
  assert (Hdne : not_empty d = true).
  { apply not_empty_iff in Hne. destruct Hne as [px [py Hp]].
    apply not_empty_iff. exists px, py. now rewrite Hd. }
  exists (subtract_opaque A wd (x - view_dx) (y - view_dy)), d.
  split; [|split; [|exact Hd]].
  - unfold schedule_render_surface. rewrite Hm, Hne. cbn [negb].
    fold obox. fold d. now rewrite Hdne, Ha.
  - apply empty_iff. intros px py. unfold subtract_opaque.
    rewrite contains_subtract.
    destruct (contains wd px py) eqn:E; [|reflexivity].
    now rewrite (Hopq _ _ E).
Qed.

Lemma stream_damage_not_empty (s : render_manager)
    (stream : wf_workspace_stream) (sx sy : Q) (dx dy : Z) (wd : region32) :
  stream_damage s stream sx sy = Some (dx, dy, wd) -> not_empty wd = true.
Proof.
  unfold stream_damage.
  destruct (ws stream) as [x y].
  destruct (current_workspace (workspace (output s))) as [cx cy].
  set (d0 := snd (get_ws_damage s (x, y) init)).
  destruct (not_empty d0) eqn:Hne; cbn [negb]; [|discriminate].
  intro H. injection H as _ _ <-.
  destruct (negb (Qeq_bool sx (scale_x stream))
            || negb (Qeq_bool sy (scale_y stream))); [|exact Hne].
  destruct (wlr_output_transformed_resolution (handle (output s))).
  apply not_empty_iff in Hne. destruct Hne as [px [py Hp]].
  apply not_empty_iff. exists px, py. unfold union_rect.
  now rewrite contains_union, Hp.
Qed.

(** C3, as the code has it: let the frontmost view of the workspace be
    visible, mapped and without transformer, let no drag icon be attached,
    and let its first surface [A] be mapped, of alpha at least 0.999, with
    a rectangle and an opaque region that both cover the workspace damage.
    Then [A]'s record is the only one collected, its damage is the
    workspace damage, and [render_fb] is called for [A] alone, whatever lies
    behind [A]. *)
Theorem opaque_front_surface_occludes (s : render_manager) (idx : nat * nat)
    (sx sy : Q) (stream : wf_workspace_stream) (dx dy : Z) (wd : region32)
    (vA : wayfire_view_t) (rest : list wayfire_view_t)
    (A : wayfire_surface_t) (x y : Z)
    (more : list (wayfire_surface_t * Z * Z)) :
  get_stream s idx = Some stream ->
  stream_damage s stream sx sy = Some (dx, dy, wd) ->
  icons_set_output s true = [] ->
  get_views_on_workspace (workspace (output s)) (ws stream) WF_ALL_LAYERS
  = vA :: rest ->
  view_visible vA = true ->
  has_transformer vA = false ->
  view_is_mapped vA = true ->
  for_each_surface vA = (A, x, y) :: more ->
  surface_mapped A = true ->
  Qle_bool OPAQUE_ALPHA (alpha A) = true ->
  let ax := x - fst (view_offset vA dx dy) in
  let ay := y - snd (view_offset vA dx dy) in
  let obox := get_output_box_from_box
                (mkWlrBox ax ay (bwidth (output_geometry A))
                          (bheight (output_geometry A)))
                (scale (handle (output s))) in
  (forall px py, contains wd px py = true ->
     in_box px py (rect (bx obox) (by_ obox) (bwidth obox) (bheight obox))
     = true) ->
  (forall px py, contains wd px py = true ->
     contains (translate (opaque_region A) ax ay) px py = true) ->
  exists d,
    stream_records s idx sx sy
    = [mkDamaged A (fst (view_offset vA dx dy)) (snd (view_offset vA dx dy))
                 d]
    /\ (forall px py, contains d px py = contains wd px py)
    /\ render_fb_calls (trace (workspace_stream_update s idx sx sy))
       = render_fb_calls (trace s) ++ [(A, d)].
Proof.
  intros Hst Hdmg Hicons Hviews Hvis Htr Hmap Hsurf HAm HAa ax ay obox
         Hrect Hopq.
  pose proof (stream_damage_not_empty _ _ _ _ _ _ _ Hdmg) as Hne.
  destruct (view_offset vA dx dy) as [vdx vdy] eqn:Hoff.
  cbn [fst snd] in *.
  destruct (schedule_render_surface_covering
              (output s) A x y vdx vdy wd HAm HAa Hne Hrect Hopq)
    as [wd' [d [Hsched [Hwd' Hd]]]].
  assert (Hrec : stream_records s idx sx sy = [mkDamaged A vdx vdy d]).
  { unfold stream_records. rewrite Hst, Hdmg. unfold collect_damaged.
    rewrite (schedule_icons_none s _ Hicons), Hviews.
    cbn [schedule_views fst]. rewrite Hne, Hvis, Hoff, Htr, Hmap.
    cbn [negb orb]. rewrite Hsurf. unfold schedule_surfaces.
    cbn [fold_left]. rewrite Hsched.
    fold (schedule_surfaces (output s) more vdx vdy
            (wd', [mkDamaged A vdx vdy d])).
    rewrite schedule_surfaces_empty by exact Hwd'.
    rewrite schedule_views_empty by exact Hwd'. reflexivity. }
  exists d. split; [exact Hrec|]. split; [exact Hd|].
  rewrite workspace_stream_update_calls, Hrec. reflexivity.
Qed.

(** C3 at work: the front view is opaque over the whole output; the opaque
    view and the translucent view behind it are not drawn. *)
Lemma opaque_front_surface_occludes_witness :
  exists d,
    stream_records (ex_scene ex_full ex_full [] false) (0, 0)%nat 1 1
    = [mkDamaged (ex_surface 1 ex_full) 0 0 d]
    /\ (forall px py, contains d px py = contains ex_full px py)
    /\ render_fb_calls
         (trace (workspace_stream_update
                   (ex_scene ex_full ex_full [] false) (0, 0)%nat 1 1))
       = render_fb_calls (trace (ex_scene ex_full ex_full [] false))
         ++ [(ex_surface 1 ex_full, d)].
Proof.
  assert (Hcover : forall px py,
             contains ex_full px py = true ->
             in_box px py (rect 0 0 200 100) = true).
  { intros px py H. unfold contains, ex_full in H. cbn [existsb] in H.
    now rewrite orb_false_r in H. }
  apply (opaque_front_surface_occludes
           (ex_scene ex_full ex_full [] false) (0, 0)%nat 1 1
           (mkStream (0, 0) (mkFb 0 0 0 0) false 1 1) 0 0 ex_full
           (ex_view 1 ex_full false)
           [ex_view 2 ex_full false; ex_view 3 [] false]
           (ex_surface 1 ex_full) 0 0 []);
    try reflexivity.
  - exact Hcover.
  - intros px py H. rewrite contains_translate.
    change (contains ex_full (px - (0 - 0)) (py - (0 - 0)) = true).
    replace (px - (0 - 0)) with px by lia.
    replace (py - (0 - 0)) with py by lia. exact H.
Defined.

(** C3 as stated fails.  In each scene the front surface of the view list
    has alpha 1 and a rectangle that covers the damage.  In the first the
    front view carries a transformer: it is drawn from its snapshot,
    nothing is subtracted, and the view behind is drawn too.  In the second
    no surface has an opaque region: all three are drawn.  In the third a
    drag icon, which is in no view list, is scheduled before the views and
    drawn as well.  In the fourth nothing is damaged and nothing is drawn,
    the front surface included. *)
Lemma opaque_alpha_alone_does_not_occlude :
  Qle_bool OPAQUE_ALPHA (alpha (ex_surface 1 ex_full)) = true
  /\ output_geometry (ex_surface 1 ex_full) = mkWlrBox 0 0 200 100
  /\ stream_damage (ex_scene ex_full ex_full ex_full true)
       (mkStream (0, 0) (mkFb 0 0 0 0) false 1 1) 1 1
     = Some (0, 0, ex_full)
  /\ record_ids
       (stream_records (ex_scene ex_full ex_full ex_full true)
                       (0, 0)%nat 1 1)
     = [1%nat; 2%nat]
  /\ record_ids (stream_records (ex_scene [] [] [] false) (0, 0)%nat 1 1)
     = [1%nat; 2%nat; 3%nat]
  /\ record_ids (stream_records ex_scene_with_icon (0, 0)%nat 1 1)
     = [9%nat; 1%nat]
  /\ record_ids (stream_records ex_scene_undamaged (0, 0)%nat 1 1) = [].
Proof. repeat split. Qed.

(** ** The post-effect chain *)

Lemma list_snoc_cases {A} (l : list A) :
  l = [] \/ exists l0 x, l = l0 ++ [x].
Proof.
  induction l as [|x l _] using rev_ind; [now left|].
  right. now exists l, x.
Qed.

Lemma update_back_snoc {A} (f : A -> A) (l : list A) (x : A) :
  update_back f (l ++ [x]) = l ++ [f x].
Proof.
  induction l as [|y l IH]; [reflexivity|].
  cbn [app update_back]. rewrite IH.
  destruct (l ++ [x]) eqn:E; [now destruct l | reflexivity].
Qed.

Lemma last_snoc {A} (l : list A) (x d : A) : last (l ++ [x]) d = x.
Proof. apply last_last. Qed.

Lemma last_head {A} (r : list A) (p d : A) : last (p :: r) d = last r p.
Proof.
  revert p d. induction r as [|y r IH]; intros p d; [reflexivity|].
  change (last (p :: y :: r) d) with (last (y :: r) d).
  now rewrite !IH.
Qed.

Lemma terminal_zero_snoc (l : list wf_post_effect) (x : wf_post_effect) :
  terminal_zero (l ++ [x]) <-> fb (buffer x) = 0 /\ tex (buffer x) = 0.
Proof.
  unfold terminal_zero. destruct (l ++ [x]) as [|p r] eqn:E.
  - now destruct l.
  - rewrite <- (last_head r p p), <- E, last_snoc. reflexivity.
Qed.

(** [damage] touches the damage accumulator and the trace only. *)
Lemma damage_chain (s : render_manager) (r : option region32) :
  post_effects (damage s r) = post_effects s
  /\ gl_names (damage s r) = gl_names s
  /\ default_buffer (damage s r) = default_buffer s
  /\ heap_next (damage s r) = heap_next s
  /\ output (damage s r) = output s.
Proof.
  unfold damage, od_add, od_add_region, od_add_box, schedule_repaint, log.
  destruct (destroyed (output s)); [now repeat split|].
  destruct r; [now repeat split|].
  now destruct (wlr_output_transformed_resolution (handle (output s))).
Qed.

Lemma set_back_buffer_chain (s : render_manager) (b : wf_framebuffer_base) :
  post_effects (set_back_buffer s b)
  = update_back (fun p => set_buffer p b) (post_effects s)
  /\ gl_names (set_back_buffer s b) = gl_names s
  /\ heap_next (set_back_buffer s b) = heap_next s
  /\ output (set_back_buffer s b) = output s.
Proof.
  unfold set_back_buffer. destruct (post_effects s) eqn:E.
  - cbn. now rewrite E.
  - now repeat split.
Qed.

Lemma fb_allocate_reset (b : wf_framebuffer_base) (w h gl : Z) :
  fb_allocate (fb_reset b) w h gl = (mkFb gl (gl + 1) w h, gl + 2).
Proof.
  replace (gl + 2) with (gl + 1 + 1) by lia. reflexivity.
Qed.

Lemma fb_allocate_display (vw vh w h gl : Z) :
  fb_allocate (mkFb 0 0 vw vh) w h gl = (mkFb 0 0 w h, gl).
Proof. reflexivity. Qed.

(** [fb_allocate] keeps a display target a display target and real ids
    real, and never lowers the next GL name. *)
Lemma fb_allocate_ids (b : wf_framebuffer_base) (w h gl : Z) :
  0 < gl -> buffer_ids_ok b ->
  buffer_ids_ok (fst (fb_allocate b w h gl))
  /\ (fb b = 0 /\ tex b = 0 ->
      fb (fst (fb_allocate b w h gl)) = 0
      /\ tex (fst (fb_allocate b w h gl)) = 0)
  /\ gl <= snd (fb_allocate b w h gl).
Proof.
  intros Hgl Hok. unfold fb_allocate, buffer_ids_ok in *.
  destruct (fb b =? NO_ID) eqn:Ef; destruct (tex b =? NO_ID) eqn:Et;
    cbn [fst snd fb tex];
    try apply Z.eqb_eq in Ef; try apply Z.eqb_eq in Et;
    unfold NO_ID in *; repeat split; try lia.
Qed.

(** What [add_post] makes of the chain: the entry that was last gets a
    buffer with the two names the GL context hands out next, and a new
    entry for the hook, targeting the display, is appended. *)
Lemma add_post_chain (s : render_manager) (h : post_hook_t) :
  post_effects (add_post s h)
  = update_back
      (fun p => set_buffer p
                  (mkFb (gl_names s) (gl_names s + 1)
                        (width (handle (output s)))
                        (height (handle (output s)))))
      (post_effects s)
    ++ [mkPost (heap_next s) h false
               (mkFb 0 0 (width (handle (output s)))
                     (height (handle (output s))))]
  /\ gl_names (add_post s h) = gl_names s + 2.
Proof.
  unfold add_post. rewrite fb_allocate_reset.
  set (b := mkFb (gl_names s) (gl_names s + 1) _ _).
  set (s1 := with_gl_names (set_back_buffer s b) (gl_names s + 2)).
  destruct (damage_chain s1 None) as [Hp [Hg [_ [Hh Ho]]]].
  destruct (set_back_buffer_chain s b) as [Hp' [_ [Hh' Ho']]].
  cbn [with_heap_next gl_names]. rewrite Hg.
  subst s1. cbn [with_gl_names gl_names] in *.
  rewrite fb_allocate_display.
  cbn [post_effects with_post_effects with_gl_names with_heap_next gl_names].
  rewrite Hp, Hh. cbn [post_effects heap_next with_gl_names].
  now rewrite Hp', Hh'.
Qed.

Lemma update_back_Forall {A} (P : A -> Prop) (f : A -> A) (l : list A) :
  (forall x, P (f x)) -> Forall P l -> Forall P (update_back f l).
Proof.
  intros Hf H. destruct (list_snoc_cases l) as [-> | [l0 [x ->]]].
  - constructor.
  - rewrite update_back_snoc. apply Forall_app in H. destruct H as [H0 _].
    apply Forall_app. split; [exact H0|]. constructor; [apply Hf|constructor].
Qed.

(** [add_post] keeps the chain in a good state. *)
Lemma add_post_chain_ok (s : render_manager) (h : post_hook_t) :
  chain_ok s -> chain_ok (add_post s h).
Proof.
  intros [Hgl [Hall _]]. destruct (add_post_chain s h) as [Hp Hg].
  unfold chain_ok. rewrite Hp, Hg. split; [lia|]. split.
  - apply Forall_app. split.
    + apply update_back_Forall; [|exact Hall].
      intro x. right. cbn. lia.
    + constructor; [|constructor]. left. now cbn.
  - apply terminal_zero_snoc. now cbn.
Qed.

(** The erase loop keeps the entries whose address differs. *)
Lemma rem_post_loop_filter (post : nat) (l : list wf_post_effect) :
  fst (rem_post_loop post l)
  = filter (fun p => negb (Nat.eqb (post_addr p) post)) l.
Proof.
  induction l as [|p r IH]; [reflexivity|].
  cbn [rem_post_loop filter]. destruct (rem_post_loop post r) as [r' ev].
  cbn [fst] in IH. destruct (Nat.eqb (post_addr p) post); cbn [negb fst].
  - exact IH.
  - now rewrite IH.
Qed.

Lemma rem_post_loop_eq (post : nat) (l : list wf_post_effect) :
  rem_post_loop post l
  = (fst (rem_post_loop post l), snd (rem_post_loop post l)).
Proof. now destruct (rem_post_loop post l). Qed.

Lemma back_buffer_snoc (s : render_manager) (l0 : list wf_post_effect)
    (x : wf_post_effect) :
  post_effects s = l0 ++ [x] -> back_buffer s = buffer x.
Proof.
  intro E. unfold back_buffer. destruct (post_effects s) as [|p r].
  - now destruct l0.
  - now rewrite <- (last_head r p p), E, last_snoc.
Qed.

Lemma set_back_buffer_snoc (s : render_manager) (l0 : list wf_post_effect)
    (x : wf_post_effect) (b : wf_framebuffer_base) :
  post_effects s = l0 ++ [x] ->
  post_effects (set_back_buffer s b) = l0 ++ [set_buffer x b].
Proof.
  intro E. destruct (set_back_buffer_chain s b) as [H _].
  now rewrite H, E, update_back_snoc.
Qed.

Lemma set_back_buffer_nil (s : render_manager) (b : wf_framebuffer_base) :
  post_effects s = [] -> post_effects (set_back_buffer s b) = [].
Proof.
  intro E. destruct (set_back_buffer_chain s b) as [H _]. now rewrite H, E.
Qed.

(** What [_rem_post] makes of the chain: the entries at the address are
    gone, and the entry that is last afterwards gives up a real buffer for
    the display target. *)
Lemma _rem_post_chain (s : render_manager) (post : nat) :
  let l := filter (fun p => negb (Nat.eqb (post_addr p) post))
                  (post_effects s) in
  gl_names (_rem_post s post) = gl_names s
  /\ ((l = [] /\ post_effects (_rem_post s post) = [])
      \/ exists l0 x,
           l = l0 ++ [x]
           /\ post_effects (_rem_post s post)
              = l0 ++ [if negb (fb (buffer x) =? 0)
                       then set_buffer x (mkFb 0 0 0 0) else x]).
Proof.
  intro l. unfold _rem_post. rewrite rem_post_loop_eq, rem_post_loop_filter.
  fold l.
  set (s1 := with_trace (with_post_effects s l) _).
  assert (Hs1 : post_effects s1 = l) by reflexivity.
  destruct (damage_chain
              (if negb (fb (back_buffer s1) =? 0)
               then set_back_buffer (log (EvGLDelete (back_buffer s1)) s1)
                      (mkFb 0 0 0 0)
               else s1) None) as [Hp [Hg _]].
  change (post_effects (_ : render_manager)) with
    (post_effects (damage
       (if negb (fb (back_buffer s1) =? 0)
        then set_back_buffer (log (EvGLDelete (back_buffer s1)) s1)
               (mkFb 0 0 0 0)
        else s1) None)).
  change (gl_names (_ : render_manager)) with
    (gl_names (damage
       (if negb (fb (back_buffer s1) =? 0)
        then set_back_buffer (log (EvGLDelete (back_buffer s1)) s1)
               (mkFb 0 0 0 0)
        else s1) None)) at 1.
  rewrite Hp, Hg. split.
  - destruct (negb (fb (back_buffer s1) =? 0)); [|reflexivity].
    now destruct (set_back_buffer_chain
                    (log (EvGLDelete (back_buffer s1)) s1) (mkFb 0 0 0 0))
      as [_ [-> _]].
  - destruct (list_snoc_cases l) as [El | [l0 [x El]]].
    + left. split; [exact El|].
      destruct (negb (fb (back_buffer s1) =? 0)).
      * apply set_back_buffer_nil. cbn [log post_effects with_trace].
        now rewrite Hs1.
      * now rewrite Hs1.
    + right. exists l0, x. split; [exact El|].
      rewrite (back_buffer_snoc s1 l0 x) by now rewrite Hs1.
      destruct (negb (fb (buffer x) =? 0)).
      * apply set_back_buffer_snoc. now rewrite <- El.
      * now rewrite Hs1.
Qed.

(** [_rem_post] leaves a chain whose last entry targets the display. *)
Lemma _rem_post_chain_ok (s : render_manager) (post : nat) :
  0 < gl_names s ->
  Forall (fun p => buffer_ids_ok (buffer p)) (post_effects s) ->
  chain_ok (_rem_post s post).
Proof.
  intros Hgl Hall. destruct (_rem_post_chain s post) as [Hg Hp].
  assert (Hl : Forall (fun p => buffer_ids_ok (buffer p))
                 (filter (fun p => negb (Nat.eqb (post_addr p) post))
                         (post_effects s))).
  { apply Forall_forall. intros p Hp'. apply filter_In in Hp'.
    rewrite Forall_forall in Hall. apply Hall. tauto. }
  unfold chain_ok. rewrite Hg. split; [exact Hgl|].
  destruct Hp as [[_ ->] | [l0 [x [El ->]]]].
  - split; constructor.
  - rewrite El in Hl. apply Forall_app in Hl. destruct Hl as [H0 Hx].
    inversion Hx as [|? ? Hok _]; subst.
    rewrite terminal_zero_snoc.
    destruct (negb (fb (buffer x) =? 0)) eqn:Hfb.
    + split; [|now cbn]. apply Forall_app. split; [exact H0|].
      constructor; [|constructor]. left. now cbn.
    + split; [apply Forall_app; split; [exact H0 | exact Hx]|].
      apply negb_false_iff, Z.eqb_eq in Hfb.
      destruct Hok as [[_ Ht] | [Hf _]]; [now split | contradiction].
Qed.

Lemma cleanup_loop_chain_ok (l : list wf_post_effect) (s : render_manager) :
  chain_ok s ->
  chain_ok (fold_left (fun s post => _rem_post s (post_addr post)) l s).
Proof.
  revert s. induction l as [|p l IH]; intros s H; [exact H|].
  cbn [fold_left]. apply IH. destruct H as [Hgl [Hall _]].
  now apply _rem_post_chain_ok.
Qed.

(** [cleanup_post_hooks] keeps the chain in a good state. *)
Lemma cleanup_post_hooks_chain_ok (s : render_manager) :
  chain_ok s -> chain_ok (cleanup_post_hooks s).
Proof. apply cleanup_loop_chain_ok. Qed.

Lemma terminal_zero_map (f : wf_post_effect -> wf_post_effect)
    (l : list wf_post_effect) :
  (forall p, buffer (f p) = buffer p) ->
  terminal_zero l -> terminal_zero (map f l).
Proof.
  intros Hf H. destruct (list_snoc_cases l) as [-> | [l0 [x ->]]].
  - exact I.
  - rewrite map_app. cbn [map]. apply terminal_zero_snoc.
    apply terminal_zero_snoc in H. now rewrite Hf.
Qed.

(** [rem_post] only marks entries. *)
Lemma rem_post_chain_ok (s : render_manager) (h : post_hook_t) :
  chain_ok s -> chain_ok (rem_post s h).
Proof.
  intros [Hgl [Hall Hterm]]. unfold rem_post.
  match goal with
  | |- chain_ok (damage ?s1 None) =>
      destruct (damage_chain s1 None) as [Hp [Hg _]]
  end.
  unfold chain_ok. rewrite Hp, Hg.
  cbn [post_effects with_post_effects gl_names].
  assert (Hbuf : forall p,
             buffer (if Nat.eqb (hook p) h then set_to_remove p true else p)
             = buffer p)
    by (intro p; now destruct (Nat.eqb (hook p) h)).
  split; [exact Hgl|]. split.
  - apply Forall_forall. intros p Hin. apply in_map_iff in Hin.
    destruct Hin as [q [<- Hq]]. rewrite Hbuf.
    rewrite Forall_forall in Hall. now apply Hall.
  - now apply terminal_zero_map.
Qed.

(** A new manager has an empty chain. *)
Lemma render_manager_new_chain_ok (o : wayfire_output)
    (cfg : runtime_config_t) (dm : wlr_output_damage) (gl : Z) :
  0 < gl -> chain_ok (render_manager_new o cfg dm gl).
Proof.
  intro Hgl. unfold render_manager_new, schedule_redraw, od_add.
  cbn [output handle].
  destruct (wlr_output_transformed_resolution (handle o)).
  repeat split; try exact Hgl; constructor.
Qed.

(** From a good chain: the last entry targets the display after [add_post]
    and after [cleanup_post_hooks]; [add_post] hands the entry that was last
    the next two GL names. *)
Lemma post_chain_terminal_from_ok (s : render_manager) (h : post_hook_t) :
  chain_ok s ->
  terminal_zero (post_effects (add_post s h))
  /\ (forall l0 x,
        post_effects s = l0 ++ [x] ->
        exists x' new_,
          post_effects (add_post s h) = l0 ++ [x'; new_]
          /\ hook x' = hook x
          /\ fb (buffer x') = gl_names s /\ tex (buffer x') = gl_names s + 1
          /\ fb (buffer x') <> 0 /\ tex (buffer x') <> 0
          /\ hook new_ = h
          /\ fb (buffer new_) = 0 /\ tex (buffer new_) = 0)
  /\ terminal_zero (post_effects (cleanup_post_hooks (rem_post s h)))
  /\ terminal_zero (post_effects (cleanup_post_hooks s)).
Proof.
  intro Hok.
  pose proof (add_post_chain_ok s h Hok) as Hadd.
  pose proof (rem_post_chain_ok s h Hok) as Hrem.
  pose proof (cleanup_post_hooks_chain_ok s Hok) as Hcl.
  pose proof (cleanup_post_hooks_chain_ok _ Hrem) as Hcr.
  split; [apply Hadd|]. split.
  - intros l0 x E. destruct (add_post_chain s h) as [Hp _].
    rewrite E, update_back_snoc, <- app_assoc in Hp.
    eexists. eexists. split; [exact Hp|].
    destruct Hok as [Hgl _]. cbn. repeat split; lia.
  - split; [apply Hcr | apply Hcl].
Qed.

(** ** The chain in every state the manager reaches *)

Lemma keeps_chain_refl (s : render_manager) : keeps_chain s s.
Proof. split; [reflexivity | lia]. Qed.

Lemma keeps_chain_same (s s' : render_manager) :
  post_effects s' = post_effects s -> gl_names s' = gl_names s ->
  keeps_chain s s'.
Proof. intros H G. split; [exact H | lia]. Qed.

Ltac keeps_eq := apply keeps_chain_same; reflexivity.

Lemma keeps_chain_trans (s1 s2 s3 : render_manager) :
  keeps_chain s1 s2 -> keeps_chain s2 s3 -> keeps_chain s1 s3.
Proof. intros [H1 G1] [H2 G2]. split; [congruence | lia]. Qed.

Lemma chain_ok_keeps (s s' : render_manager) :
  keeps_chain s s' -> chain_ok s -> chain_ok s'.
Proof.
  intros [Hp Hg] [Hgl [Hall Ht]]. unfold chain_ok. rewrite Hp.
  repeat split; try assumption. lia.
Qed.

Lemma log_keeps (e : event) (s : render_manager) : keeps_chain s (log e s).
Proof. keeps_eq. Qed.

Lemma damage_keeps (s : render_manager) (r : option region32) :
  keeps_chain s (damage s r).
Proof.
  destruct (damage_chain s r) as [Hp [Hg _]]. split; [exact Hp | lia].
Qed.

Lemma damage_box_keeps (s : render_manager) (b : wlr_box) :
  keeps_chain s (damage_box s b).
Proof.
  unfold damage_box. destruct (negb (destroyed (output s)));
    keeps_eq.
Qed.

Lemma schedule_redraw_keeps (s : render_manager) :
  keeps_chain s (schedule_redraw s).
Proof.
  unfold schedule_redraw.
  destruct (negb (idle_redraw_source (log EvScheduleRedraw s)));
    keeps_eq.
Qed.

Lemma auto_redraw_keeps (s : render_manager) (redraw : bool) :
  keeps_chain s (auto_redraw s redraw).
Proof.
  unfold auto_redraw. set (s1 := with_constant_redraw s _).
  destruct (constant_redraw s1 >? 1); [keeps_eq|].
  destruct (constant_redraw s1 <? 0); [keeps_eq|].
  eapply keeps_chain_trans; [|apply schedule_redraw_keeps]. keeps_eq.
Qed.

Lemma add_inhibit_keeps (s : render_manager) (add : bool) :
  keeps_chain s (add_inhibit s add).
Proof.
  unfold add_inhibit.
  match goal with
  | |- context [if ?c then _ else _] => destruct c
  end; [|keeps_eq].
  eapply keeps_chain_trans; [|apply log_keeps].
  eapply keeps_chain_trans; [|apply damage_keeps].
  keeps_eq.
Qed.

Lemma reset_renderer_keeps (s : render_manager) :
  keeps_chain s (reset_renderer s).
Proof.
  unfold reset_renderer.
  destruct (negb (idle_damage_source (with_renderer s None)));
    keeps_eq.
Qed.

(** Every call of the interface leads from a good chain to a good chain. *)
Lemma do_call_chain_ok (s : render_manager) (c : rm_call) :
  chain_ok s -> chain_ok (do_call s c).
Proof.
  intro H. destruct c; cbn [do_call].
  - exact (chain_ok_keeps _ _ (damage_box_keeps s b) H).
  - exact (chain_ok_keeps _ _ (damage_keeps s r) H).
  - exact H.
  - exact H.
  - now apply add_post_chain_ok.
  - now apply rem_post_chain_ok.
  - exact (chain_ok_keeps _ _ (auto_redraw_keeps s redraw) H).
  - exact (chain_ok_keeps _ _ (add_inhibit_keeps s add) H).
  - exact H.
  - exact (chain_ok_keeps _ _ (reset_renderer_keeps s) H).
Qed.

Lemma fb_allocate_mono (b : wf_framebuffer_base) (w h gl : Z) :
  gl <= snd (fb_allocate b w h gl).
Proof.
  unfold fb_allocate.
  destruct (fb b =? NO_ID); destruct (tex b =? NO_ID); cbn [snd]; lia.
Qed.

Lemma render_loop_keeps (n : nat) (to_render : list damaged_surface_t) :
  forall (target : wf_framebuffer) (s : render_manager),
  keeps_chain s (snd (render_loop n to_render target s)).
Proof.
  induction n as [|k IH]; intros target s; [keeps_eq|].
  cbn [render_loop]. destruct (nth_error to_render k) as [ds|].
  - eapply keeps_chain_trans; [|apply IH]. apply log_keeps.
  - keeps_eq.
Qed.

Lemma workspace_stream_update_keeps (s : render_manager) (idx : nat * nat)
    (sx sy : Q) :
  keeps_chain s (workspace_stream_update s idx sx sy).
Proof.
  unfold workspace_stream_update.
  destruct (get_stream s idx) as [stream|]; [|keeps_eq].
  destruct (ws stream) as [x y].
  destruct (current_workspace (workspace (output s))) as [cx cy].
  rewrite get_ws_damage_state.
  destruct (negb (not_empty (snd (get_ws_damage s (x, y) init))));
    [keeps_eq|].
  cbn [output log with_trace].
  match goal with
  | |- context [fb_allocate ?b ?w ?h ?g] =>
      pose proof (fb_allocate_mono b w h g) as Hm;
      destruct (fb_allocate b w h g) as [b' gl']
  end.
  cbn [snd gl_names with_trace] in Hm.
  match goal with
  | |- context [collect_damaged ?s' ?w ?dx ?dy ?d] =>
      destruct (collect_damaged s' w dx dy d) as [d2 to_render]
  end.
  match goal with
  | |- context [render_loop ?n ?l ?t ?s'] =>
      pose proof (render_loop_keeps n l t s') as Hk;
      destruct (render_loop n l t s') as [target' s'']
  end.
  cbn [snd] in Hk. destruct Hk as [Hp Hg].
  unfold set_stream, log in *.
  cbn [post_effects gl_names with_trace with_gl_names with_output_streams]
    in *.
  split; cbn [post_effects gl_names with_trace]; [exact Hp | lia].
Qed.

Lemma workspace_stream_start_keeps (s : render_manager) (idx : nat * nat) :
  keeps_chain s (workspace_stream_start s idx).
Proof.
  unfold workspace_stream_start.
  destruct (get_stream s idx) as [stream|]; [|keeps_eq].
  destruct (ws stream) as [vx vy].
  cbn [output set_stream with_output_streams].
  destruct (current_workspace (workspace (output s))) as [cx cy].
  destruct (wlr_output_transformed_resolution (handle (output s))).
  eapply keeps_chain_trans; [|apply workspace_stream_update_keeps].
  keeps_eq.
Qed.

Lemma workspace_stream_stop_keeps (s : render_manager) (idx : nat * nat) :
  keeps_chain s (workspace_stream_stop s idx).
Proof.
  unfold workspace_stream_stop.
  destruct (get_stream s idx); keeps_eq.
Qed.

Lemma make_current_keeps (s : render_manager) (out_damage : region32) :
  keeps_chain s (snd (make_current s out_damage)).
Proof.
  destruct (context_ok (damage_manager (output_damage s))) eqn:E.
  - rewrite make_current_ok by exact E. keeps_eq.
  - rewrite make_current_failed by exact E. keeps_eq.
Qed.

Lemma terminal_zero_tail (p q : wf_post_effect) (l : list wf_post_effect) :
  terminal_zero (p :: q :: l) <-> terminal_zero (q :: l).
Proof. unfold terminal_zero. now rewrite (last_head l q p). Qed.

(** The pass over the chain in [paint] keeps display targets and real ids
    as they are. *)
Lemma post_chain_ok (w h : Z) (l : list wf_post_effect) :
  forall (last_buffer : wf_framebuffer_base) (gl : Z),
  0 < gl ->
  Forall (fun p => buffer_ids_ok (buffer p)) l ->
  terminal_zero l ->
  let r := post_chain w h last_buffer l gl in
  Forall (fun p => buffer_ids_ok (buffer p)) (fst (fst r))
  /\ terminal_zero (fst (fst r))
  /\ gl <= snd r
  /\ length (fst (fst r)) = length l.
Proof.
  induction l as [|p l IH]; intros last_buffer gl Hgl Hall Ht.
  - cbn. repeat split; try constructor. lia.
  - cbn [post_chain].
    inversion Hall as [|? ? Hp Hl]; subst.
    destruct (fb_allocate_ids (buffer p) w h gl Hgl Hp) as [Hok [Hz Hm]].
    destruct (fb_allocate (buffer p) w h gl) as [b gl1].
    cbn [fst snd] in Hok, Hz, Hm.
    assert (Ht' : terminal_zero l).
    { destruct l as [|q l']; [exact I|]. now apply terminal_zero_tail in Ht. }
    assert (Hgl1 : 0 < gl1) by lia.
    specialize (IH b gl1 Hgl1 Hl Ht'). cbv zeta in IH.
    destruct (post_chain w h b l gl1) as [[r' ev] gl2].
    cbn [fst snd] in *. destruct IH as [IH1 [IH2 [IH3 IH4]]].
    split; [|split; [|split]].
    + constructor; [exact Hok | exact IH1].
    + destruct r' as [|q r'].
      * destruct l; [|discriminate]. cbn. apply Hz. exact Ht.
      * now apply terminal_zero_tail.
    + lia.
    + cbn. now rewrite IH4.
Qed.

Section ChainInvariant.

Variable hook_body : effect_hook_t -> list rm_call.

Lemma do_calls_chain_ok (cs : list rm_call) (s : render_manager) :
  chain_ok s -> chain_ok (fold_left do_call cs s).
Proof.
  revert s. induction cs as [|c cs IH]; intros s H; [exact H|].
  cbn [fold_left]. apply IH. now apply do_call_chain_ok.
Qed.

Lemma run_effects_chain_ok (s : render_manager)
    (type : wf_output_effect_type) :
  chain_ok s -> chain_ok (run_effects hook_body s type).
Proof.
  unfold run_effects.
  generalize (fold_left (fun acc effect => acc ++ [effect])
                        (effects_of (effects s) type) []).
  intro l. revert s. induction l as [|e l IH]; intros s H; [exact H|].
  cbn [fold_left]. apply IH. apply do_calls_chain_ok.
  exact (chain_ok_keeps _ _ (log_keeps _ s) H).
Qed.

Lemma post_paint_chain_ok (s : render_manager) :
  chain_ok s -> chain_ok (post_paint hook_body s).
Proof.
  intro H. unfold post_paint.
  set (s1 := run_effects hook_body (cleanup_post_hooks s)
                         WF_OUTPUT_EFFECT_POST).
  assert (H1 : chain_ok s1)
    by (apply run_effects_chain_ok, cleanup_post_hooks_chain_ok, H).
  clearbody s1.
  set (s2 := if negb (constant_redraw s1 =? 0) then schedule_redraw s1
             else s1).
  assert (H2 : chain_ok s2).
  { subst s2. destruct (negb (constant_redraw s1 =? 0)); [|exact H1].
    exact (chain_ok_keeps _ _ (schedule_redraw_keeps s1) H1). }
  clearbody s2.
  destruct (renderer s2); (eapply chain_ok_keeps; [|exact H2]); keeps_eq.
Qed.

Lemma paint_streams_keeps (s : render_manager) (swap_damage : region32) :
  keeps_chain s (fst (paint_streams s swap_damage)).
Proof.
  unfold paint_streams.
  destruct (wlr_output_transformed_resolution (handle (output s))) as [w h].
  set (s1 := with_frame_damage s _).
  destruct (not_empty (frame_damage s1)); [|keeps_eq].
  destruct (current_workspace (workspace (output s1))) as [vx vy].
  match goal with
  | |- context [if negb ?c then _ else _] => destruct c
  end; cbn [negb fst].
  - eapply keeps_chain_trans; [|apply workspace_stream_update_keeps].
    keeps_eq.
  - eapply keeps_chain_trans; [|apply workspace_stream_start_keeps].
    destruct (current_ws_stream s1) as [c|].
    + eapply keeps_chain_trans; [apply (workspace_stream_stop_keeps s1 c)|].
      keeps_eq.
    + keeps_eq.
Qed.

Lemma paint_frame_chain_ok (s : render_manager) :
  chain_ok s -> chain_ok (paint_frame hook_body s).
Proof.
  intro H. unfold paint_frame.
  match goal with
  | |- context [fb_allocate ?b ?w ?h ?g] =>
      pose proof (fb_allocate_mono b w h g) as Hm;
      destruct (fb_allocate b w h g) as [b0 gl0]
  end.
  cbn [snd] in Hm.
  set (s1 := log EvRenderEnd _).
  assert (H1 : chain_ok s1).
  { apply (chain_ok_keeps s); [|exact H]. split; [reflexivity | exact Hm]. }
  clearbody s1.
  set (W := width (handle (output s))). set (Hh := height (handle (output s))).
  clearbody W Hh. clear H Hm.
  set (p1 := if damage_debug (runtime_config s1) then _ else _).
  assert (H2 : chain_ok (fst p1)).
  { subst p1. destruct (damage_debug (runtime_config s1)); cbn [fst];
      [|exact H1]. eapply chain_ok_keeps; [|exact H1]. keeps_eq. }
  destruct p1 as [s2 swap2]. cbn [fst] in H2. clear H1 s1.
  set (p2 := match renderer s2 with Some _ => _ | None => _ end).
  assert (H3 : chain_ok (fst p2)).
  { subst p2. destruct (renderer s2); cbn [fst].
    - eapply chain_ok_keeps; [|exact H2]. keeps_eq.
    - exact (chain_ok_keeps _ _ (paint_streams_keeps s2 swap2) H2). }
  destruct p2 as [s3 swap3]. cbn [fst] in H3. clear H2 s2.
  set (s4 := run_effects hook_body s3 WF_OUTPUT_EFFECT_OVERLAY).
  assert (H4 : chain_ok s4) by (apply run_effects_chain_ok, H3).
  clearbody s4. clear H3 s3.
  set (swap4 := match post_effects s4 with [] => swap3 | _ => _ end).
  clearbody swap4.
  set (s5 := log EvRenderEnd (log (EvSoftwareCursors swap4)
                                  (log EvRenderBegin s4))).
  assert (H5 : chain_ok s5)
    by (eapply chain_ok_keeps; [|exact H4]; keeps_eq).
  clearbody s5. clear H4 s4.
  set (s6 := match post_effects s5 with [] => s5 | _ => _ end).
  assert (H6 : chain_ok s6).
  { subst s6. destruct (post_effects s5) as [|p r] eqn:E; [exact H5|].
    destruct H5 as [Hgl [Hall Ht]]. rewrite E in Hall, Ht.
    pose proof (post_chain_ok W Hh (p :: r) (default_buffer s5)
                  (gl_names s5) Hgl Hall Ht) as Hc.
    cbv zeta in Hc.
    destruct (post_chain W Hh (default_buffer s5) (p :: r) (gl_names s5))
      as [[l0 ev] gl].
    cbn [fst snd] in Hc. destruct Hc as [Hc1 [Hc2 [Hc3 _]]].
    unfold chain_ok. cbn [post_effects gl_names with_trace with_gl_names
                          with_post_effects].
    split; [lia|]. split; assumption. }
  clearbody s6. clear H5 s5.
  apply post_paint_chain_ok.
  eapply chain_ok_keeps; [|exact H6].
  unfold swap_buffers.
  destruct (negb (output_inhibit s6 =? 0)); keeps_eq.
Qed.

Lemma paint_chain_ok (s : render_manager) :
  chain_ok s -> chain_ok (paint hook_body s).
Proof.
  intro H. unfold paint.
  set (s1 := paint_prepare hook_body s).
  assert (H1 : chain_ok s1).
  { subst s1. unfold paint_prepare. apply run_effects_chain_ok.
    eapply chain_ok_keeps;
      [|exact (cleanup_post_hooks_chain_ok s H)]. keeps_eq. }
  clearbody s1.
  pose proof (make_current_keeps s1 (frame_damage s1)) as Hk.
  destruct (make_current s1 (frame_damage s1)) as [[[r needs_swap] out] s2].
  cbn [snd] in Hk.
  assert (H2 : chain_ok (with_frame_damage s2 out)).
  { eapply chain_ok_keeps; [|exact (chain_ok_keeps _ _ Hk H1)]. keeps_eq. }
  destruct (negb r); [exact H2|].
  destruct (negb needs_swap
            && (constant_redraw (with_frame_damage s2 out) =? 0)).
  - now apply post_paint_chain_ok.
  - now apply paint_frame_chain_ok.
Qed.

(** In every state the manager reaches, the post chain is in a good state:
    its last entry, if there is one, targets the display. *)
Lemma reachable_chain_ok (s : render_manager) :
  reachable hook_body s -> chain_ok s.
Proof.
  induction 1 as [o cfg dm gl Hgl | s c _ IH | s _ IH | s _ IH | s _ IH
                  | s idx _ IH | s idx sx sy _ IH | s idx _ IH
                  | s o cfg dm _ IH].
  - now apply render_manager_new_chain_ok.
  - now apply do_call_chain_ok.
  - now apply paint_chain_ok.
  - eapply chain_ok_keeps; [|exact IH]. keeps_eq.
  - eapply chain_ok_keeps; [|exact IH]. unfold damage_idle_cb.
    eapply keeps_chain_trans; [apply (damage_keeps s None)|]. keeps_eq.
  - exact (chain_ok_keeps _ _ (workspace_stream_start_keeps s idx) IH).
  - exact (chain_ok_keeps _ _ (workspace_stream_update_keeps s idx sx sy) IH).
  - exact (chain_ok_keeps _ _ (workspace_stream_stop_keeps s idx) IH).
  - eapply chain_ok_keeps; [|exact IH]. keeps_eq.
Qed.

(** C1: in every state the manager reaches, the last entry of
    [post_effects] has the ids [(0, 0)] after [add_post], and after the
    deferred removal [cleanup_post_hooks] carries out, with or without a
    [rem_post] before it.  After [add_post] the chain is the old one, its
    last entry now owning the two GL names handed out (a real buffer),
    followed by the new entry with the ids [(0, 0)]. *)
Theorem post_chain_terminal (s : render_manager) (h : post_hook_t) :
  reachable hook_body s ->
  terminal_zero (post_effects (add_post s h))
  /\ (forall l0 x,
        post_effects s = l0 ++ [x] ->
        exists x' new_,
          post_effects (add_post s h) = l0 ++ [x'; new_]
          /\ hook x' = hook x
          /\ fb (buffer x') = gl_names s /\ tex (buffer x') = gl_names s + 1
          /\ fb (buffer x') <> 0 /\ tex (buffer x') <> 0
          /\ hook new_ = h
          /\ fb (buffer new_) = 0 /\ tex (buffer new_) = 0)
  /\ terminal_zero (post_effects (cleanup_post_hooks (rem_post s h)))
  /\ terminal_zero (post_effects (cleanup_post_hooks s)).
Proof.
  intro H. apply post_chain_terminal_from_ok. now apply reachable_chain_ok.
Qed.

End ChainInvariant.

(** C1 at work: two hooks added to a new manager, then a third one, or the
    second one removed. *)
Lemma post_chain_terminal_witness :
  reachable ex_hook_body ex_two_posts
  /\ terminal_zero (post_effects (add_post ex_two_posts 9%nat))
  /\ (exists x' new_,
        post_effects (add_post ex_two_posts 9%nat)
        = [mkPost 0 7%nat false (mkFb 3 4 200 100)] ++ [x'; new_]
        /\ fb (buffer x') = 5 /\ tex (buffer x') = 6
        /\ fb (buffer new_) = 0 /\ tex (buffer new_) = 0)
  /\ terminal_zero
       (post_effects (cleanup_post_hooks (rem_post ex_two_posts 8%nat))).
Proof.
  assert (H : reachable ex_hook_body ex_two_posts).
  { apply (reach_call ex_hook_body _ (CallAddPost 8%nat)).
    apply (reach_call ex_hook_body _ (CallAddPost 7%nat)).
    now apply reach_new. }
  destruct (post_chain_terminal ex_hook_body ex_two_posts 9%nat H)
    as [Ha [Hb _]].
  destruct (post_chain_terminal ex_hook_body ex_two_posts 8%nat H)
    as [_ [_ [Hr _]]].
  split; [exact H|]. split; [exact Ha|]. split; [|exact Hr].
  destruct (Hb [mkPost 0 7%nat false (mkFb 3 4 200 100)]
               (mkPost 1 8%nat false (mkFb 0 0 200 100)) eq_refl)
    as [x' [new_ [E [_ [Hf [Ht [_ [_ [_ [Hn1 Hn2]]]]]]]]]].
  exists x', new_. repeat split; assumption.
Defined.

(** ** Further laws and scenarios of the specification *)

(** Whatever the state, [constant_redraw] is not negative after a call of
    [auto_redraw]. *)
Theorem auto_redraw_nonneg (s : render_manager) (redraw : bool) :
  0 <= constant_redraw (auto_redraw s redraw).
Proof.
  destruct (auto_redraw_step s redraw) as [H _]. rewrite H. lia.
Qed.

Lemma damage_frame_damage (s : render_manager) (r : option region32)
    (px py : Z) :
  contains (od_frame_damage (output_damage (damage s r))) px py
  = contains (od_frame_damage (output_damage s)) px py
    || (negb (destroyed (output s))
        && contains (damage_argument s r) px py).
Proof.
  unfold damage, damage_argument.
  destruct (destroyed (output s)); cbn [negb andb];
    [now rewrite orb_false_r|].
  destruct r as [r|].
  - unfold od_add_region, schedule_repaint, log.
    cbn [output_damage with_trace with_output_damage od_frame_damage].
    apply contains_union.
  - unfold od_add. rewrite transformed_resolution_eq.
    unfold od_add_box, schedule_repaint, log.
    cbn [output_damage with_trace with_output_damage od_frame_damage
         bx by_ bwidth bheight].
    unfold union_rect. apply contains_union.
Qed.

(** X2: damage is idempotent: reporting the same damage twice leaves the
    accumulated frame damage with the pixels it has after reporting it
    once. *)
Theorem damage_idempotent (s : render_manager) (r : option region32)
    (px py : Z) :
  contains (od_frame_damage (output_damage (damage (damage s r) r))) px py
  = contains (od_frame_damage (output_damage (damage s r))) px py.
Proof.
  rewrite (damage_frame_damage (damage s r)), damage_frame_damage.
  destruct (damage_chain s r) as [_ [_ [_ [_ Ho]]]].
  assert (Ha : damage_argument (damage s r) r = damage_argument s r)
    by (unfold damage_argument; now rewrite Ho).
  rewrite Ho, Ha.
  destruct (contains (od_frame_damage (output_damage s)) px py),
    (negb (destroyed (output s))), (contains (damage_argument s r) px py);
    reflexivity.
Qed.

(** Partial damage on a single workspace: with a 10 x 10 patch damaged
    at [(5, 5)] under one opaque view covering the output, exactly one
    surface is drawn, with the patch as its damage. *)
Example partial_damage_draws_one_surface :
  render_fb_calls (trace (workspace_stream_update ex_patch (0, 0)%nat 1 1))
  = [(ex_surface 1 ex_full, [mkBox 5 5 15 15])].
Proof. reflexivity. Qed.

(** A frame without damage: the second of two frames in a row finds
    nothing to swap and no constant redraw, so it swaps nothing and draws
    nothing, while the first one swapped once. *)
Example idle_frame_swaps_nothing :
  let first := paint ex_hook_body (ex_manager [ex_view 1 ex_full false] true) in
  let second := paint ex_hook_body first in
  length (filter is_swap (trace first)) = 1%nat
  /\ length (filter is_swap (trace second)) = 1%nat
  /\ render_fb_calls (trace second) = render_fb_calls (trace first).
Proof. repeat split. Qed.

(** X5: registering a hook twice keeps both entries, in order, and removing
    a hook that is not registered leaves the container as it is. *)
Theorem effect_registry_laws (s : render_manager) (h : effect_hook_t)
    (type : wf_output_effect_type) :
  effects_of (effects (add_effect (add_effect s h type) h type)) type
  = effects_of (effects s) type ++ [h; h]
  /\ (~ In h (effects_of (effects s) type) ->
      rem_effect s h type = s).
Proof.
  split.
  - destruct type; cbn; now rewrite <- app_assoc.
  - intro Hn.
    assert (Hf : filter (fun e => negb (Nat.eqb e h))
                        (effects_of (effects s) type)
                 = effects_of (effects s) type).
    { induction (effects_of (effects s) type) as [|e l IH]; [reflexivity|].
      cbn [filter]. destruct (Nat.eqb_spec e h) as [->|Hne].
      - exfalso. apply Hn. now left.
      - cbn [negb]. f_equal. apply IH. intro Hin. apply Hn. now right. }
    unfold rem_effect. rewrite Hf.
    destruct s as [? ? ? ? ? ? ? ? ? ? eff ? ? ? ? ? ?].
    destruct eff, type; reflexivity.
Qed.

(** ** Grab interfaces *)

Lemma alternating_app (held : bool) (l r : list input_call) :
  alternating held (l ++ r)
  = alternating held l && alternating (held_after held l) r.
Proof.
  unfold held_after. revert held.
  induction l as [|c l IH]; intro held; [reflexivity|].
  destruct c; cbn [app alternating fold_left]; rewrite IH;
    now rewrite andb_assoc.
Qed.

Lemma held_after_app (held : bool) (l r : list input_call) :
  held_after held (l ++ r) = held_after (held_after held l) r.
Proof. unfold held_after. apply fold_left_app. Qed.

(** One use of the interface adds a well-placed call or none, and
    [grabbed] tells whether a grab is held. *)
Lemma do_grab_op_step (i : wayfire_grab_interface_t) (op : grab_op) :
  exists calls,
    input_calls (do_grab_op i op) = input_calls i ++ calls
    /\ alternating (grabbed i) calls = true
    /\ held_after (grabbed i) calls = grabbed (do_grab_op i op).
Proof.
  destruct op as [active ok|]; cbn [do_grab_op]; unfold grab, ungrab.
  - destruct (grabbed i) eqn:E.
    + exists []. cbn [snd alternating held_after fold_left].
      now rewrite app_nil_r, E.
    + destruct active; cbn [negb snd].
      * exists [GrabInput]. repeat split.
      * exists []. cbn [alternating held_after fold_left].
        now rewrite app_nil_r, E.
  - destruct (grabbed i) eqn:E; cbn [negb].
    + exists [UngrabInput]. repeat split.
    + exists []. cbn [alternating held_after fold_left].
      now rewrite app_nil_r, E.
Qed.

(** X6: however a plugin mixes [grab] and [ungrab], whatever the output and
    the input manager answer, the calls reaching the input manager take
    turns: [grab_input] is only called while no grab is held and
    [ungrab_input] only while one is; and [is_grabbed] tells which. *)
Theorem grab_calls_alternate (ops : list grab_op)
    (i : wayfire_grab_interface_t) :
  exists calls,
    input_calls (fold_left do_grab_op ops i) = input_calls i ++ calls
    /\ alternating (grabbed i) calls = true
    /\ is_grabbed (fold_left do_grab_op ops i)
       = held_after (grabbed i) calls.
Proof.
  revert i. induction ops as [|op ops IH]; intro i; cbn [fold_left].
  - exists []. now rewrite app_nil_r.
  - destruct (do_grab_op_step i op) as [c1 [E1 [A1 H1]]].
    destruct (IH (do_grab_op i op)) as [c2 [E2 [A2 H2]]].
    exists (c1 ++ c2). split; [|split].
    + now rewrite E2, E1, app_assoc.
    + now rewrite alternating_app, A1, H1, A2.
    + now rewrite H2, held_after_app, H1.
Qed.

(** X7: [grab] marks the interface grabbed before it asks the input
    manager: when [grab_input] refuses, [grab] returns false, yet
    [is_grabbed] is true and the next [grab] returns true without asking
    again, even if the plugin is no longer active.  Only [ungrab] clears
    the mark, with a call of [ungrab_input]. *)
Theorem refused_grab_stays_marked (i : wayfire_grab_interface_t)
    (active' ok' : bool) :
  grabbed i = false ->
  let i1 := snd (grab i true false) in
  fst (grab i true false) = false
  /\ is_grabbed i1 = true
  /\ grab i1 active' ok' = (true, i1)
  /\ is_grabbed (ungrab i1) = false
  /\ input_calls (ungrab i1) = input_calls i ++ [GrabInput; UngrabInput].
Proof.
  intro E. unfold grab, ungrab, is_grabbed. rewrite E. cbn.
  repeat split. now rewrite <- app_assoc.
Qed.

(** X7 at work: an interface that has made no call yet. *)
Lemma refused_grab_stays_marked_witness :
  fst (grab (mkGrab false []) true false) = false
  /\ is_grabbed (snd (grab (mkGrab false []) true false)) = true
  /\ input_calls (ungrab (snd (grab (mkGrab false []) true false)))
     = [GrabInput; UngrabInput].
Proof.
  destruct (refused_grab_stays_marked (mkGrab false []) false false eq_refl)
    as [H1 [H2 [_ [_ H5]]]].
  repeat split; assumption.
Defined.

(** ** What each operation asks for *)

Lemma extends_refl (P : event -> bool) (s s' : render_manager) :
  trace s' = trace s -> extends P s s'.
Proof. intro E. exists []. now rewrite app_nil_r. Qed.

Lemma extends_trans (P : event -> bool) (s1 s2 s3 : render_manager) :
  extends P s1 s2 -> extends P s2 s3 -> extends P s1 s3.
Proof.
  intros [e1 [E1 F1]] [e2 [E2 F2]]. exists (e1 ++ e2). split.
  - now rewrite E2, E1, app_assoc.
  - now rewrite forallb_app, F1, F2.
Qed.

Lemma extends_weaken (P Q : event -> bool) (s s' : render_manager) :
  (forall e, P e = true -> Q e = true) -> extends P s s' -> extends Q s s'.
Proof.
  intros HPQ [evs [E F]]. exists evs. split; [exact E|].
  rewrite forallb_forall in *. auto.
Qed.

Lemma extends_events (P : event -> bool) (s s' : render_manager)
    (evs : list event) :
  trace s' = trace s ++ evs -> forallb P evs = true -> extends P s s'.
Proof. intros E F. now exists evs. Qed.

Lemma extends_log (P : event -> bool) (e : event) (s : render_manager) :
  P e = true -> extends P s (log e s).
Proof. intro H. exists [e]. cbn. now rewrite H. Qed.

Lemma damage_extends (s : render_manager) (r : option region32) :
  extends call_event s (damage s r).
Proof.
  unfold damage, od_add, od_add_region, od_add_box, schedule_repaint.
  destruct (destroyed (output s)); [now apply extends_refl|].
  destruct r.
  - now apply (extends_events _ _ _ [EvScheduleFrame]).
  - destruct (wlr_output_transformed_resolution (handle (output s))).
    now apply (extends_events _ _ _ [EvScheduleFrame]).
Qed.

Lemma damage_box_extends (s : render_manager) (b : wlr_box) :
  extends call_event s (damage_box s b).
Proof.
  unfold damage_box, od_add_box, schedule_repaint.
  destruct (negb (destroyed (output s))); [|now apply extends_refl].
  now apply (extends_events _ _ _ [EvScheduleFrame]).
Qed.

Lemma schedule_redraw_extends (s : render_manager) :
  extends call_event s (schedule_redraw s).
Proof.
  unfold schedule_redraw.
  destruct (negb (idle_redraw_source (log EvScheduleRedraw s))).
  - apply (extends_events _ _ _ [EvScheduleRedraw; EvIdleAddRedraw]);
      [|reflexivity].
    unfold log. cbn [trace with_trace with_idle_redraw_source].
    now rewrite <- app_assoc.
  - now apply (extends_events _ _ _ [EvScheduleRedraw]).
Qed.

Lemma auto_redraw_extends (s : render_manager) (redraw : bool) :
  extends call_event s (auto_redraw s redraw).
Proof.
  unfold auto_redraw. set (s1 := with_constant_redraw s _).
  destruct (constant_redraw s1 >? 1); [now apply extends_refl|].
  destruct (constant_redraw s1 <? 0); [now apply extends_refl|].
  apply (extends_trans _ s s1); [now apply extends_refl|].
  apply schedule_redraw_extends.
Qed.

Lemma add_inhibit_extends (s : render_manager) (add : bool) :
  extends call_event s (add_inhibit s add).
Proof.
  unfold add_inhibit. set (s1 := with_output_inhibit s _).
  destruct (output_inhibit s1 =? 0); [|now apply extends_refl].
  apply (extends_trans _ s s1); [now apply extends_refl|].
  eapply extends_trans; [apply damage_extends|]. now apply extends_log.
Qed.

Lemma reset_renderer_extends (s : render_manager) :
  extends call_event s (reset_renderer s).
Proof.
  unfold reset_renderer.
  destruct (negb (idle_damage_source (with_renderer s None)));
    [|now apply extends_refl].
  now apply (extends_events _ _ _ [EvIdleAddDamage]).
Qed.

Lemma add_post_extends (s : render_manager) (h : post_hook_t) :
  extends call_event s (add_post s h).
Proof.
  unfold add_post.
  destruct (fb_allocate (fb_reset (back_buffer s)) _ _ _) as [b gl].
  match goal with
  | |- context [fb_allocate ?b0 ?w ?h0 ?g] =>
      destruct (fb_allocate b0 w h0 g) as [nb gl']
  end.
  set (s1 := with_gl_names (set_back_buffer s b) gl).
  apply (extends_trans _ s s1).
  - apply extends_refl. subst s1. cbn [trace with_gl_names].
    apply set_back_buffer_trace.
  - eapply extends_trans; [apply (damage_extends s1 None)|].
    now apply extends_refl.
Qed.

Lemma rem_post_extends (s : render_manager) (h : post_hook_t) :
  extends call_event s (rem_post s h).
Proof.
  unfold rem_post.
  eapply extends_trans; [|apply damage_extends]. now apply extends_refl.
Qed.

Lemma rem_post_loop_deletes (post : nat) (l : list wf_post_effect) :
  forallb call_event (snd (rem_post_loop post l)) = true.
Proof.
  induction l as [|p r IH]; [reflexivity|].
  cbn [rem_post_loop]. destruct (rem_post_loop post r) as [r' ev].
  destruct (Nat.eqb (post_addr p) post); cbn; exact IH.
Qed.

Lemma _rem_post_extends (s : render_manager) (post : nat) :
  extends call_event s (_rem_post s post).
Proof.
  unfold _rem_post. rewrite rem_post_loop_eq.
  set (s1 := with_trace (with_post_effects s _) _).
  assert (H1 : extends call_event s s1).
  { apply (extends_events _ _ _ (snd (rem_post_loop post (post_effects s))));
      [reflexivity | apply rem_post_loop_deletes]. }
  eapply extends_trans; [exact H1|].
  eapply extends_trans; [|apply damage_extends].
  destruct (negb (fb (back_buffer s1) =? 0)); [|now apply extends_refl].
  apply (extends_events _ _ _ [EvGLDelete (back_buffer s1)]);
    [|reflexivity].
  now rewrite set_back_buffer_trace.
Qed.

Lemma cleanup_post_hooks_extends (s : render_manager) :
  extends call_event s (cleanup_post_hooks s).
Proof.
  unfold cleanup_post_hooks.
  generalize (filter to_remove (post_effects s)). intro l. revert s.
  induction l as [|p l IH]; intro s; [now apply extends_refl|].
  cbn [fold_left].
  eapply extends_trans; [apply (_rem_post_extends s (post_addr p))|].
  apply IH.
Qed.

(** A call of the interface asks for frames, idle callbacks, signals and
    buffer deletions, nothing else. *)
Lemma do_call_extends (s : render_manager) (c : rm_call) :
  extends call_event s (do_call s c).
Proof.
  destruct c; cbn [do_call].
  - apply damage_box_extends.
  - apply damage_extends.
  - now apply extends_refl.
  - now apply extends_refl.
  - apply add_post_extends.
  - apply rem_post_extends.
  - apply auto_redraw_extends.
  - apply add_inhibit_extends.
  - now apply extends_refl.
  - apply reset_renderer_extends.
Qed.

Section Extends.

Variable hook_body : effect_hook_t -> list rm_call.

Lemma do_calls_extends (cs : list rm_call) (s : render_manager) :
  extends call_event s (fold_left do_call cs s).
Proof.
  revert s. induction cs as [|c cs IH]; intro s;
    [now apply extends_refl|].
  cbn [fold_left]. eapply extends_trans; [apply do_call_extends | apply IH].
Qed.

Lemma run_effects_extends (s : render_manager)
    (type : wf_output_effect_type) :
  extends hook_event s (run_effects hook_body s type).
Proof.
  unfold run_effects.
  generalize (fold_left (fun acc effect => acc ++ [effect])
                        (effects_of (effects s) type) []).
  intro l. revert s. induction l as [|e l IH]; intro s;
    [now apply extends_refl|].
  cbn [fold_left]. eapply extends_trans; [|apply IH].
  eapply extends_trans; [now apply (extends_log hook_event (EvEffect e))|].
  apply (extends_weaken call_event);
    [intros ev H; now destruct ev | apply do_calls_extends].
Qed.

Lemma send_frame_done_events (vs : list wayfire_view_t) :
  forallb post_paint_event (flat_map send_frame_done vs) = true.
Proof.
  induction vs as [|v vs IH]; [reflexivity|].
  cbn [flat_map]. rewrite forallb_app, IH, andb_true_r.
  unfold send_frame_done. destruct (negb (view_is_mapped v)); [reflexivity|].
  now induction (for_each_surface v).
Qed.

(** [post_paint] runs hooks and their calls and sends frame-done; it does
    no work on the GL context or the display. *)
Lemma post_paint_extends (s : render_manager) :
  extends post_paint_event s (post_paint hook_body s).
Proof.
  unfold post_paint.
  set (s1 := run_effects hook_body (cleanup_post_hooks s)
                         WF_OUTPUT_EFFECT_POST).
  assert (H1 : extends post_paint_event s s1).
  { eapply extends_trans.
    - apply (extends_weaken call_event);
        [intros ev H; now destruct ev | apply cleanup_post_hooks_extends].
    - apply (extends_weaken hook_event);
        [intros ev H; now destruct ev | apply run_effects_extends]. }
  set (s2 := if negb (constant_redraw s1 =? 0) then schedule_redraw s1
             else s1).
  assert (H2 : extends post_paint_event s s2).
  { eapply extends_trans; [exact H1|]. subst s2.
    destruct (negb (constant_redraw s1 =? 0)); [|now apply extends_refl].
    apply (extends_weaken call_event);
      [intros ev H; now destruct ev | apply schedule_redraw_extends]. }
  eapply extends_trans; [exact H2|].
  destruct (renderer s2).
  - eapply extends_events; [reflexivity | apply send_frame_done_events].
  - eapply extends_events; [|apply send_frame_done_events].
    cbn [trace with_trace]. rewrite <- app_assoc, <- flat_map_app.
    reflexivity.
Qed.

End Extends.

Lemma post_paint_event_no_draw (evs : list event) :
  forallb post_paint_event evs = true ->
  forallb (fun e => negb (draw_event e)) evs = true.
Proof.
  rewrite !forallb_forall. intros H e He. specialize (H e He).
  now destruct e.
Qed.

Section IdleFrame.

Variable hook_body : effect_hook_t -> list rm_call.

(** X4: a frame with nothing to show: when [make_current] succeeds, reports
    no need to swap, and no constant redraw is asked for, [paint] goes
    straight to [post_paint].  After the successful [make_current] the
    trace holds hook calls and frame-done notifications only: the output is
    not bound, nothing is drawn, no buffer is swapped. *)
Theorem paint_idle_frame (s : render_manager) :
  let prepared := paint_prepare hook_body s in
  let current_ := make_current prepared (frame_damage prepared) in
  fst (fst (fst current_)) = true ->
  snd (fst (fst current_)) = false ->
  constant_redraw prepared = 0 ->
  paint hook_body s
  = post_paint hook_body
      (with_frame_damage (snd current_) (snd (fst current_)))
  /\ exists evs,
       trace (paint hook_body s)
       = trace prepared ++ EvMakeCurrent true :: evs
       /\ forallb post_paint_event evs = true
       /\ forallb (fun e => negb (draw_event e)) evs = true.
Proof.
  intros prepared current_ Hok Hswap Hcr. subst current_.
  rewrite make_current_result in Hok.
  pose proof (make_current_ok prepared (frame_damage prepared) Hok) as Emc.
  cbv zeta in Emc. rewrite Emc in Hswap |- *. cbn [fst snd] in Hswap |- *.
  match goal with
  | |- _ = post_paint _ ?s2 /\ _ =>
      assert (E : paint hook_body s = post_paint hook_body s2);
      [|split; [exact E|];
        destruct (post_paint_extends hook_body s2) as [evs [Et Hev]];
        exists evs; split; [|split; [exact Hev|]]]
  end.
  - unfold paint. fold prepared. rewrite Emc. cbn [negb].
    rewrite Hswap. cbn [negb andb].
    unfold log. cbn [constant_redraw with_frame_damage with_output_damage
                     with_trace].
    now rewrite Hcr.
  - rewrite E, Et. unfold log.
    cbn [trace with_frame_damage with_output_damage with_trace].
    now rewrite <- app_assoc.
  - now apply post_paint_event_no_draw.
Qed.

End IdleFrame.

(** X4 at work: the frame after a painted one. *)
Lemma paint_idle_frame_witness :
  constant_redraw (paint_prepare ex_hook_body ex_painted) = 0
  /\ exists evs,
       trace (paint ex_hook_body ex_painted)
       = trace (paint_prepare ex_hook_body ex_painted)
         ++ EvMakeCurrent true :: evs
       /\ forallb (fun e => negb (draw_event e)) evs = true.
Proof.
  split; [reflexivity|].
  destruct (paint_idle_frame ex_hook_body ex_painted eq_refl eq_refl eq_refl)
    as [_ [evs [E [_ H]]]].
  exists evs. split; assumption.
Defined.

(** ** What every operation keeps *)

Lemma idle_adds_app (t u : list event) :
  redraw_idle_adds (t ++ u) = (redraw_idle_adds t + redraw_idle_adds u)%nat
  /\ damage_idle_adds (t ++ u)
     = (damage_idle_adds t + damage_idle_adds u)%nat.
Proof.
  unfold redraw_idle_adds, damage_idle_adds.
  now rewrite !filter_app, !length_app.
Qed.

Lemma plain_events_add_nothing (evs : list event) :
  forallb plain_event evs = true ->
  redraw_idle_adds evs = 0%nat /\ damage_idle_adds evs = 0%nat.
Proof.
  unfold redraw_idle_adds, damage_idle_adds.
  induction evs as [|e evs IH]; [now split|].
  cbn [forallb filter]. intro H. apply andb_true_iff in H.
  destruct H as [He H]. destruct (IH H) as [IH1 IH2].
  destruct e; try discriminate; cbn; now split.
Qed.

Lemma steady_refl (s : render_manager) : steady s s.
Proof. unfold steady. tauto. Qed.

Lemma steady_trans (s1 s2 s3 : render_manager) :
  steady s1 s2 -> steady s2 s3 -> steady s1 s3.
Proof.
  intros [A1 [B1 [C1 [D1 E1]]]] [A2 [B2 [C2 [D2 E2]]]].
  unfold steady. split; [congruence|]. split; [congruence|].
  split; [congruence|]. split; auto.
Qed.

(** An operation that leaves the sources, the counter, the grid and the
    chain alone and queues no idle callback keeps everything. *)
Lemma steady_same (s s' : render_manager) :
  idle_redraw_source s' = idle_redraw_source s ->
  idle_damage_source s' = idle_damage_source s ->
  ws_tags s' = ws_tags s ->
  constant_redraw s' = constant_redraw s ->
  post_effects s' = post_effects s ->
  heap_next s' = heap_next s ->
  extends plain_event s s' ->
  steady s s'.
Proof.
  intros Hr Hd Hw Hc Hp Hh [evs [Et Hev]].
  destruct (plain_events_add_nothing evs Hev) as [Z1 Z2].
  destruct (idle_adds_app (trace s) evs) as [A1 A2].
  unfold steady, redraw_balance, damage_balance, heap_ok.
  rewrite Hr, Hd, Hw, Hc, Hp, Hh, Et, A1, A2, Z1, Z2, !Nat.add_0_r.
  tauto.
Qed.

Lemma damage_extends_frames (P : event -> bool) (s : render_manager)
    (r : option region32) :
  P EvScheduleFrame = true -> extends P s (damage s r).
Proof.
  intro HP.
  unfold damage, od_add, od_add_region, od_add_box, schedule_repaint.
  destruct (destroyed (output s)); [now apply extends_refl|].
  destruct r.
  - apply (extends_events _ _ _ [EvScheduleFrame]); [reflexivity|].
    cbn. now rewrite HP.
  - destruct (wlr_output_transformed_resolution (handle (output s))).
    apply (extends_events _ _ _ [EvScheduleFrame]); [reflexivity|].
    cbn. now rewrite HP.
Qed.

Lemma damage_sched (s : render_manager) (r : option region32) :
  idle_redraw_source (damage s r) = idle_redraw_source s
  /\ idle_damage_source (damage s r) = idle_damage_source s
  /\ output_streams (damage s r) = output_streams s
  /\ constant_redraw (damage s r) = constant_redraw s
  /\ output_inhibit (damage s r) = output_inhibit s
  /\ renderer (damage s r) = renderer s
  /\ effects (damage s r) = effects s.
Proof.
  unfold damage, od_add, od_add_region, od_add_box, schedule_repaint, log.
  destruct (destroyed (output s)); [now repeat split|].
  destruct r; [now repeat split|].
  now destruct (wlr_output_transformed_resolution (handle (output s))).
Qed.

Lemma damage_steady (s : render_manager) (r : option region32) :
  steady s (damage s r).
Proof.
  destruct (damage_sched s r) as [H1 [H2 [H3 [H4 _]]]].
  destruct (damage_chain s r) as [H5 [_ [_ [H6 _]]]].
  apply steady_same; try assumption.
  - unfold ws_tags. now rewrite H3.
  - now apply damage_extends_frames.
Qed.

Lemma damage_box_steady (s : render_manager) (b : wlr_box) :
  steady s (damage_box s b).
Proof.
  unfold damage_box, od_add_box, schedule_repaint.
  destruct (negb (destroyed (output s))); [|apply steady_refl].
  apply steady_same; try reflexivity.
  now apply (extends_events _ _ _ [EvScheduleFrame]).
Qed.

Lemma log_steady (e : event) (s : render_manager) :
  plain_event e = true -> steady s (log e s).
Proof.
  intro H. apply steady_same; try reflexivity. now apply extends_log.
Qed.

(** [schedule_redraw] queues a callback only when none is queued. *)
Lemma schedule_redraw_steady (s : render_manager) :
  steady s (schedule_redraw s).
Proof.
  unfold steady, redraw_balance, damage_balance, heap_ok, ws_tags,
    schedule_redraw, log.
  cbn [idle_redraw_source with_trace].
  destruct (idle_redraw_source s) eqn:E; cbn [negb];
    cbn [trace idle_redraw_source idle_damage_source with_trace
         with_idle_redraw_source output_streams constant_redraw post_effects
         heap_next];
    repeat rewrite (proj1 (idle_adds_app _ _));
    repeat rewrite (proj2 (idle_adds_app _ _));
    rewrite ?E; cbn;
    (split; [lia|]); (split; [lia|]); (split; [reflexivity|]); tauto.
Qed.

(** So does [reset_renderer] with its damage callback. *)
Lemma reset_renderer_steady (s : render_manager) :
  steady s (reset_renderer s).
Proof.
  unfold steady, redraw_balance, damage_balance, heap_ok, ws_tags,
    reset_renderer, log.
  cbn [idle_damage_source with_renderer].
  destruct (idle_damage_source s) eqn:E; cbn [negb];
    cbn [trace idle_redraw_source idle_damage_source with_trace
         with_idle_damage_source with_renderer output_streams
         constant_redraw post_effects heap_next];
    repeat rewrite (proj1 (idle_adds_app _ _));
    repeat rewrite (proj2 (idle_adds_app _ _));
    rewrite ?E; cbn;
    (split; [lia|]); (split; [lia|]); (split; [reflexivity|]); tauto.
Qed.

Lemma auto_redraw_steady (s : render_manager) (redraw : bool) :
  steady s (auto_redraw s redraw).
Proof.
  assert (Hnn : 0 <= constant_redraw (auto_redraw s redraw))
    by (destruct (auto_redraw_step s redraw) as [H _]; rewrite H; lia).
  assert (H : steady (with_constant_redraw s
                        (constant_redraw s + (if redraw then 1 else -1)))
                     (auto_redraw s redraw)).
  { unfold auto_redraw. set (s1 := with_constant_redraw s _).
    destruct (constant_redraw s1 >? 1); [apply steady_refl|].
    destruct (constant_redraw s1 <? 0).
    - unfold steady, redraw_balance, damage_balance, heap_ok, ws_tags.
      cbn. do 3 (split; [reflexivity|]). split; [intros _; lia | tauto].
    - apply schedule_redraw_steady. }
  destruct H as [A [B [C [_ E]]]].
  split; [exact A|]. split; [exact B|]. split; [exact C|].
  split; [intros _; exact Hnn | exact E].
Qed.

Lemma add_inhibit_steady (s : render_manager) (add : bool) :
  steady s (add_inhibit s add).
Proof.
  unfold add_inhibit. set (s1 := with_output_inhibit s _).
  apply (steady_trans s s1).
  - apply steady_same; try reflexivity. now apply extends_refl.
  - destruct (output_inhibit s1 =? 0); [|apply steady_refl].
    eapply steady_trans; [apply damage_steady|]. now apply log_steady.
Qed.

Lemma update_back_addr (f : wf_post_effect -> wf_post_effect)
    (l : list wf_post_effect) :
  (forall p, post_addr (f p) = post_addr p) ->
  map post_addr (update_back f l) = map post_addr l.
Proof.
  intro Hf. destruct (list_snoc_cases l) as [-> | [l0 [x ->]]];
    [reflexivity|].
  rewrite update_back_snoc, !map_app. cbn [map]. now rewrite Hf.
Qed.

Lemma Forall_addr (n : nat) (l l' : list wf_post_effect) :
  map post_addr l' = map post_addr l ->
  Forall (fun p => (post_addr p < n)%nat) l ->
  Forall (fun p => (post_addr p < n)%nat) l'.
Proof.
  intros E H.
  apply (Forall_map post_addr (fun a => (a < n)%nat)).
  rewrite E. now apply (Forall_map post_addr (fun a => (a < n)%nat)).
Qed.

Lemma set_back_buffer_steady (s : render_manager) (b : wf_framebuffer_base) :
  steady s (set_back_buffer s b).
Proof.
  assert (Ha : map post_addr (post_effects (set_back_buffer s b))
               = map post_addr (post_effects s)).
  { destruct (set_back_buffer_chain s b) as [-> _].
    now apply update_back_addr. }
  assert (Hh : heap_next (set_back_buffer s b) = heap_next s)
    by now destruct (set_back_buffer_chain s b) as [_ [_ [-> _]]].
  unfold steady, redraw_balance, damage_balance, ws_tags, heap_ok.
  rewrite Ha, Hh.
  unfold set_back_buffer in *.
  destruct (post_effects s);
    (do 4 (split; [cbn; tauto|]));
    intros [N F]; (split; [exact N|]); now apply (Forall_addr _ _ _ Ha).
Qed.

Lemma steady_fields (s s' : render_manager) :
  idle_redraw_source s' = idle_redraw_source s ->
  idle_damage_source s' = idle_damage_source s ->
  ws_tags s' = ws_tags s ->
  constant_redraw s' = constant_redraw s ->
  (heap_ok s -> heap_ok s') ->
  extends plain_event s s' ->
  steady s s'.
Proof.
  intros Hr Hd Hw Hc Hh [evs [Et Hev]].
  destruct (plain_events_add_nothing evs Hev) as [Z1 Z2].
  destruct (idle_adds_app (trace s) evs) as [A1 A2].
  unfold steady, redraw_balance, damage_balance.
  rewrite Hr, Hd, Hw, Hc, Et, A1, A2, Z1, Z2, !Nat.add_0_r.
  tauto.
Qed.

(** A new object at the next heap address joins the chain. *)
Lemma push_post_heap_ok (l : list wf_post_effect) (n : nat)
    (p : wf_post_effect) :
  post_addr p = n ->
  NoDup (map post_addr l)
  /\ Forall (fun q => (post_addr q < n)%nat) l ->
  NoDup (map post_addr (l ++ [p]))
  /\ Forall (fun q => (post_addr q < S n)%nat) (l ++ [p]).
Proof.
  intros Hp [N F]. split.
  - rewrite map_app. cbn [map]. rewrite Hp.
    apply NoDup_app; [exact N | repeat constructor; auto |].
    intros a Ha [<- | []]. apply in_map_iff in Ha.
    destruct Ha as [q [Hq Hin]]. rewrite Forall_forall in F.
    specialize (F q Hin). lia.
  - apply Forall_app. split.
    + eapply Forall_impl; [|exact F]. cbn. intros. lia.
    + constructor; [lia | constructor].
Qed.

Lemma add_post_steady (s : render_manager) (h : post_hook_t) :
  steady s (add_post s h).
Proof.
  unfold add_post. rewrite fb_allocate_reset.
  set (b := mkFb (gl_names s) (gl_names s + 1) _ _).
  set (s1 := with_gl_names (set_back_buffer s b) (gl_names s + 2)).
  assert (H1 : steady s s1).
  { eapply steady_trans; [apply (set_back_buffer_steady s b)|].
    apply steady_same; try reflexivity. now apply extends_refl. }
  assert (H2 : steady s (damage s1 None))
    by (eapply steady_trans; [exact H1 | apply damage_steady]).
  eapply steady_trans; [exact H2|].
  set (s2 := damage s1 None).
  cbn [with_heap_next gl_names]. rewrite fb_allocate_display.
  apply steady_fields; try reflexivity.
  - unfold heap_ok.
    cbn [post_effects heap_next with_post_effects with_gl_names].
    now apply push_post_heap_ok.
  - now apply extends_refl.
Qed.

Lemma NoDup_map_filter {A B} (g : A -> B) (f : A -> bool) (l : list A) :
  NoDup (map g l) -> NoDup (map g (filter f l)).
Proof.
  induction l as [|x l IH]; [trivial|].
  cbn [map filter]. intro H. inversion H as [|? ? Hx Hl]; subst.
  destruct (f x); [|now apply IH].
  cbn [map]. constructor; [|now apply IH].
  intro Hin. apply Hx. apply in_map_iff in Hin.
  destruct Hin as [y [Ey Hy]]. apply filter_In in Hy.
  apply in_map_iff. exists y. tauto.
Qed.

Lemma filter_heap_ok (f : wf_post_effect -> bool) (n : nat)
    (l : list wf_post_effect) :
  NoDup (map post_addr l) /\ Forall (fun q => (post_addr q < n)%nat) l ->
  NoDup (map post_addr (filter f l))
  /\ Forall (fun q => (post_addr q < n)%nat) (filter f l).
Proof.
  intros [N F]. split; [now apply NoDup_map_filter|].
  apply Forall_forall. intros q Hq. apply filter_In in Hq.
  rewrite Forall_forall in F. apply F. tauto.
Qed.

Lemma rem_post_loop_only_deletes (post : nat) (l : list wf_post_effect) :
  forallb plain_event (snd (rem_post_loop post l)) = true.
Proof.
  induction l as [|p r IH]; [reflexivity|].
  cbn [rem_post_loop]. destruct (rem_post_loop post r) as [r' ev].
  destruct (Nat.eqb (post_addr p) post); cbn; exact IH.
Qed.

Lemma _rem_post_steady (s : render_manager) (post : nat) :
  steady s (_rem_post s post).
Proof.
  unfold _rem_post. rewrite rem_post_loop_eq, rem_post_loop_filter.
  set (s1 := with_trace (with_post_effects s _) _).
  assert (H1 : steady s s1).
  { apply steady_fields; try reflexivity.
    - apply filter_heap_ok.
    - eapply extends_events; [reflexivity|].
      apply rem_post_loop_only_deletes. }
  eapply steady_trans; [exact H1|].
  eapply steady_trans; [|apply damage_steady].
  destruct (negb (fb (back_buffer s1) =? 0)); [|apply steady_refl].
  eapply steady_trans; [|apply set_back_buffer_steady].
  now apply log_steady.
Qed.

Lemma cleanup_post_hooks_steady (s : render_manager) :
  steady s (cleanup_post_hooks s).
Proof.
  unfold cleanup_post_hooks.
  generalize (filter to_remove (post_effects s)). intro l. revert s.
  induction l as [|p l IH]; intro s; [apply steady_refl|].
  cbn [fold_left].
  eapply steady_trans; [apply (_rem_post_steady s (post_addr p))|].
  apply IH.
Qed.

Lemma rem_post_steady (s : render_manager) (h : post_hook_t) :
  steady s (rem_post s h).
Proof.
  unfold rem_post. eapply steady_trans; [|apply damage_steady].
  apply steady_fields; try reflexivity; [|now apply extends_refl].
  unfold heap_ok. cbn [post_effects heap_next with_post_effects].
  assert (E : map post_addr
                (map (fun p => if Nat.eqb (hook p) h
                               then set_to_remove p true else p)
                     (post_effects s))
              = map post_addr (post_effects s)).
  { rewrite map_map. apply map_ext. intro p.
    now destruct (Nat.eqb (hook p) h). }
  rewrite E. intros [N F]. split; [exact N|].
  now apply (Forall_addr _ _ _ E).
Qed.

(** A call of the interface keeps the bookkeeping. *)
Lemma do_call_steady (s : render_manager) (c : rm_call) :
  steady s (do_call s c).
Proof.
  destruct c; cbn [do_call].
  - apply damage_box_steady.
  - apply damage_steady.
  - apply steady_same; try reflexivity. now apply extends_refl.
  - apply steady_same; try reflexivity. now apply extends_refl.
  - apply add_post_steady.
  - apply rem_post_steady.
  - apply auto_redraw_steady.
  - apply add_inhibit_steady.
  - apply steady_same; try reflexivity. now apply extends_refl.
  - apply reset_renderer_steady.
Qed.

Section Steady.

Variable hook_body : effect_hook_t -> list rm_call.

Lemma do_calls_steady (cs : list rm_call) (s : render_manager) :
  steady s (fold_left do_call cs s).
Proof.
  revert s. induction cs as [|c cs IH]; intro s; [apply steady_refl|].
  cbn [fold_left]. eapply steady_trans; [apply do_call_steady | apply IH].
Qed.

Lemma run_effects_steady (s : render_manager)
    (type : wf_output_effect_type) :
  steady s (run_effects hook_body s type).
Proof.
  unfold run_effects.
  generalize (fold_left (fun acc effect => acc ++ [effect])
                        (effects_of (effects s) type) []).
  intro l. revert s. induction l as [|e l IH]; intro s;
    [apply steady_refl|].
  cbn [fold_left]. eapply steady_trans; [|apply IH].
  eapply steady_trans; [now apply (log_steady (EvEffect e))|].
  apply do_calls_steady.
Qed.

Lemma with_trace_steady (s : render_manager) (evs : list event) :
  forallb plain_event evs = true ->
  steady s (with_trace s (trace s ++ evs)).
Proof.
  intro H. apply steady_same; try reflexivity.
  now apply (extends_events _ _ _ evs).
Qed.

Lemma frame_done_plain (vs : list wayfire_view_t) :
  forallb plain_event (flat_map send_frame_done vs) = true.
Proof.
  induction vs as [|v vs IH]; [reflexivity|].
  cbn [flat_map]. rewrite forallb_app, IH, andb_true_r.
  unfold send_frame_done. destruct (negb (view_is_mapped v)); [reflexivity|].
  now induction (for_each_surface v).
Qed.

Lemma post_paint_steady (s : render_manager) :
  steady s (post_paint hook_body s).
Proof.
  unfold post_paint.
  set (s1 := run_effects hook_body (cleanup_post_hooks s)
                         WF_OUTPUT_EFFECT_POST).
  assert (H1 : steady s s1).
  { eapply steady_trans; [apply cleanup_post_hooks_steady|].
    apply run_effects_steady. }
  set (s2 := if negb (constant_redraw s1 =? 0) then schedule_redraw s1
             else s1).
  assert (H2 : steady s s2).
  { eapply steady_trans; [exact H1|]. subst s2.
    destruct (negb (constant_redraw s1 =? 0)); [|apply steady_refl].
    apply schedule_redraw_steady. }
  eapply steady_trans; [exact H2|].
  destruct (renderer s2).
  - apply with_trace_steady, frame_done_plain.
  - eapply steady_trans; apply with_trace_steady, frame_done_plain.
Qed.

End Steady.

(** ** Workspace streams: what an update changes *)

Ltac rm_simpl :=
  cbn [output runtime_config default_buffer output_damage frame_damage
       constant_redraw output_inhibit idle_redraw_source idle_damage_source
       renderer effects post_effects output_streams current_ws_stream
       gl_names heap_next trace with_default_buffer with_output_damage
       with_frame_damage with_constant_redraw with_output_inhibit
       with_idle_redraw_source with_idle_damage_source with_renderer
       with_effects with_post_effects with_output_streams
       with_current_ws_stream with_gl_names with_heap_next with_trace
       fst snd].

Lemma render_loop_logs (n : nat) (to_render : list damaged_surface_t) :
  forall (target : wf_framebuffer) (s : render_manager),
  exists evs,
    snd (render_loop n to_render target s) = with_trace s (trace s ++ evs)
    /\ forallb is_render_fb evs = true.
Proof.
  induction n as [|k IH]; intros target s.
  - exists []. cbn [render_loop snd]. rewrite app_nil_r. now destruct s.
  - cbn [render_loop]. destruct (nth_error to_render k) as [ds|].
    + destruct (IH (set_geometry_xy target (ds_x ds) (ds_y ds))
                  (log (EvRenderFb (surface ds) (ds_damage ds)
                          (set_geometry_xy target (ds_x ds) (ds_y ds))) s))
        as [evs [E F]].
      eexists (_ :: evs). rewrite E. unfold log.
      cbn [trace with_trace]. rewrite <- app_assoc.
      split; [reflexivity | exact F].
    + exists []. cbn [snd]. rewrite app_nil_r. now destruct s.
Qed.

Lemma with_trace_twice (s : render_manager) (t u : list event) :
  with_trace (with_trace s t) u = with_trace s u.
Proof. reflexivity. Qed.

Lemma with_trace_under (s : render_manager) (t u : list event)
    (l : list (list wf_workspace_stream)) (gl : Z) :
  with_trace (with_gl_names (with_output_streams (with_trace s t) l) gl) u
  = with_trace (with_gl_names (with_output_streams s l) gl) u.
Proof. reflexivity. Qed.

Lemma workspace_stream_update_shape (s : render_manager) (idx : nat * nat)
    (sx sy : Q) :
  workspace_stream_update s idx sx sy = s
  \/ exists stream evs,
       get_stream s idx = Some stream
       /\ let r := fb_allocate (stream_buffer stream)
                     (width (handle (output s)))
                     (height (handle (output s))) (gl_names s) in
          workspace_stream_update s idx sx sy
          = with_trace
              (with_gl_names
                 (set_stream s idx
                    (mkStream (ws stream) (fst r) (running stream)
                              (scale_x stream) (scale_y stream)))
                 (snd r))
              (trace s ++ evs)
       /\ forallb stream_event evs = true.
Proof.
  unfold workspace_stream_update.
  destruct (get_stream s idx) as [stream|]; [|now left].
  destruct (ws stream) as [x y] eqn:Ews.
  destruct (current_workspace (workspace (output s))) as [cx cy].
  rewrite get_ws_damage_state.
  destruct (negb (not_empty (snd (get_ws_damage s (x, y) init))));
    [now left|].
  right. exists stream.
  cbn [output log with_trace gl_names].
  destruct (fb_allocate (stream_buffer stream) _ _ _) as [b' gl'].
  match goal with
  | |- context [collect_damaged ?s' ?w ?dx ?dy ?d] =>
      destruct (collect_damaged s' w dx dy d) as [d2 to_render]
  end.
  match goal with
  | |- context [render_loop ?n ?l ?t ?s'] =>
      destruct (render_loop_logs n l t s') as [evs [E F]];
      destruct (render_loop n l t s') as [target' s'']
  end.
  cbn [snd] in E. subst s''.
  unfold log, set_stream, icons_set_output.
  rm_simpl. repeat rewrite <- app_assoc.
  eexists. split; [reflexivity|]. split.
  - rewrite !with_trace_twice, with_trace_under, Ews. reflexivity.
  - rewrite !forallb_app. cbn [forallb stream_event andb].
    assert (Hi : forall a, forallb stream_event
                   (match renderer s with
                    | Some _ => []
                    | None => map (fun _ : wayfire_drag_icon =>
                                     EvIconSetOutput a)
                                  (mapped_icons (output s))
                    end) = true).
    { intro a. destruct (renderer s); [reflexivity|].
      now induction (mapped_icons (output s)). }
    assert (Hc : forallb stream_event
                   (flat_map (fun r : box32 => [EvScissor r; EvClear 0 0 0 1])
                             (rectangles d2)) = true)
      by now induction (rectangles d2).
    assert (He : forallb stream_event evs = true).
    { rewrite forallb_forall in *. intros e He. specialize (F e He).
      now destruct e. }
    now rewrite !Hi, Hc, He.
Qed.

Lemma list_set_nth {A} (l : list A) (n : nat) (d : A) :
  list_set l n (nth n l d) = l.
Proof.
  revert n. induction l as [|x l IH]; intro n; [reflexivity|].
  destruct n; cbn [list_set nth]; [reflexivity | now rewrite IH].
Qed.

Lemma list_set_same {A} (l : list A) (n : nat) (v : A) :
  nth_error l n = Some v -> list_set l n v = l.
Proof.
  revert n. induction l as [|x l IH]; intros n H; [reflexivity|].
  destruct n; cbn [list_set nth_error] in *.
  - now inversion H.
  - now rewrite IH.
Qed.

Lemma map_list_set {A B} (f : A -> B) (l : list A) (n : nat) (v : A) :
  map f (list_set l n v) = list_set (map f l) n (f v).
Proof.
  revert n. induction l as [|x l IH]; intro n; [reflexivity|].
  destruct n; cbn [list_set map]; [reflexivity | now rewrite IH].
Qed.

(** Writing to a cell a stream that looks the same under [f] leaves the
    grid the same under [f]. *)
Lemma set_stream_map {B} (f : wf_workspace_stream -> B)
    (s : render_manager) (idx : nat * nat) (st st' : wf_workspace_stream) :
  get_stream s idx = Some st -> f st' = f st ->
  map (map f) (output_streams (set_stream s idx st'))
  = map (map f) (output_streams s).
Proof.
  unfold get_stream, set_stream. intros Hg Hf.
  cbn [output_streams with_output_streams].
  rewrite map_list_set, map_list_set, Hf.
  rewrite (list_set_same (map f _) (snd idx) (f st))
    by (rewrite nth_error_map, Hg; reflexivity).
  rewrite <- (map_nth (map f)). apply list_set_nth.
Qed.

Lemma stream_event_plain (evs : list event) :
  forallb stream_event evs = true -> forallb plain_event evs = true.
Proof.
  rewrite !forallb_forall. intros H e He. specialize (H e He).
  now destruct e.
Qed.

Lemma workspace_stream_update_steady (s : render_manager) (idx : nat * nat)
    (sx sy : Q) :
  steady s (workspace_stream_update s idx sx sy).
Proof.
  destruct (workspace_stream_update_shape s idx sx sy)
    as [-> | [stream [evs [Hg [E Hev]]]]]; [apply steady_refl|].
  cbv zeta in E. rewrite E.
  apply steady_same; try reflexivity.
  - unfold ws_tags. cbn [output_streams with_trace with_gl_names].
    now apply (set_stream_map ws s idx stream).
  - apply (extends_events _ _ _ evs); [reflexivity|].
    now apply stream_event_plain.
Qed.

Lemma set_stream_steady (s : render_manager) (idx : nat * nat)
    (st st' : wf_workspace_stream) :
  get_stream s idx = Some st -> ws st' = ws st ->
  steady s (set_stream s idx st').
Proof.
  intros Hg Hw. apply steady_same; try reflexivity.
  - now apply (set_stream_map ws s idx st).
  - now apply extends_refl.
Qed.

Lemma workspace_stream_start_steady (s : render_manager) (idx : nat * nat) :
  steady s (workspace_stream_start s idx).
Proof.
  unfold workspace_stream_start.
  destruct (get_stream s idx) as [stream|] eqn:Hg; [|apply steady_refl].
  destruct (ws stream) as [vx vy] eqn:Ews.
  cbn [output set_stream with_output_streams].
  destruct (current_workspace (workspace (output s))) as [cx cy].
  destruct (wlr_output_transformed_resolution (handle (output s))).
  eapply steady_trans; [|apply workspace_stream_update_steady].
  eapply steady_trans;
    [apply (set_stream_steady s idx stream
              (mkStream (vx, vy) (stream_buffer stream) true 1 1) Hg);
     now rewrite Ews|].
  apply steady_same; try reflexivity. now apply extends_refl.
Qed.

Lemma workspace_stream_stop_steady (s : render_manager) (idx : nat * nat) :
  steady s (workspace_stream_stop s idx).
Proof.
  unfold workspace_stream_stop.
  destruct (get_stream s idx) as [stream|] eqn:Hg; [|apply steady_refl].
  now apply (set_stream_steady s idx stream).
Qed.

Lemma make_current_steady (s : render_manager) (out_damage : region32) :
  steady s (snd (make_current s out_damage)).
Proof.
  destruct (context_ok (damage_manager (output_damage s))) eqn:E.
  - rewrite make_current_ok by exact E.
    apply steady_same; try reflexivity.
    now apply (extends_events _ _ _ [EvMakeCurrent true]).
  - rewrite make_current_failed by exact E.
    apply steady_same; try reflexivity.
    now apply (extends_events _ _ _ [EvMakeCurrent false]).
Qed.

(** ** What a frame keeps *)

Lemma with_gl_names_steady (s : render_manager) (gl : Z) :
  steady s (with_gl_names s gl).
Proof. apply steady_same; try reflexivity. now apply extends_refl. Qed.

Lemma with_default_buffer_steady (s : render_manager)
    (b : wf_framebuffer_base) :
  steady s (with_default_buffer s b).
Proof. apply steady_same; try reflexivity. now apply extends_refl. Qed.

Lemma with_frame_damage_steady (s : render_manager) (d : region32) :
  steady s (with_frame_damage s d).
Proof. apply steady_same; try reflexivity. now apply extends_refl. Qed.

Lemma with_current_ws_stream_steady (s : render_manager)
    (c : option (nat * nat)) :
  steady s (with_current_ws_stream s c).
Proof. apply steady_same; try reflexivity. now apply extends_refl. Qed.

Lemma with_output_damage_steady (s : render_manager)
    (od : wf_output_damage) :
  steady s (with_output_damage s od).
Proof. apply steady_same; try reflexivity. now apply extends_refl. Qed.

Ltac steady_step :=
  first
    [ apply steady_refl
    | eapply steady_trans;
      [|first [ apply log_steady; reflexivity
              | apply with_gl_names_steady
              | apply with_default_buffer_steady
              | apply with_frame_damage_steady
              | apply with_current_ws_stream_steady
              | apply with_output_damage_steady ]] ].

Lemma swap_buffers_steady (s : render_manager) (d : region32) :
  steady s (swap_buffers s d).
Proof. unfold swap_buffers. repeat steady_step. Qed.

(** The pass over the chain keeps the objects and draws. *)
Lemma post_chain_addr (w h : Z) (l : list wf_post_effect) :
  forall (last_buffer : wf_framebuffer_base) (gl : Z),
  let r := post_chain w h last_buffer l gl in
  map entry_id (fst (fst r)) = map entry_id l
  /\ forallb plain_event (snd (fst r)) = true.
Proof.
  induction l as [|p l IH]; intros last_buffer gl; [now split|].
  cbn [post_chain].
  destruct (fb_allocate (buffer p) w h gl) as [b gl1].
  specialize (IH b gl1). cbv zeta in IH.
  destruct (post_chain w h b l gl1) as [[r' ev] gl2].
  cbn [fst snd] in *. destruct IH as [IH1 IH2].
  split; [cbn [map]; now rewrite IH1 | exact IH2].
Qed.

Lemma entry_id_addr (l l' : list wf_post_effect) :
  map entry_id l' = map entry_id l -> map post_addr l' = map post_addr l.
Proof.
  intro E.
  assert (H : forall k, map post_addr k = map fst (map entry_id k))
    by (intro k; rewrite map_map; reflexivity).
  now rewrite !H, E.
Qed.

Section SteadyPaint.

Variable hook_body : effect_hook_t -> list rm_call.

Lemma paint_streams_steady (s : render_manager) (swap_damage : region32) :
  steady s (fst (paint_streams s swap_damage)).
Proof.
  unfold paint_streams.
  destruct (wlr_output_transformed_resolution (handle (output s))) as [w h].
  set (s1 := with_frame_damage s _).
  assert (H1 : steady s s1) by apply with_frame_damage_steady.
  eapply steady_trans; [exact H1|].
  destruct (not_empty (frame_damage s1)); [|apply steady_refl].
  destruct (current_workspace (workspace (output s1))) as [vx vy].
  match goal with
  | |- context [if negb ?c then _ else _] => destruct c
  end; cbn [negb fst].
  - apply workspace_stream_update_steady.
  - eapply steady_trans; [|apply workspace_stream_start_steady].
    eapply steady_trans; [|apply with_current_ws_stream_steady].
    destruct (current_ws_stream s1) as [c|];
      [apply workspace_stream_stop_steady | apply steady_refl].
Qed.

Lemma paint_frame_steady (s : render_manager) :
  steady s (paint_frame hook_body s).
Proof.
  unfold paint_frame.
  destruct (fb_allocate (default_buffer _) _ _ _) as [b0 gl0].
  set (s1 := log EvRenderEnd _).
  assert (H1 : steady s s1) by (subst s1; repeat steady_step).
  clearbody s1.
  set (W := width (handle (output s))). set (Hh := height (handle (output s))).
  clearbody W Hh.
  set (p1 := if damage_debug (runtime_config s1) then _ else _).
  assert (H2 : steady s (fst p1)).
  { eapply steady_trans; [exact H1|]. subst p1.
    destruct (damage_debug (runtime_config s1)); cbn [fst];
      repeat steady_step. }
  destruct p1 as [s2 swap2]. cbn [fst] in H2. clear H1 s1.
  set (p2 := match renderer s2 with Some _ => _ | None => _ end).
  assert (H3 : steady s (fst p2)).
  { eapply steady_trans; [exact H2|]. subst p2.
    destruct (renderer s2); cbn [fst]; [repeat steady_step|].
    apply paint_streams_steady. }
  destruct p2 as [s3 swap3]. cbn [fst] in H3. clear H2 s2.
  set (s4 := run_effects hook_body s3 WF_OUTPUT_EFFECT_OVERLAY).
  assert (H4 : steady s s4)
    by (eapply steady_trans; [exact H3 | apply run_effects_steady]).
  clearbody s4. clear H3 s3.
  set (swap4 := match post_effects s4 with [] => swap3 | _ => _ end).
  clearbody swap4.
  set (s5 := log EvRenderEnd (log (EvSoftwareCursors swap4)
                                  (log EvRenderBegin s4))).
  assert (H5 : steady s s5)
    by (eapply steady_trans; [exact H4 | subst s5; repeat steady_step]).
  clearbody s5. clear H4 s4.
  set (s6 := match post_effects s5 with [] => s5 | _ => _ end).
  assert (H6 : steady s s6).
  { eapply steady_trans; [exact H5|]. subst s6.
    destruct (post_effects s5) as [|p r] eqn:E; [apply steady_refl|].
    destruct (post_chain_addr W Hh (p :: r) (default_buffer s5)
                              (gl_names s5)) as [Ha Hev].
    destruct (post_chain W Hh (default_buffer s5) (p :: r) (gl_names s5))
      as [[l0 ev] gl].
    cbn [fst snd] in Ha, Hev. apply entry_id_addr in Ha.
    apply steady_fields; try reflexivity.
    - unfold heap_ok.
      cbn [post_effects heap_next with_trace with_gl_names
           with_post_effects].
      rewrite E, Ha. intros [N F]. split; [exact N|].
      now apply (Forall_addr _ _ _ Ha).
    - now apply (extends_events _ _ _ ev). }
  clearbody s6. clear H5 s5.
  eapply steady_trans; [|apply post_paint_steady].
  eapply steady_trans; [|apply swap_buffers_steady].
  eapply steady_trans; [exact H6|].
  destruct (negb (output_inhibit s6 =? 0)); repeat steady_step.
Qed.

Lemma paint_steady (s : render_manager) :
  steady s (paint hook_body s).
Proof.
  unfold paint.
  set (s1 := paint_prepare hook_body s).
  assert (H1 : steady s s1).
  { subst s1. unfold paint_prepare.
    eapply steady_trans; [|apply run_effects_steady].
    eapply steady_trans; [|apply with_frame_damage_steady].
    apply cleanup_post_hooks_steady. }
  clearbody s1.
  pose proof (make_current_steady s1 (frame_damage s1)) as Hk.
  destruct (make_current s1 (frame_damage s1)) as [[[r needs_swap] out] s2].
  cbn [snd] in Hk.
  assert (H2 : steady s (with_frame_damage s2 out)).
  { eapply steady_trans; [exact H1|].
    eapply steady_trans; [exact Hk | apply with_frame_damage_steady]. }
  destruct (negb r); [exact H2|].
  destruct (negb needs_swap
            && (constant_redraw (with_frame_damage s2 out) =? 0)).
  - eapply steady_trans; [exact H2 | apply post_paint_steady].
  - eapply steady_trans; [exact H2 | apply paint_frame_steady].
Qed.

End SteadyPaint.

(** ** The manager and its event loop *)

(** [redraw_idle_cb] clears its source: if one was set, one more callback
    has run. *)
Lemma redraw_idle_cb_balance (s : render_manager) :
  redraw_balance (redraw_idle_cb s)
  = redraw_balance s + Z.b2z (idle_redraw_source s)
  /\ damage_balance (redraw_idle_cb s) = damage_balance s
  /\ ws_tags (redraw_idle_cb s) = ws_tags s
  /\ constant_redraw (redraw_idle_cb s) = constant_redraw s
  /\ (heap_ok s -> heap_ok (redraw_idle_cb s)).
Proof.
  unfold redraw_idle_cb, redraw_balance, damage_balance, log.
  cbn [trace idle_redraw_source idle_damage_source with_trace
       with_idle_redraw_source].
  destruct (idle_adds_app (trace s) [EvScheduleFrame]) as [-> ->].
  cbn. rewrite !Nat.add_0_r.
  split; [lia|]. split; [reflexivity|]. split; [reflexivity|].
  split; [reflexivity | tauto].
Qed.

Lemma damage_idle_cb_balance (s : render_manager) :
  redraw_balance (damage_idle_cb s) = redraw_balance s
  /\ damage_balance (damage_idle_cb s)
     = damage_balance s + Z.b2z (idle_damage_source s)
  /\ ws_tags (damage_idle_cb s) = ws_tags s
  /\ constant_redraw (damage_idle_cb s) = constant_redraw s
  /\ (heap_ok s -> heap_ok (damage_idle_cb s)).
Proof.
  destruct (damage_steady s None) as [Hr [Hd [Hw [_ Hh]]]].
  destruct (damage_sched s None) as [Er [Ed [_ [Ec _]]]].
  unfold damage_idle_cb.
  unfold redraw_balance, damage_balance in *.
  cbn [trace idle_redraw_source idle_damage_source with_idle_damage_source].
  rewrite Er, Ed in *.
  split; [exact Hr|]. split; [cbn; lia|]. split; [exact Hw|].
  split; [exact Ec | exact Hh].
Qed.

Lemma with_environment_steady (s : render_manager) (o : wayfire_output)
    (cfg : runtime_config_t) (dm : wlr_output_damage) :
  steady s (with_environment s o cfg dm).
Proof. apply steady_same; try reflexivity. now apply extends_refl. Qed.

(** What a new manager starts with. *)
Lemma render_manager_new_bookkeeping (o : wayfire_output)
    (cfg : runtime_config_t) (dm : wlr_output_damage) (gl : Z) :
  let s := render_manager_new o cfg dm gl in
  redraw_balance s = 0
  /\ damage_balance s = 0
  /\ ws_tags s = ws_grid (vwidth o) (vheight o)
  /\ constant_redraw s = 0
  /\ heap_ok s.
Proof.
  unfold render_manager_new, schedule_redraw, od_add, od_add_box,
    schedule_repaint, log.
  cbn [output handle].
  destruct (wlr_output_transformed_resolution (handle o)).
  cbn. split; [reflexivity|]. split; [reflexivity|]. split.
  - unfold ws_tags, ws_grid, init_default_streams. cbn [output_streams].
    rewrite map_map. apply map_ext. intro i. now rewrite map_map.
  - split; [reflexivity|]. split; constructor.
Qed.

Section Machine.

Variable hook_body : effect_hook_t -> list rm_call.

(** In every state the manager reaches: the counter of constant redraws is
    not negative, the chain holds distinct objects, and the stream grid is
    the grid of some output. *)
Lemma reachable_bookkeeping (s : render_manager) :
  reachable hook_body s ->
  0 <= constant_redraw s
  /\ heap_ok s
  /\ exists n m, ws_tags s = ws_grid n m.
Proof.
  assert (St : forall s s', steady s s' ->
             (0 <= constant_redraw s
              /\ heap_ok s /\ exists n m, ws_tags s = ws_grid n m) ->
             0 <= constant_redraw s'
             /\ heap_ok s' /\ exists n m, ws_tags s' = ws_grid n m).
  { intros s0 s' [_ [_ [Hw [Hc Hh]]]] [C [H [n [m G]]]].
    split; [auto|]. split; [auto|]. exists n, m. congruence. }
  induction 1 as [o cfg dm gl Hgl | s c _ IH | s _ IH | s _ IH | s _ IH
                  | s idx _ IH | s idx sx sy _ IH | s idx _ IH
                  | s o cfg dm _ IH].
  - destruct (render_manager_new_bookkeeping o cfg dm gl)
      as [_ [_ [G [C H]]]].
    split; [rewrite C; lia|]. split; [exact H|].
    now exists (vwidth o), (vheight o).
  - exact (St _ _ (do_call_steady s c) IH).
  - exact (St _ _ (paint_steady hook_body s) IH).
  - destruct (redraw_idle_cb_balance s) as [_ [_ [Hw [Hc Hh]]]].
    destruct IH as [C [H [n [m G]]]].
    split; [lia|]. split; [auto|]. exists n, m. congruence.
  - destruct (damage_idle_cb_balance s) as [_ [_ [Hw [Hc Hh]]]].
    destruct IH as [C [H [n [m G]]]].
    split; [lia|]. split; [auto|]. exists n, m. congruence.
  - exact (St _ _ (workspace_stream_start_steady s idx) IH).
  - exact (St _ _ (workspace_stream_update_steady s idx sx sy) IH).
  - exact (St _ _ (workspace_stream_stop_steady s idx) IH).
  - exact (St _ _ (with_environment_steady s o cfg dm) IH).
Qed.

(** What the loop has run is what was queued less what the sources stand
    for. *)
Lemma machine_step_balance (m m' : machine) (op : machine_op) :
  machine_step hook_body m op = Some m' ->
  Z.of_nat (redraw_cbs_run m) = redraw_balance (manager m) ->
  Z.of_nat (damage_cbs_run m) = damage_balance (manager m) ->
  Z.of_nat (redraw_cbs_run m') = redraw_balance (manager m')
  /\ Z.of_nat (damage_cbs_run m') = damage_balance (manager m')
  /\ ws_tags (manager m') = ws_tags (manager m)
  /\ (reachable hook_body (manager m) ->
      reachable hook_body (manager m')).
Proof.
  assert (St : forall s', steady (manager m) s' ->
             Z.of_nat (redraw_cbs_run m) = redraw_balance (manager m) ->
             Z.of_nat (damage_cbs_run m) = damage_balance (manager m) ->
             Z.of_nat (redraw_cbs_run m) = redraw_balance s'
             /\ Z.of_nat (damage_cbs_run m) = damage_balance s'
             /\ ws_tags s' = ws_tags (manager m)).
  { intros s' [Hr [Hd [Hw _]]] Ir Id. rewrite Hr, Hd. tauto. }
  intros Hs Ir Id. destruct op; cbn [machine_step] in Hs.
  - inversion Hs; subst m'; cbn [manager redraw_cbs_run damage_cbs_run].
    destruct (St _ (do_call_steady (manager m) c) Ir Id) as [A [B C]].
    repeat (split; [assumption|]). apply reach_call.
  - inversion Hs; subst m'; cbn [manager redraw_cbs_run damage_cbs_run].
    destruct (St _ (paint_steady hook_body (manager m)) Ir Id) as [A [B C]].
    repeat (split; [assumption|]). apply reach_frame.
  - destruct (Nat.ltb 0 (pending_redraw m)) eqn:Hp; [|discriminate].
    apply Nat.ltb_lt in Hp. unfold pending_redraw in Hp.
    inversion Hs; subst m'; cbn [manager redraw_cbs_run damage_cbs_run].
    destruct (redraw_idle_cb_balance (manager m)) as [Hr [Hd [Hw _]]].
    rewrite Hr, Hd, Hw.
    assert (idle_redraw_source (manager m) = true).
    { unfold redraw_balance in Ir.
      destruct (idle_redraw_source (manager m)); [reflexivity|].
      cbn in Ir. lia. }
    rewrite H. cbn [Z.b2z].
    split; [lia|]. split; [exact Id|]. split; [reflexivity|].
    apply reach_redraw_idle.
  - destruct (Nat.ltb 0 (pending_damage m)) eqn:Hp; [|discriminate].
    apply Nat.ltb_lt in Hp. unfold pending_damage in Hp.
    inversion Hs; subst m'; cbn [manager redraw_cbs_run damage_cbs_run].
    destruct (damage_idle_cb_balance (manager m)) as [Hr [Hd [Hw _]]].
    rewrite Hr, Hd, Hw.
    assert (idle_damage_source (manager m) = true).
    { unfold damage_balance in Id.
      destruct (idle_damage_source (manager m)); [reflexivity|].
      cbn in Id. lia. }
    rewrite H. cbn [Z.b2z].
    split; [exact Ir|]. split; [lia|]. split; [reflexivity|].
    apply reach_damage_idle.
  - inversion Hs; subst m'; cbn [manager redraw_cbs_run damage_cbs_run].
    destruct (St _ (workspace_stream_start_steady (manager m) idx) Ir Id)
      as [A [B C]].
    repeat (split; [assumption|]). apply reach_stream_start.
  - inversion Hs; subst m'; cbn [manager redraw_cbs_run damage_cbs_run].
    destruct (St _ (workspace_stream_update_steady (manager m) idx sx sy)
                 Ir Id) as [A [B C]].
    repeat (split; [assumption|]). apply reach_stream_update.
  - inversion Hs; subst m'; cbn [manager redraw_cbs_run damage_cbs_run].
    destruct (St _ (workspace_stream_stop_steady (manager m) idx) Ir Id)
      as [A [B C]].
    repeat (split; [assumption|]). apply reach_stream_stop.
  - inversion Hs; subst m'; cbn [manager redraw_cbs_run damage_cbs_run].
    destruct (St _ (with_environment_steady (manager m) o cfg dm) Ir Id)
      as [A [B C]].
    repeat (split; [assumption|]). apply reach_environment.
Qed.

Lemma machine_run_balance (ops : list machine_op) :
  forall m m' : machine,
  machine_run hook_body ops m = Some m' ->
  Z.of_nat (redraw_cbs_run m) = redraw_balance (manager m) ->
  Z.of_nat (damage_cbs_run m) = damage_balance (manager m) ->
  Z.of_nat (redraw_cbs_run m') = redraw_balance (manager m')
  /\ Z.of_nat (damage_cbs_run m') = damage_balance (manager m')
  /\ ws_tags (manager m') = ws_tags (manager m)
  /\ (reachable hook_body (manager m) ->
      reachable hook_body (manager m')).
Proof.
  induction ops as [|op ops IH]; intros m m' Hr Ir Id.
  - inversion Hr; subst m'. tauto.
  - cbn [machine_run] in Hr.
    destruct (machine_step hook_body m op) as [m1|] eqn:Hs; [|discriminate].
    destruct (machine_step_balance m m1 op Hs Ir Id) as [A [B [C D]]].
    destruct (IH m1 m' Hr A B) as [A' [B' [C' D']]].
    split; [exact A'|]. split; [exact B'|]. split; [congruence | auto].
Qed.

Lemma machine_new_run (ops : list machine_op) (o : wayfire_output)
    (cfg : runtime_config_t) (dm : wlr_output_damage) (gl : Z)
    (m : machine) :
  machine_run hook_body ops (machine_new o cfg dm gl) = Some m ->
  Z.of_nat (redraw_cbs_run m) = redraw_balance (manager m)
  /\ Z.of_nat (damage_cbs_run m) = damage_balance (manager m)
  /\ ws_tags (manager m) = ws_grid (vwidth o) (vheight o)
  /\ (0 < gl -> reachable hook_body (manager m)).
Proof.
  intro Hr.
  destruct (render_manager_new_bookkeeping o cfg dm gl)
    as [R [D [G _]]]. cbv zeta in R, D, G.
  destruct (machine_run_balance ops _ m Hr) as [A [B [C E]]].
  - cbn. now rewrite R.
  - cbn. now rewrite D.
  - split; [exact A|]. split; [exact B|]. split.
    + rewrite C. exact G.
    + intro Hgl. apply E. now apply reach_new.
Qed.

End Machine.

(** ** Invariants of the manager *)

Lemma nth_error_map_seq {A} (f : nat -> A) (n i a : nat) :
  nth_error (map f (seq a n)) i
  = if Nat.ltb i n then Some (f (a + i)%nat) else None.
Proof.
  revert i a. induction n as [|n IH]; intros i a.
  - now destruct i.
  - destruct i; cbn [seq map nth_error].
    + now rewrite Nat.add_0_r.
    + rewrite IH. change (Nat.ltb (S i) (S n)) with (Nat.ltb i n).
      now rewrite Nat.add_succ_r.
Qed.

Lemma nth_of_nth_error {A} (l : list A) (i : nat) (d : A) :
  nth i l d = match nth_error l i with Some x => x | None => d end.
Proof.
  revert i. induction l as [|x l IH]; intro i; destruct i; cbn; auto.
Qed.

(** Looking a cell up in a grid tagged like [ws_grid n m]. *)
Lemma grid_lookup (s : render_manager) (n m i j : nat) :
  ws_tags s = ws_grid n m ->
  option_map ws (get_stream s (i, j))
  = if Nat.ltb i n && Nat.ltb j m
    then Some (Z.of_nat i, Z.of_nat j) else None.
Proof.
  intro G. unfold get_stream. cbn [fst snd].
  rewrite <- nth_error_map.
  rewrite <- (map_nth (map ws)).
  change (map (map ws) (output_streams s)) with (ws_tags s). rewrite G.
  unfold ws_grid. rewrite nth_of_nth_error, nth_error_map_seq.
  destruct (Nat.ltb i n); cbn [andb Nat.add].
  - now rewrite nth_error_map_seq.
  - now destruct j.
Qed.

Section Invariants.

Variable hook_body : effect_hook_t -> list rm_call.

(** X1: in every state the manager reaches the counter of constant redraws
    is zero or more: hooks, frames, streams and idle callbacks included,
    no sequence of [auto_redraw] calls takes it below zero. *)
Theorem constant_redraw_never_negative (s : render_manager) :
  reachable hook_body s -> 0 <= constant_redraw s.
Proof. intro H. now destruct (reachable_bookkeeping hook_body s H). Qed.

(** X8: the source pointers follow the event loop.  From a new manager on,
    whatever is called and whenever the loop runs a pending callback,
    [idle_redraw_source] is set exactly while one redraw callback is
    pending and [idle_damage_source] exactly while one damage callback is;
    no second callback of a kind is queued while one is pending.  So the
    destructor, which removes the sources that are set, leaves no callback
    of the manager in the loop. *)
Theorem idle_sources_follow_loop (ops : list machine_op)
    (o : wayfire_output) (cfg : runtime_config_t) (dm : wlr_output_damage)
    (gl : Z) (m : machine) :
  machine_run hook_body ops (machine_new o cfg dm gl) = Some m ->
  sources_agree m /\ pending_after_destroy m = (0, 0)%nat.
Proof.
  intro Hr.
  destruct (machine_new_run hook_body ops o cfg dm gl m Hr)
    as [R [D _]].
  unfold sources_agree, pending_after_destroy, pending_redraw,
    pending_damage.
  unfold redraw_balance in R. unfold damage_balance in D.
  destruct (idle_redraw_source (manager m));
    destruct (idle_damage_source (manager m)); cbn [Z.b2z] in R, D;
    (split; [split; lia | f_equal; lia]).
Qed.

(** X9: the grid of workspace streams is fixed at construction.  Whatever
    happens to the manager afterwards, also when the output changes, the
    streams are those of the [vwidth] x [vheight] workspaces of the output
    the manager was made for, and the stream in cell [(i, j)] is the
    stream of workspace [(i, j)]. *)
Theorem stream_grid_fixed (ops : list machine_op)
    (o : wayfire_output) (cfg : runtime_config_t) (dm : wlr_output_damage)
    (gl : Z) (m : machine) :
  machine_run hook_body ops (machine_new o cfg dm gl) = Some m ->
  forall i j : nat,
    (forall st, get_stream (manager m) (i, j) = Some st ->
                ws st = (Z.of_nat i, Z.of_nat j))
    /\ ((i < vwidth o)%nat /\ (j < vheight o)%nat
        <-> exists st, get_stream (manager m) (i, j) = Some st).
Proof.
  intros Hr i j.
  destruct (machine_new_run hook_body ops o cfg dm gl m Hr)
    as [_ [_ [G _]]].
  pose proof (grid_lookup (manager m) (vwidth o) (vheight o) i j G) as L.
  destruct (get_stream (manager m) (i, j)) as [st|]; cbn [option_map] in L.
  - destruct (Nat.ltb i (vwidth o)) eqn:Ei; [|discriminate].
    destruct (Nat.ltb j (vheight o)) eqn:Ej; [|discriminate].
    apply Nat.ltb_lt in Ei, Ej. cbn [andb] in L. split.
    + intros st' E. inversion E; subst st'. now inversion L.
    + split; [intros _; now exists st | intros _; now split].
  - split; [discriminate|]. split.
    + intros [Hi Hj]. apply Nat.ltb_lt in Hi, Hj.
      rewrite Hi, Hj in L. discriminate.
    + intros [st E]. discriminate.
Qed.

End Invariants.

(** X1 at work: a manager with two post effects. *)
Lemma constant_redraw_never_negative_witness :
  0 <= constant_redraw (auto_redraw ex_two_posts false).
Proof.
  apply (constant_redraw_never_negative ex_hook_body).
  apply (reach_call ex_hook_body _ (CallAutoRedraw false)).
  apply (reach_call ex_hook_body _ (CallAddPost 8%nat)).
  apply (reach_call ex_hook_body _ (CallAddPost 7%nat)).
  now apply reach_new.
Defined.

(** X8 at work: a run of the loop with frames, calls and both callbacks. *)
Lemma idle_sources_follow_loop_witness :
  exists m,
    machine_run ex_hook_body ex_ops ex_machine = Some m
    /\ sources_agree m.
Proof.
  destruct (machine_run ex_hook_body ex_ops ex_machine) as [m|] eqn:E.
  - exists m. split; [reflexivity|].
    exact (proj1 (idle_sources_follow_loop ex_hook_body ex_ops _ _ _ _
                                           m E)).
  - vm_compute in E. discriminate.
Defined.

(** X9 at work: the same run on the 2 x 2 grid of the example output. *)
Lemma stream_grid_fixed_witness :
  exists m,
    machine_run ex_hook_body ex_ops ex_machine = Some m
    /\ exists st, get_stream (manager m) (1%nat, 0%nat) = Some st
                  /\ ws st = (1, 0).
Proof.
  destruct (machine_run ex_hook_body ex_ops ex_machine) as [m|] eqn:E.
  - exists m. split; [reflexivity|].
    destruct (stream_grid_fixed ex_hook_body ex_ops _ _ _ _ m E 1%nat 0%nat)
      as [Hws [Hin _]].
    destruct Hin as [st Hst]; [split; cbn; lia|].
    exists st. split; [exact Hst | exact (Hws st Hst)].
  - vm_compute in E. discriminate.
Defined.

(** ** Which entries a removal takes out of the chain *)

Lemma filter_entry_ids (g : nat * post_hook_t -> bool)
    (f : wf_post_effect -> bool) (l : list wf_post_effect) :
  (forall p, In p l -> g (entry_id p) = f p) ->
  filter g (map entry_id l) = map entry_id (filter f l).
Proof.
  induction l as [|p l IH]; intro H; [reflexivity|].
  cbn [map filter]. rewrite (H p) by now left.
  rewrite IH by (intros q Hq; apply H; now right).
  now destruct (f p).
Qed.

(** [_rem_post] takes the entries at the address out and keeps the
    others, in order. *)
Lemma _rem_post_ids (s : render_manager) (post : nat) :
  map entry_id (post_effects (_rem_post s post))
  = filter (fun i => negb (Nat.eqb (fst i) post))
           (map entry_id (post_effects s)).
Proof.
  rewrite (filter_entry_ids _
             (fun p => negb (Nat.eqb (post_addr p) post)))
    by reflexivity.
  destruct (_rem_post_chain s post) as [_ [[-> ->] | [l0 [x [-> ->]]]]];
    [reflexivity|].
  rewrite !map_app. cbn [map].
  now destruct (negb (fb (buffer x) =? 0)).
Qed.

Lemma cleanup_loop_ids (tr : list wf_post_effect) :
  forall s : render_manager,
  map entry_id
      (post_effects
         (fold_left (fun s post => _rem_post s (post_addr post)) tr s))
  = filter (fun i => negb (existsb (fun q => Nat.eqb (fst i) (post_addr q))
                                   tr))
           (map entry_id (post_effects s)).
Proof.
  induction tr as [|q tr IH]; intro s; cbn [fold_left existsb].
  - induction (map entry_id (post_effects s)) as [|i l IHl];
      [reflexivity|]. cbn [filter negb]. now f_equal.
  - rewrite IH, _rem_post_ids.
    induction (map entry_id (post_effects s)) as [|i l IHl];
      [reflexivity|].
    cbn [filter]. destruct (Nat.eqb (fst i) (post_addr q)); cbn [negb orb].
    + exact IHl.
    + cbn [filter]. now rewrite IHl.
Qed.

Lemma NoDup_map_inj {A B} (f : A -> B) (l : list A) (x y : A) :
  NoDup (map f l) -> In x l -> In y l -> f x = f y -> x = y.
Proof.
  induction l as [|z l IH]; intros N Hx Hy E; [contradiction|].
  cbn [map] in N. inversion N as [|? ? Hz Hl]; subst.
  destruct Hx as [-> | Hx]; destruct Hy as [-> | Hy].
  - reflexivity.
  - exfalso. apply Hz. rewrite E. now apply in_map.
  - exfalso. apply Hz. rewrite <- E. now apply in_map.
  - now apply IH.
Qed.

(** With distinct objects, the addresses collected for removal single out
    the marked entries. *)
Lemma marked_by_address (l : list wf_post_effect) (p : wf_post_effect) :
  NoDup (map post_addr l) -> In p l ->
  existsb (fun q => Nat.eqb (fst (entry_id p)) (post_addr q))
          (filter to_remove l)
  = to_remove p.
Proof.
  intros N Hp. cbn [entry_id fst].
  destruct (to_remove p) eqn:Ep.
  - apply existsb_exists. exists p. split.
    + apply filter_In. now split.
    + apply Nat.eqb_refl.
  - destruct (existsb _ (filter to_remove l)) eqn:Ex; [|reflexivity].
    apply existsb_exists in Ex. destruct Ex as [q [Hq Eq]].
    apply filter_In in Hq. destruct Hq as [Hq Tq].
    apply Nat.eqb_eq in Eq.
    rewrite (NoDup_map_inj post_addr l p q N Hp Hq Eq) in Ep. congruence.
Qed.

Lemma cleanup_post_hooks_ids (s : render_manager) :
  NoDup (map post_addr (post_effects s)) ->
  map entry_id (post_effects (cleanup_post_hooks s))
  = map entry_id (filter (fun p => negb (to_remove p)) (post_effects s)).
Proof.
  intro N. unfold cleanup_post_hooks. rewrite cleanup_loop_ids.
  apply filter_entry_ids. intros p Hp.
  now rewrite marked_by_address.
Qed.

Lemma rem_post_marks (s : render_manager) (h : post_hook_t) :
  post_effects (rem_post s h)
  = map (fun p => if Nat.eqb (hook p) h then set_to_remove p true else p)
        (post_effects s).
Proof.
  unfold rem_post.
  match goal with
  | |- post_effects (damage ?s1 None) = _ =>
      now destruct (damage_chain s1 None) as [-> _]
  end.
Qed.

Section Removal.

Variable hook_body : effect_hook_t -> list rm_call.

(** X10: which entries a removal takes.  In every state the manager reaches,
    the cleanup that follows [rem_post] for a hook leaves exactly the
    entries that were neither marked before nor registered for that hook,
    in their order; without the [rem_post] it leaves the entries not
    marked. *)
Theorem rem_post_removes_exactly (s : render_manager) (h : post_hook_t) :
  reachable hook_body s ->
  map entry_id (post_effects (cleanup_post_hooks (rem_post s h)))
  = map entry_id
      (filter (fun p => negb (to_remove p) && negb (Nat.eqb (hook p) h))
              (post_effects s))
  /\ map entry_id (post_effects (cleanup_post_hooks s))
     = map entry_id (filter (fun p => negb (to_remove p)) (post_effects s)).
Proof.
  intro H. destruct (reachable_bookkeeping hook_body s H) as [_ [[N _] _]].
  split; [|now apply cleanup_post_hooks_ids].
  rewrite cleanup_post_hooks_ids.
  - rewrite rem_post_marks. clear N.
    induction (post_effects s) as [|p l IH]; [reflexivity|].
    cbn [map filter].
    destruct (Nat.eqb (hook p) h) eqn:Eh; cbn [to_remove set_to_remove].
    + rewrite andb_false_r. cbn [negb]. apply IH.
    + rewrite andb_true_r. destruct (to_remove p); cbn [negb map].
      * apply IH.
      * now rewrite IH.
  - rewrite rem_post_marks, map_map.
    erewrite map_ext; [exact N|].
    intro p. now destruct (Nat.eqb (hook p) h).
Qed.

End Removal.

(** X10 at work: of the hooks 7 and 8, the removal of 8 leaves 7. *)
Lemma rem_post_removes_exactly_witness :
  reachable ex_hook_body ex_two_posts
  /\ map entry_id
       (post_effects (cleanup_post_hooks (rem_post ex_two_posts 8%nat)))
     = [(0%nat, 7%nat)].
Proof.
  assert (H : reachable ex_hook_body ex_two_posts).
  { apply (reach_call ex_hook_body _ (CallAddPost 8%nat)).
    apply (reach_call ex_hook_body _ (CallAddPost 7%nat)).
    now apply reach_new. }
  split; [exact H|].
  destruct (rem_post_removes_exactly ex_hook_body ex_two_posts 8%nat H)
    as [E _].
  rewrite E. reflexivity.
Defined.

(** ** The pass over the post chain *)

Lemma fb_allocate_size (b : wf_framebuffer_base) (w h gl : Z) :
  viewport_width (fst (fb_allocate b w h gl)) = w
  /\ viewport_height (fst (fb_allocate b w h gl)) = h.
Proof.
  unfold fb_allocate.
  destruct (fb b =? NO_ID); destruct (tex b =? NO_ID); now split.
Qed.

(** The hooks are called in the order of the chain; each reads what the
    one before wrote, the first reads [last_buffer]; each writes its own
    buffer, at the size of the output. *)
Lemma post_chain_calls (w h : Z) (l : list wf_post_effect) :
  forall (last_buffer : wf_framebuffer_base) (gl : Z),
  let r := post_chain w h last_buffer l gl in
  let calls := post_hook_calls (snd (fst r)) in
  map (fun c => fst (fst c)) calls = map hook l
  /\ map (fun c => snd (fst c)) calls
     = removelast (last_buffer :: map snd calls)
  /\ map snd calls = map buffer (fst (fst r))
  /\ Forall (fun c => viewport_width (snd c) = w
                      /\ viewport_height (snd c) = h) calls.
Proof.
  induction l as [|p l IH]; intros last_buffer gl.
  - cbn. repeat split; constructor.
  - cbn [post_chain].
    destruct (fb_allocate_size (buffer p) w h gl) as [Sw Sh].
    destruct (fb_allocate (buffer p) w h gl) as [b gl1].
    cbn [fst] in Sw, Sh.
    specialize (IH b gl1). cbv zeta in IH.
    destruct (post_chain w h b l gl1) as [[r' ev] gl2].
    cbn [fst snd post_hook_calls map] in *.
    destruct IH as [I1 [I2 [I3 I4]]].
    split; [now rewrite I1|]. split; [|split].
    + rewrite I2. reflexivity.
    + now rewrite I3.
    + constructor; [now split | exact I4].
Qed.

Lemma last_map {A B} (f : A -> B) (l : list A) (d : A) :
  last (map f l) (f d) = f (last l d).
Proof.
  induction l as [|x l IH]; [reflexivity|].
  destruct l as [|y l]; [reflexivity|].
  exact IH.
Qed.

(** X11: the pass over the post chain in [paint].  On a chain in a good
    state (positive GL names, every buffer the display target or a real
    one, the last entry the display target) the hooks run in the order of
    the chain; the first reads the buffer the scene was drawn to and each
    next one reads what the hook before it wrote; every buffer written has
    the size of the output; and the last hook writes to the display, which
    is what the assertion closing the pass demands. *)
Theorem post_chain_links (w h : Z) (l : list wf_post_effect)
    (last_buffer : wf_framebuffer_base) (gl : Z) :
  0 < gl ->
  Forall (fun p => buffer_ids_ok (buffer p)) l ->
  terminal_zero l ->
  l <> [] ->
  let calls :=
    post_hook_calls (snd (fst (post_chain w h last_buffer l gl))) in
  map (fun c => fst (fst c)) calls = map hook l
  /\ map (fun c => snd (fst c)) calls
     = removelast (last_buffer :: map snd calls)
  /\ Forall (fun c => viewport_width (snd c) = w
                      /\ viewport_height (snd c) = h) calls
  /\ fb (last (map snd calls) last_buffer) = 0
  /\ tex (last (map snd calls) last_buffer) = 0.
Proof.
  intros Hgl Hall Ht Hne calls.
  destruct (post_chain_calls w h l last_buffer gl) as [C1 [C2 [C3 C4]]].
  fold calls in C1, C2, C3, C4.
  split; [exact C1|]. split; [exact C2|]. split; [exact C4|].
  destruct (post_chain_ok w h l last_buffer gl Hgl Hall Ht)
    as [_ [Hz [_ Hlen]]].
  rewrite C3.
  destruct (fst (fst (post_chain w h last_buffer l gl))) as [|q r'].
  - destruct l; [contradiction | discriminate].
  - unfold terminal_zero in Hz.
    change (map buffer (q :: r')) with (buffer q :: map buffer r').
    rewrite last_head, last_map. exact Hz.
Qed.

(** X11 at work: the chain of the hooks 7 and 8 on the 200 x 100 output. *)
Lemma post_chain_links_witness :
  let calls :=
    post_hook_calls
      (snd (fst (post_chain 200 100 (default_buffer ex_two_posts)
                            (post_effects ex_two_posts)
                            (gl_names ex_two_posts)))) in
  map (fun c => fst (fst c)) calls = [7%nat; 8%nat]
  /\ fb (last (map snd calls) (default_buffer ex_two_posts)) = 0.
Proof.
  assert (Hg : 0 < gl_names ex_two_posts) by (vm_compute; reflexivity).
  assert (Hall : Forall (fun p => buffer_ids_ok (buffer p))
                        (post_effects ex_two_posts)).
  { vm_compute. constructor; [right; split; discriminate|].
    constructor; [left; split; reflexivity | constructor]. }
  assert (Ht : terminal_zero (post_effects ex_two_posts))
    by (vm_compute; now split).
  assert (Hne : post_effects ex_two_posts <> [])
    by (vm_compute; discriminate).
  destruct (post_chain_links 200 100 (post_effects ex_two_posts)
              (default_buffer ex_two_posts) (gl_names ex_two_posts)
              Hg Hall Ht Hne) as [C1 [_ [_ [C4 _]]]].
  split; [|exact C4]. rewrite C1. vm_compute. reflexivity.
Defined.

(** ** Workspace streams: flags and cells *)

Lemma nth_error_list_set {A} (l : list A) (n k : nat) (v : A) :
  nth_error (list_set l n v) k
  = if Nat.eqb k n && Nat.ltb n (length l) then Some v else nth_error l k.
Proof.
  revert n k. induction l as [|x l IH]; intros n k.
  - cbn [list_set length]. now rewrite andb_false_r.
  - destruct n, k; cbn [list_set nth_error length]; try reflexivity.
    rewrite IH. reflexivity.
Qed.

Lemma nth_list_set {A} (l : list A) (n k : nat) (v d : A) :
  nth k (list_set l n v) d
  = if Nat.eqb k n && Nat.ltb n (length l) then v else nth k l d.
Proof.
  rewrite !nth_of_nth_error, nth_error_list_set.
  now destruct (Nat.eqb k n && Nat.ltb n (length l)).
Qed.

(** [set_stream] leaves the other cells alone. *)
Lemma get_stream_other (s : render_manager) (idx idx' : nat * nat)
    (st' : wf_workspace_stream) :
  idx' <> idx -> get_stream (set_stream s idx st') idx' = get_stream s idx'.
Proof.
  destruct idx as [i j], idx' as [i' j']. intro Hne.
  unfold get_stream, set_stream. cbn [fst snd output_streams
                                      with_output_streams].
  rewrite nth_list_set.
  destruct (Nat.eqb i' i) eqn:Ei; cbn [andb]; [|reflexivity].
  apply Nat.eqb_eq in Ei. subst i'.
  destruct (Nat.ltb i (length (output_streams s))); [|reflexivity].
  rewrite nth_error_list_set.
  destruct (Nat.eqb j' j) eqn:Ej; cbn [andb]; [|reflexivity].
  apply Nat.eqb_eq in Ej. subst j'. now contradiction Hne.
Qed.

(** ... and writes the cell when there is one. *)
Lemma get_stream_same (s : render_manager) (idx : nat * nat)
    (st st' : wf_workspace_stream) :
  get_stream s idx = Some st ->
  get_stream (set_stream s idx st') idx = Some st'.
Proof.
  destruct idx as [i j].
  unfold get_stream, set_stream. cbn [fst snd output_streams
                                      with_output_streams].
  intro Hg. rewrite nth_list_set, Nat.eqb_refl. cbn [andb].
  assert (Hj : (j < length (nth i (output_streams s) []))%nat)
    by (apply nth_error_Some; congruence).
  destruct (Nat.ltb i (length (output_streams s))) eqn:Ei.
  - rewrite nth_error_list_set, Nat.eqb_refl. cbn [andb].
    apply Nat.ltb_lt in Hj. now rewrite Hj.
  - apply Nat.ltb_ge in Ei. rewrite nth_overflow in Hj by exact Ei.
    cbn in Hj. lia.
Qed.

Lemma flags_lookup {B} (f : wf_workspace_stream -> B)
    (s s' : render_manager) (idx : nat * nat) :
  map (map f) (output_streams s') = map (map f) (output_streams s) ->
  option_map f (get_stream s' idx) = option_map f (get_stream s idx).
Proof.
  intro E. unfold get_stream. rewrite <- !nth_error_map.
  rewrite <- !(map_nth (map f)). now rewrite E.
Qed.

(** An update touches one cell, and of that cell the buffer only. *)
Lemma workspace_stream_update_cells (s : render_manager) (idx : nat * nat)
    (sx sy : Q) :
  map (map stream_flags)
      (output_streams (workspace_stream_update s idx sx sy))
  = map (map stream_flags) (output_streams s)
  /\ forall idx', idx' <> idx ->
       get_stream (workspace_stream_update s idx sx sy) idx'
       = get_stream s idx'.
Proof.
  destruct (workspace_stream_update_shape s idx sx sy)
    as [-> | [stream [evs [Hg [E _]]]]]; [now split|].
  cbv zeta in E. rewrite E. split.
  - cbn [output_streams with_trace with_gl_names].
    now apply (set_stream_map stream_flags s idx stream).
  - intros idx' Hne.
    change (get_stream (with_trace (with_gl_names ?a ?g) ?t) idx')
      with (get_stream a idx').
    now apply get_stream_other.
Qed.

(** X12: what the stream operations do to the grid.
    [workspace_stream_update] never stores the scale it is asked for: every
    stream keeps its workspace, its running flag and its scale.
    [workspace_stream_start] leaves the stream running at scale 1,
    [workspace_stream_stop] clears the running flag and keeps the scale.
    None of the three touches another cell of the grid. *)
Theorem stream_operations_on_grid (s : render_manager) (idx : nat * nat)
    (sx sy : Q) :
  map (map stream_flags)
      (output_streams (workspace_stream_update s idx sx sy))
  = map (map stream_flags) (output_streams s)
  /\ option_map stream_flags (get_stream (workspace_stream_start s idx) idx)
     = option_map (fun st => (ws st, true, 1%Q, 1%Q)) (get_stream s idx)
  /\ option_map stream_flags (get_stream (workspace_stream_stop s idx) idx)
     = option_map (fun st => (ws st, false, scale_x st, scale_y st))
                  (get_stream s idx)
  /\ forall idx', idx' <> idx ->
       get_stream (workspace_stream_update s idx sx sy) idx'
       = get_stream s idx'
       /\ get_stream (workspace_stream_start s idx) idx' = get_stream s idx'
       /\ get_stream (workspace_stream_stop s idx) idx' = get_stream s idx'.
Proof.
  destruct (workspace_stream_update_cells s idx sx sy) as [U1 U2].
  split; [exact U1|]. split; [|split].
  - unfold workspace_stream_start.
    destruct (get_stream s idx) as [st|] eqn:Hg;
      [|now rewrite Hg].
    destruct (ws st) as [vx vy] eqn:Ews.
    cbn [output set_stream with_output_streams].
    destruct (current_workspace (workspace (output s))) as [cx cy].
    destruct (wlr_output_transformed_resolution (handle (output s))).
    cbn [ws].
    match goal with
    | |- context [workspace_stream_update ?s1 idx ?a ?b] =>
        destruct (workspace_stream_update_cells s1 idx a b) as [V1 _];
        rewrite (flags_lookup stream_flags s1 _ idx V1)
    end.
    change (get_stream (with_frame_damage ?a ?d) idx)
      with (get_stream a idx).
    rewrite (get_stream_same s idx st _ Hg).
    cbn [option_map stream_flags ws running scale_x scale_y].
    now rewrite Ews.
  - unfold workspace_stream_stop.
    destruct (get_stream s idx) as [st|] eqn:Hg; [|now rewrite Hg].
    now rewrite (get_stream_same s idx st _ Hg).
  - intros idx' Hne. split; [now apply U2|]. split.
    + unfold workspace_stream_start.
      destruct (get_stream s idx) as [st|]; [|reflexivity].
      destruct (ws st) as [vx vy].
      cbn [output set_stream with_output_streams].
      destruct (current_workspace (workspace (output s))) as [cx cy].
      destruct (wlr_output_transformed_resolution (handle (output s))).
      cbn [ws].
      match goal with
      | |- context [workspace_stream_update ?s1 idx ?a ?b] =>
          destruct (workspace_stream_update_cells s1 idx a b) as [_ V2];
          rewrite (V2 idx' Hne)
      end.
      change (get_stream (with_frame_damage ?a ?d) idx')
        with (get_stream a idx').
      now apply get_stream_other.
    + unfold workspace_stream_stop.
      destruct (get_stream s idx) as [st|]; [|reflexivity].
      now apply get_stream_other.
Qed.

(** ** Damage handed to surfaces *)

Lemma region_within_refl (d : region32) : region_within d d.
Proof. intros px py H. exact H. Qed.

Lemma region_within_trans (a b c : region32) :
  region_within a b -> region_within b c -> region_within a c.
Proof. intros H1 H2 px py H. auto. Qed.

Lemma intersect_within (a b : region32) : region_within (intersect a b) b.
Proof.
  intros px py H. rewrite contains_intersect in H.
  now apply andb_true_iff in H.
Qed.

Lemma subtract_within (a b : region32) : region_within (subtract a b) a.
Proof.
  intros px py H. rewrite contains_subtract in H.
  now apply andb_true_iff in H.
Qed.

Section Within.

Variable d : region32.


Lemma schedule_render_snapshotted_view_within (o : wayfire_output)
    (view : wayfire_view_t) (view_dx view_dy : Z) (st : schedule_state) :
  sched_within d st ->
  sched_within d (schedule_render_snapshotted_view o view view_dx view_dy st).
Proof.
  destruct st as [ws_damage to_render]. intros [Hw Hr].
  unfold schedule_render_snapshotted_view.
  match goal with
  | |- context [if not_empty ?x then _ else _] =>
      destruct (not_empty x) eqn:E
  end; [|now split].
  split; [exact Hw|]. cbn [snd]. apply Forall_app. split; [exact Hr|].
  constructor; [|constructor]. split; [exact E|]. cbn [ds_damage].
  eapply region_within_trans; [apply intersect_within | exact Hw].
Qed.

Lemma schedule_render_surface_within (o : wayfire_output)
    (surf : wayfire_surface_t) (x y view_dx view_dy : Z)
    (st : schedule_state) :
  sched_within d st ->
  sched_within d (schedule_render_surface o surf x y view_dx view_dy st).
Proof.
  destruct st as [ws_damage to_render]. intros [Hw Hr].
  unfold schedule_render_surface.
  destruct (negb (surface_mapped surf)); [now split|].
  destruct (negb (not_empty ws_damage)); [now split|].
  match goal with
  | |- context [if not_empty ?x then _ else _] =>
      destruct (not_empty x) eqn:E
  end; [|now split].
  split.
  - cbn [fst]. destruct (Qle_bool OPAQUE_ALPHA (alpha surf)); [|exact Hw].
    unfold subtract_opaque.
    eapply region_within_trans; [apply subtract_within | exact Hw].
  - cbn [snd]. apply Forall_app. split; [exact Hr|].
    constructor; [|constructor]. split; [exact E|]. cbn [ds_damage].
    eapply region_within_trans; [apply intersect_within | exact Hw].
Qed.

Lemma schedule_surfaces_within (o : wayfire_output)
    (l : list (wayfire_surface_t * Z * Z)) (view_dx view_dy : Z) :
  forall st : schedule_state,
  sched_within d st ->
  sched_within d (schedule_surfaces o l view_dx view_dy st).
Proof.
  unfold schedule_surfaces.
  induction l as [|[[surf x] y] l IH]; intros st H; [exact H|].
  cbn [fold_left]. apply IH. now apply schedule_render_surface_within.
Qed.

Lemma schedule_icons_within (o : wayfire_output) (st : schedule_state) :
  sched_within d st -> sched_within d (schedule_icons o st).
Proof.
  unfold schedule_icons. revert st.
  induction (drag_icons o) as [|icon l IH]; intros st H; [exact H|].
  cbn [fold_left]. apply IH.
  destruct (negb (icon_mapped icon)); [exact H|].
  now apply schedule_surfaces_within.
Qed.

Lemma schedule_views_within (o : wayfire_output) (dx dy : Z)
    (vs : list wayfire_view_t) :
  forall st : schedule_state,
  sched_within d st -> sched_within d (schedule_views o dx dy vs st).
Proof.
  induction vs as [|view vs IH]; intros st H; [exact H|].
  cbn [schedule_views].
  destruct (negb (not_empty (fst st))); [exact H|].
  apply IH.
  destruct (negb (view_visible view)); [exact H|].
  destruct (view_offset view dx dy) as [view_dx view_dy].
  destruct (has_transformer view || negb (view_is_mapped view)).
  - now apply schedule_render_snapshotted_view_within.
  - now apply schedule_surfaces_within.
Qed.

Lemma collect_damaged_sched_ok (s : render_manager) (ws_ : Z * Z)
    (dx dy : Z) :
  region_within (fst (collect_damaged s ws_ dx dy d)) d
  /\ Forall (record_within d) (snd (collect_damaged s ws_ dx dy d)).
Proof.
  unfold collect_damaged. apply schedule_views_within.
  assert (H0 : sched_within d (d, []))
    by (split; [apply region_within_refl | constructor]).
  destruct (renderer s); [exact H0|]. now apply schedule_icons_within.
Qed.

End Within.

(** X3: what surfaces are asked to draw.  Whatever the scene, every record
    [workspace_stream_update] collects carries damage that is not empty and
    lies within the damage it started from; the damage left over once all
    views are scheduled lies within it too.  No surface is handed an empty
    region or a pixel that was not damaged. *)
Theorem collected_within_damage (s : render_manager) (ws_ : Z * Z)
    (dx dy : Z) (d : region32) :
  region_within (fst (collect_damaged s ws_ dx dy d)) d
  /\ Forall (record_within d) (snd (collect_damaged s ws_ dx dy d)).
Proof. apply collect_damaged_sched_ok. Qed.

(** ** The events of a painted frame *)

Lemma workspace_stream_update_extends (s : render_manager) (idx : nat * nat)
    (sx sy : Q) :
  extends stream_event s (workspace_stream_update s idx sx sy).
Proof.
  destruct (workspace_stream_update_shape s idx sx sy)
    as [-> | [stream [evs [_ [E Hev]]]]]; [now apply extends_refl|].
  cbv zeta in E. rewrite E. now apply (extends_events _ _ _ evs).
Qed.

Lemma workspace_stream_start_extends (s : render_manager) (idx : nat * nat) :
  extends stream_event s (workspace_stream_start s idx).
Proof.
  unfold workspace_stream_start.
  destruct (get_stream s idx) as [stream|]; [|now apply extends_refl].
  destruct (ws stream) as [vx vy].
  cbn [output set_stream with_output_streams ws].
  destruct (current_workspace (workspace (output s))) as [cx cy].
  destruct (wlr_output_transformed_resolution (handle (output s))).
  eapply extends_trans; [|apply workspace_stream_update_extends].
  now apply extends_refl.
Qed.

Lemma paint_streams_extends (s : render_manager) (swap_damage : region32) :
  extends stream_event s (fst (paint_streams s swap_damage)).
Proof.
  unfold paint_streams.
  destruct (wlr_output_transformed_resolution (handle (output s))) as [w h].
  set (s1 := with_frame_damage s _).
  apply (extends_trans _ s s1); [now apply extends_refl|].
  destruct (not_empty (frame_damage s1)); [|now apply extends_refl].
  destruct (current_workspace (workspace (output s1))) as [vx vy].
  match goal with
  | |- context [if negb ?c then _ else _] => destruct c
  end; cbn [negb fst].
  - apply workspace_stream_update_extends.
  - eapply extends_trans; [|apply workspace_stream_start_extends].
    apply extends_refl.
    destruct (current_ws_stream s1) as [c|]; [|reflexivity].
    unfold workspace_stream_stop. now destruct (get_stream s1 c).
Qed.

Lemma post_chain_events (w h : Z) (l : list wf_post_effect) :
  forall (last_buffer : wf_framebuffer_base) (gl : Z),
  forallb gl_event (snd (fst (post_chain w h last_buffer l gl))) = true.
Proof.
  induction l as [|p l IH]; intros last_buffer gl; [reflexivity|].
  cbn [post_chain].
  destruct (fb_allocate (buffer p) w h gl) as [b gl1].
  specialize (IH b gl1).
  destruct (post_chain w h b l gl1) as [[r' ev] gl2].
  exact IH.
Qed.

Lemma union_rect_within (a : region32) (x y w h : Z) :
  region_within a (union_rect a x y w h)
  /\ region_within (init_rect x y w h) (union_rect a x y w h).
Proof.
  split; intros px py H; unfold union_rect; rewrite contains_union, H;
    [reflexivity | apply orb_true_r].
Qed.

Lemma post_hook_calls_app (t u : list event) :
  post_hook_calls (t ++ u) = post_hook_calls t ++ post_hook_calls u.
Proof.
  induction t as [|e t IH]; [reflexivity|].
  destruct e; cbn [app post_hook_calls]; now rewrite ?IH.
Qed.

Lemma no_posts_of_stream (evs : list event) :
  forallb stream_event evs = true -> post_hook_calls evs = [].
Proof.
  induction evs as [|e evs IH]; [reflexivity|].
  cbn [forallb]. intro H. apply andb_true_iff in H. destruct H as [He H].
  destruct e; try discriminate; cbn [post_hook_calls]; now apply IH.
Qed.

Lemma no_posts_of_hook (evs : list event) :
  forallb hook_event evs = true -> post_hook_calls evs = [].
Proof.
  induction evs as [|e evs IH]; [reflexivity|].
  cbn [forallb]. intro H. apply andb_true_iff in H. destruct H as [He H].
  destruct e; try discriminate; cbn [post_hook_calls]; now apply IH.
Qed.

(** The swap damage the scene branch leaves: the frame damage on the
    output when there is some, else what it was given. *)
Lemma paint_streams_swap (s : render_manager) (swap_damage : region32)
    (px py : Z) :
  let fd :=
    intersect_rect (frame_damage s) 0 0
      (fst (wlr_output_transformed_resolution (handle (output s))))
      (snd (wlr_output_transformed_resolution (handle (output s)))) in
  contains (snd (paint_streams s swap_damage)) px py
  = if not_empty fd then contains fd px py else contains swap_damage px py.
Proof.
  unfold paint_streams.
  destruct (wlr_output_transformed_resolution (handle (output s))) as [w h].
  cbn [fst snd frame_damage with_frame_damage output].
  destruct (not_empty (intersect_rect (frame_damage s) 0 0 w h));
    [|reflexivity].
  destruct (current_workspace (workspace (output s))) as [vx vy].
  match goal with
  | |- context [if negb ?c then _ else _] => destruct c
  end; reflexivity.
Qed.

Section FrameTrace.

Variable hook_body : effect_hook_t -> list rm_call.

(** The trace of a painted frame, piece by piece. *)
Lemma paint_frame_trace (s : render_manager) :
  let W := width (handle (output s)) in
  let H := height (handle (output s)) in
  exists debug scene overlay chain post d,
    trace (paint_frame hook_body s)
    = trace s ++ [EvBindOutput; EvRenderBegin; EvRenderEnd] ++ debug
        ++ scene ++ overlay
        ++ [EvRenderBegin; EvSoftwareCursors d; EvRenderEnd] ++ chain
        ++ [EvUnbindOutput; EvSwapBuffers d] ++ post
    /\ forallb gl_event debug = true
    /\ match renderer s with
       | Some rh =>
           scene
           = [EvRenderer rh
                (get_target_framebuffer
                   (with_default_buffer s
                      (fst (fb_allocate (default_buffer s) W H
                                        (gl_names s)))))]
           /\ region_within (init_rect 0 0 W H) d
       | None => forallb stream_event scene = true
       end
    /\ forallb hook_event overlay = true
    /\ forallb gl_event chain = true
    /\ forallb post_paint_event post = true
    /\ post_hook_calls (debug ++ scene ++ overlay) = []
    /\ forall px py,
         contains d px py = frame_swap_damage s (posts_ran chain) px py.
Proof.
  intros W H. unfold paint_frame. fold W H.
  cbn [default_buffer gl_names log with_trace].
  destruct (fb_allocate (default_buffer s) W H (gl_names s)) as [b0 gl0].
  cbn [fst].
  set (s1 := log EvRenderEnd _).
  assert (T1 : trace s1
               = trace s ++ [EvBindOutput; EvRenderBegin; EvRenderEnd]).
  { subst s1. unfold log. cbn [trace with_trace with_gl_names
                                 with_default_buffer].
    now rewrite <- !app_assoc. }
  assert (R1 : renderer s1 = renderer s) by reflexivity.
  assert (O1 : output s1 = output s) by reflexivity.
  assert (D1 : default_buffer s1 = b0) by reflexivity.
  assert (C1 : runtime_config s1 = runtime_config s) by reflexivity.
  assert (M1 : frame_damage s1 = frame_damage s) by reflexivity.
  clearbody s1.
  set (p1 := if damage_debug (runtime_config s1) then _ else _).
  assert (H2 : exists debug,
             trace (fst p1) = trace s1 ++ debug
             /\ forallb gl_event debug = true
             /\ renderer (fst p1) = renderer s1
             /\ output (fst p1) = output s1
             /\ default_buffer (fst p1) = default_buffer s1
             /\ frame_damage (fst p1) = frame_damage s1
             /\ post_hook_calls debug = []
             /\ forall px py,
                  contains (snd p1) px py
                  = damage_debug (runtime_config s)
                    && in_box px py (rect 0 0 W H)).
  { subst p1. rewrite C1.
    destruct (damage_debug (runtime_config s)); cbn [fst snd].
    - exists [EvRenderBegin; EvClear 1 1 0 1; EvRenderEnd].
      unfold log. cbn [trace with_trace]. rewrite <- !app_assoc.
      repeat (split; [reflexivity|]). intros px py.
      unfold union_rect. now rewrite contains_union, contains_init_rect.
    - exists []. rewrite app_nil_r. now repeat split. }
  destruct p1 as [s2 swap2]. cbn [fst snd] in H2.
  destruct H2 as [debug [T2 [F2 [R2 [O2 [D2 [M2 [P2 S2]]]]]]]].
  set (p2 := match renderer s2 with Some _ => _ | None => _ end).
  assert (H3 : exists scene,
             trace (fst p2) = trace s2 ++ scene
             /\ match renderer s with
                | Some rh =>
                    scene
                    = [EvRenderer rh
                         (get_target_framebuffer (with_default_buffer s b0))]
                    /\ region_within (init_rect 0 0 W H) (snd p2)
                | None => forallb stream_event scene = true
                end
             /\ post_hook_calls scene = []
             /\ forall px py,
                  contains (snd p2) px py
                  = frame_swap_damage s false px py).
  { subst p2. unfold frame_swap_damage. fold W H. rewrite <- R1, <- R2.
    destruct (renderer s2) as [rh|]; cbn [fst snd].
    - eexists. split; [reflexivity|]. split; [split|].
      + unfold get_target_framebuffer.
        cbn [output default_buffer with_default_buffer].
        now rewrite O2, O1, D2, D1.
      + apply union_rect_within.
      + split; [reflexivity|]. intros px py. unfold union_rect.
        rewrite contains_union, contains_init_rect, S2.
        cbn [andb]. rewrite orb_false_r.
        now destruct (damage_debug (runtime_config s)),
          (in_box px py (rect 0 0 W H)).
    - destruct (paint_streams_extends s2 swap2) as [scene [E F]].
      exists scene. split; [exact E|]. split; [exact F|].
      split; [now apply no_posts_of_stream|]. intros px py.
      pose proof (paint_streams_swap s2 swap2 px py) as Hs.
      cbv zeta in Hs. rewrite Hs, M2, M1, O2, O1, S2.
      cbn [andb]. now rewrite orb_false_r. }
  destruct p2 as [s3 swap3]. cbn [fst snd] in H3.
  destruct H3 as [scene [T3 [F3 [P3 S3]]]].
  destruct (run_effects_extends hook_body s3 WF_OUTPUT_EFFECT_OVERLAY)
    as [overlay [T4 F4]].
  set (s4 := run_effects hook_body s3 WF_OUTPUT_EFFECT_OVERLAY) in *.
  clearbody s4.
  set (swap4 := match post_effects s4 with [] => swap3 | _ => _ end).
  assert (Hsw : region_within swap3 swap4).
  { subst swap4. destruct (post_effects s4);
      [apply region_within_refl | apply union_rect_within]. }
  assert (S4 : forall px py,
             contains swap4 px py
             = contains swap3 px py
               || (match post_effects s4 with [] => false | _ => true end
                   && in_box px py (rect 0 0 W H))).
  { intros px py. subst swap4. destruct (post_effects s4).
    - now rewrite orb_false_r.
    - unfold union_rect. now rewrite contains_union, contains_init_rect. }
  clearbody swap4.
  set (s5 := log EvRenderEnd (log (EvSoftwareCursors swap4)
                                  (log EvRenderBegin s4))).
  assert (T5 : trace s5
               = trace s4
                 ++ [EvRenderBegin; EvSoftwareCursors swap4; EvRenderEnd]).
  { subst s5. unfold log. cbn [trace with_trace].
    now rewrite <- !app_assoc. }
  assert (I5 : output_inhibit s5 = output_inhibit s4) by reflexivity.
  assert (E5 : post_effects s5 = post_effects s4) by reflexivity.
  clearbody s5.
  set (s6 := match post_effects s5 with [] => s5 | _ => _ end).
  assert (H6 : exists c1, trace s6 = trace s5 ++ c1
                          /\ forallb gl_event c1 = true
                          /\ posts_ran c1
                             = match post_effects s4 with
                               | [] => false
                               | _ => true
                               end).
  { subst s6. rewrite <- E5. destruct (post_effects s5) as [|p r] eqn:E.
    - exists []. now rewrite app_nil_r.
    - match goal with
      | |- context [post_chain ?w ?h ?lb ?l ?g] =>
          pose proof (post_chain_events w h l lb g) as Hev;
          destruct (post_chain_calls w h l lb g) as [Hc _];
          destruct (post_chain w h lb l g) as [[l0 ev] gl]
      end.
      exists ev. split; [reflexivity|]. split; [exact Hev|].
      cbn [fst snd] in Hc. unfold posts_ran.
      destruct (post_hook_calls ev); [discriminate | reflexivity]. }
  destruct H6 as [c1 [T6 [F6 P6]]]. clearbody s6.
  set (s7 := if negb (output_inhibit s6 =? 0) then _ else s6).
  assert (H7 : exists c2, trace s7 = trace s6 ++ c2
                          /\ forallb gl_event c2 = true
                          /\ post_hook_calls c2 = []).
  { subst s7. destruct (negb (output_inhibit s6 =? 0)).
    - exists [EvRenderBegin; EvClear 0 0 0 1; EvRenderEnd].
      unfold log. cbn [trace with_trace]. now rewrite <- !app_assoc.
    - exists []. now rewrite app_nil_r. }
  destruct H7 as [c2 [T7 [F7 P7]]]. clearbody s7.
  destruct (post_paint_extends hook_body
              (swap_buffers (log EvUnbindOutput s7) swap4))
    as [post [T8 F8]].
  exists debug, scene, overlay, (c1 ++ c2), post, swap4.
  split.
  - rewrite T8. unfold swap_buffers, log.
    cbn [trace with_trace with_output_damage].
    rewrite T7, T6, T5, T4, T3, T2, T1.
    repeat rewrite <- app_assoc. reflexivity.
  - split; [exact F2|]. split.
    + destruct (renderer s); [|exact F3].
      destruct F3 as [E Hw]. split; [exact E|].
      eapply region_within_trans; [exact Hw | exact Hsw].
    + split; [exact F4|]. split; [now rewrite forallb_app, F6, F7|].
      split; [exact F8|]. split.
      * rewrite !post_hook_calls_app, P2, P3.
        now rewrite (no_posts_of_hook _ F4).
      * intros px py. rewrite S4, S3.
        assert (Ep : posts_ran (c1 ++ c2) = posts_ran c1)
          by (unfold posts_ran;
              now rewrite post_hook_calls_app, P7, app_nil_r).
        rewrite Ep, P6. unfold frame_swap_damage. fold W H.
        cbn [andb]. now rewrite orb_false_r.
Qed.

Lemma inner_of_gl (evs : list event) :
  forallb gl_event evs = true -> forallb inner_event evs = true.
Proof.
  rewrite !forallb_forall. intros H e He. specialize (H e He).
  now destruct e.
Qed.

Lemma inner_of_stream (evs : list event) :
  forallb stream_event evs = true -> forallb inner_event evs = true.
Proof.
  rewrite !forallb_forall. intros H e He. specialize (H e He).
  now destruct e.
Qed.

Lemma inner_of_hook (evs : list event) :
  forallb hook_event evs = true -> forallb inner_event evs = true.
Proof.
  rewrite !forallb_forall. intros H e He. specialize (H e He).
  now destruct e.
Qed.

(** X13: the shape of a painted frame.  [paint_frame] binds the output, does
    its work on the GL context, unbinds the output and swaps the buffers,
    once; in between nothing binds, unbinds, swaps or makes the context
    current.  The software cursors are rendered with the very damage that
    is swapped.  After the swap only [post_paint] runs: hooks, their calls
    and frame-done notifications. *)
Theorem paint_frame_brackets (s : render_manager) :
  exists inner d post,
    trace (paint_frame hook_body s)
    = trace s ++ EvBindOutput :: inner
        ++ EvUnbindOutput :: EvSwapBuffers d :: post
    /\ forallb inner_event inner = true
    /\ In (EvSoftwareCursors d) inner
    /\ forallb post_paint_event post = true.
Proof.
  destruct (paint_frame_trace s)
    as [debug [scene [overlay [chain [post [d
         [T [F1 [F2 [F3 [F4 [F5 _]]]]]]]]]]]].
  exists ([EvRenderBegin; EvRenderEnd] ++ debug ++ scene ++ overlay
          ++ [EvRenderBegin; EvSoftwareCursors d; EvRenderEnd] ++ chain),
    d, post.
  split; [|split; [|split; [|exact F5]]].
  - rewrite T. cbn [app]. repeat rewrite <- app_assoc. reflexivity.
  - assert (Hs : forallb inner_event scene = true).
    { destruct (renderer s); [|now apply inner_of_stream].
      destruct F2 as [-> _]. reflexivity. }
    rewrite !forallb_app, (inner_of_gl _ F1), Hs, (inner_of_hook _ F3),
      (inner_of_gl _ F4).
    reflexivity.
  - apply in_or_app. right. apply in_or_app. right.
    apply in_or_app. right. apply in_or_app. right.
    apply in_or_app. left. cbn. tauto.
Qed.

Lemma no_scene_of_gl (evs : list event) :
  forallb gl_event evs = true ->
  forallb (fun e => negb (is_render_fb e || is_renderer e)) evs = true.
Proof.
  rewrite !forallb_forall. intros H e He. specialize (H e He).
  now destruct e.
Qed.

Lemma no_scene_of_post_paint (evs : list event) :
  forallb post_paint_event evs = true ->
  forallb (fun e => negb (is_render_fb e || is_renderer e)) evs = true.
Proof.
  rewrite !forallb_forall. intros H e He. specialize (H e He).
  now destruct e.
Qed.

Lemma post_paint_of_hook (evs : list event) :
  forallb hook_event evs = true -> forallb post_paint_event evs = true.
Proof.
  rewrite !forallb_forall. intros H e He. specialize (H e He).
  now destruct e.
Qed.

(** X14: a frame with a custom renderer.  When a renderer is set on entry,
    [paint_frame] calls it once, on the default buffer at the size of the
    output; the manager itself draws no surface and runs no workspace
    stream; and the damage swapped covers the whole output. *)
Theorem paint_frame_custom_renderer (s : render_manager)
    (rh : render_hook_t) :
  renderer s = Some rh ->
  exists before after d post target,
    trace (paint_frame hook_body s)
    = trace s ++ before ++ EvRenderer rh target :: after
        ++ EvSwapBuffers d :: post
    /\ forallb (fun e => negb (is_render_fb e || is_renderer e))
               (before ++ after ++ post) = true
    /\ region_within
         (init_rect 0 0 (width (handle (output s)))
                    (height (handle (output s)))) d
    /\ geometry target = relative_geometry (output s)
    /\ target_viewport_width target = width (handle (output s))
    /\ target_viewport_height target = height (handle (output s)).
Proof.
  intro Hr.
  destruct (paint_frame_trace s)
    as [debug [scene [overlay [chain [post [d
         [T [F1 [F2 [F3 [F4 [F5 _]]]]]]]]]]]].
  rewrite Hr in F2. destruct F2 as [Es Hd]. subst scene.
  exists ([EvBindOutput; EvRenderBegin; EvRenderEnd] ++ debug),
    (overlay ++ [EvRenderBegin; EvSoftwareCursors d; EvRenderEnd] ++ chain
     ++ [EvUnbindOutput]),
    d, post,
    (get_target_framebuffer
       (with_default_buffer s
          (fst (fb_allocate (default_buffer s) (width (handle (output s)))
                            (height (handle (output s))) (gl_names s))))).
  split; [|split; [|split; [exact Hd | now repeat split]]].
  - rewrite T. cbn [app]. repeat rewrite <- app_assoc. cbn [app].
    repeat rewrite <- app_assoc. reflexivity.
  - rewrite !forallb_app, (no_scene_of_gl _ F1), (no_scene_of_gl _ F4),
      (no_scene_of_post_paint _ (post_paint_of_hook _ F3)),
      (no_scene_of_post_paint _ F5).
    reflexivity.
Qed.

End FrameTrace.

(** X14 at work: a frame of a manager with the renderer 5. *)
Lemma paint_frame_custom_renderer_witness :
  renderer ex_custom = Some 5%nat
  /\ exists before after d post target,
       trace (paint_frame ex_hook_body ex_custom)
       = trace ex_custom ++ before ++ EvRenderer 5%nat target :: after
           ++ EvSwapBuffers d :: post
       /\ region_within (init_rect 0 0 200 100) d.
Proof.
  split; [reflexivity|].
  destruct (paint_frame_custom_renderer ex_hook_body ex_custom 5%nat eq_refl)
    as [before [after [d [post [target [E [_ [Hd _]]]]]]]].
  exists before, after, d, post, target. split; [exact E | exact Hd].
Defined.

(** ** One frame *)

Lemma make_current_trace (s : render_manager) (out_damage : region32) :
  trace (snd (make_current s out_damage))
  = trace s
    ++ [EvMakeCurrent (context_ok (damage_manager (output_damage s)))].
Proof.
  destruct (context_ok (damage_manager (output_damage s))) eqn:E.
  - now rewrite make_current_ok.
  - now rewrite make_current_failed.
Qed.

Lemma quiet_of_post_paint (evs : list event) :
  forallb post_paint_event evs = true ->
  forallb inner_event evs = true /\ filter is_swap evs = [].
Proof.
  induction evs as [|e evs IH]; [now split|].
  cbn [forallb filter]. intro H. apply andb_true_iff in H.
  destruct H as [He H]. destruct (IH H) as [I1 I2].
  destruct e; try discriminate; cbn; now rewrite I1, I2.
Qed.

Lemma no_swap_inner (evs : list event) :
  forallb inner_event evs = true -> filter is_swap evs = [].
Proof.
  induction evs as [|e evs IH]; [reflexivity|].
  cbn [forallb filter]. intro H. apply andb_true_iff in H.
  destruct H as [He H]. rewrite (IH H). now destruct e.
Qed.

Lemma asked_once_inner (evs : list event) :
  forallb inner_event evs = true ->
  forallb (fun e => match e with
                    | EvMakeCurrent _ => false
                    | _ => true
                    end) evs = true.
Proof.
  rewrite !forallb_forall. intros H e He. specialize (H e He).
  now destruct e.
Qed.

Section OneFrame.

Variable hook_body : effect_hook_t -> list rm_call.

Lemma paint_prepare_extends (s : render_manager) :
  extends hook_event s (paint_prepare hook_body s).
Proof.
  unfold paint_prepare.
  eapply extends_trans; [|apply run_effects_extends].
  eapply extends_trans;
    [apply (extends_weaken call_event);
       [intros ev H; now destruct ev | apply cleanup_post_hooks_extends]|].
  now apply extends_refl.
Qed.

(** X15: one frame.  Whatever the state, [paint] runs the pre hooks, asks
    for the context once, and then either gives up (the context could not
    be made current: nothing follows), or goes on and swaps the buffers at
    most once.  The context is not asked for a second time in the frame. *)
Theorem paint_one_frame (s : render_manager) :
  exists pre ok rest,
    trace (paint hook_body s) = trace s ++ pre ++ EvMakeCurrent ok :: rest
    /\ forallb hook_event pre = true
    /\ forallb (fun e => match e with
                         | EvMakeCurrent _ => false
                         | _ => true
                         end) rest = true
    /\ (length (filter is_swap rest) <= 1)%nat
    /\ (ok = false -> rest = []).
Proof.
  destruct (paint_prepare_extends s) as [pre [Tp Fp]].
  unfold paint. set (s1 := paint_prepare hook_body s) in *.
  pose proof (make_current_trace s1 (frame_damage s1)) as Tm.
  pose proof (make_current_result s1 (frame_damage s1)) as Rm.
  destruct (make_current s1 (frame_damage s1)) as [[[r needs_swap] out] s2].
  cbn [fst snd] in Tm, Rm. rewrite <- Rm in Tm.
  set (s3 := with_frame_damage s2 out).
  assert (T3 : trace s3 = trace s ++ pre ++ [EvMakeCurrent r]).
  { subst s3. cbn [trace with_frame_damage]. rewrite Tm, Tp.
    now rewrite <- app_assoc. }
  clearbody s3. exists pre, r.
  destruct r; cbn [negb].
  - destruct (negb needs_swap && (constant_redraw s3 =? 0)).
    + destruct (post_paint_extends hook_body s3) as [post [E F]].
      exists post. rewrite E, T3, <- !app_assoc.
      destruct (quiet_of_post_paint post F) as [Q1 Q2].
      split; [reflexivity|]. split; [exact Fp|]. split.
      * now apply asked_once_inner.
      * rewrite Q2. cbn. split; [lia | discriminate].
    + destruct (paint_frame_trace hook_body s3)
        as [debug [scene [overlay [chain [post [d
             [T [F1 [F2 [F3 [F4 [F5 _]]]]]]]]]]]].
      assert (Hs : forallb inner_event scene = true).
      { destruct (renderer s3); [|now apply inner_of_stream].
        destruct F2 as [-> _]. reflexivity. }
      destruct (quiet_of_post_paint post F5) as [Q1 Q2].
      pose proof (inner_of_gl _ F1) as I1.
      pose proof (inner_of_hook _ F3) as I3.
      pose proof (inner_of_gl _ F4) as I4.
      eexists. rewrite T, T3, <- !app_assoc. cbn [app].
      split; [reflexivity|]. split; [exact Fp|]. split; [|split].
      * cbn [forallb]. rewrite !forallb_app. cbn [forallb].
        rewrite !forallb_app. cbn [forallb].
        now rewrite (asked_once_inner _ I1), (asked_once_inner _ Hs),
          (asked_once_inner _ I3), (asked_once_inner _ I4),
          (asked_once_inner _ Q1).
      * cbn [filter is_swap]. rewrite !filter_app. cbn [filter is_swap].
        rewrite !filter_app. cbn [filter is_swap].
        rewrite (no_swap_inner _ I1), (no_swap_inner _ Hs),
          (no_swap_inner _ I3), (no_swap_inner _ I4), Q2.
        cbn. lia.
      * discriminate.
  - exists []. rewrite T3. split; [reflexivity|]. split; [exact Fp|].
    split; [reflexivity|]. split; [cbn; lia | reflexivity].
Qed.


End OneFrame.

(** Under [damage_debug], a patch of damage and nothing else to swap. *)
Example swap_damage_under_debug :
  filter is_swap (trace (paint_frame ex_hook_body ex_debug))
  = [EvSwapBuffers [rect 5 5 10 10]].
Proof. vm_compute. reflexivity. Qed.
